(** * Network traffic simulator: shallow embedding and verification

    Embedding of [backend/network.js] (the simulation engine),
    [backend/utils/dijkstra.js] (the router) and the two validating
    handlers of [backend/routes/simulate.js].

    Conventions.
    - JavaScript numbers that hold packet counts, rates, capacities and tick
      indices are modelled as [Z]; the engine only adds, subtracts and
      compares them, which is exact on doubles below 2^53.
    - A JavaScript object used as a dictionary is an insertion-ordered
      association list ([Obj.t]): [Object.keys] and [Object.entries] follow
      insertion order, and an assignment to an existing key keeps its place.
    - [Math.random] is an oracle handed to [simulateTick]: [rnd source i] is
      the raw draw of the [i]-th packet of [source] in that tick.
    - A call that does not return normally (an uncaught [TypeError], or a
      loop that never ends) is the outcome [Abort], carrying the state as it
      was left. *)

From Stdlib Require Import List String Ascii ZArith Bool Arith Lia DecimalString.
Import ListNotations.
Local Open Scope string_scope.
Local Open Scope list_scope.
Local Open Scope Z_scope.

Set Implicit Arguments.

(* ------------------------------------------------------------------ *)
(** ** JavaScript objects as insertion-ordered dictionaries            *)
(* ------------------------------------------------------------------ *)

Module Obj.
Section Dict.
Variable V : Type.

Definition t := list (string * V).

(** [o[k]]; [None] is [undefined]. *)
Fixpoint get (k : string) (o : t) : option V :=
  match o with
  | [] => None
  | (k', v) :: r => if String.eqb k' k then Some v else get k r
  end.

(** [o[k] = v]: overwrite in place, or append a new property. *)
Fixpoint set (k : string) (v : V) (o : t) : t :=
  match o with
  | [] => [(k, v)]
  | (k', v') :: r =>
      if String.eqb k' k then (k, v) :: r else (k', v') :: set k v r
  end.

Definition keys (o : t) : list string := map fst o.
Definition values (o : t) : list V := map snd o.
Definition entries (o : t) : list (string * V) := o.
End Dict.
End Obj.

Arguments Obj.get {V} k o.
Arguments Obj.set {V} k v o.
Arguments Obj.keys {V} o.
Arguments Obj.values {V} o.
Arguments Obj.entries {V} o.

(* ------------------------------------------------------------------ *)
(** ** Topology                                                        *)
(* ------------------------------------------------------------------ *)

Record Link := mkLink { from : string; to : string; capacity : Z }.

(** The template literal [`${from}-${to}`]. *)
Definition linkKey (a b : string) : string := (a ++ "-" ++ b)%string.

Definition nodes : list string := ["A"; "B"; "C"; "D"; "E"].

(* ------------------------------------------------------------------ *)
(** ** utils/dijkstra.js                                               *)
(* ------------------------------------------------------------------ *)

Module Dijkstra.

(** A tentative distance: a hop count or JavaScript's [Infinity]. *)
Inductive dist := Finite (n : nat) | Infinity.

Definition dist_ltb (a b : dist) : bool :=
  match a, b with
  | Finite x, Finite y => Nat.ltb x y
  | Finite _, Infinity => true
  | Infinity, _ => false
  end.

Definition dist_add (a : dist) (w : nat) : dist :=
  match a with
  | Finite x => Finite (x + w)
  | Infinity => Infinity
  end.

Record Edge := mkEdge { node : string; weight : nat }.

(** The three mutable tables of the search. [unvisited] is the [Set], in
    insertion order; [previous] maps a node to [null] ([None]) or to its
    predecessor. *)
Record Search := mkSearch {
  distances : Obj.t dist;
  previous : Obj.t (option string);
  unvisited : list string
}.

Definition mem (x : string) (l : list string) : bool :=
  existsb (String.eqb x) l.

(** [unvisited.add(node)] *)
Definition set_add (x : string) (l : list string) : list string :=
  if mem x l then l else l ++ [x].

(** [unvisited.delete(node)] *)
Definition set_delete (x : string) (l : list string) : list string :=
  filter (fun y => negb (String.eqb y x)) l.

(** First [forEach]: distances, predecessors and the unvisited set. *)
Definition init_step (start : string) (s : Search) (n : string) : Search :=
  {| distances := Obj.set n (if String.eqb n start then Finite 0 else Infinity)
                          (distances s);
     previous := Obj.set n None (previous s);
     unvisited := set_add n (unvisited s) |}.

Definition init (ns : list string) (start : string) : Search :=
  fold_left (init_step start) ns (mkSearch [] [] []).

(** Second [forEach]: [graph[node] = []]. *)
Definition emptyGraph (ns : list string) : Obj.t (list Edge) :=
  fold_left (fun g n => Obj.set n [] g) ns [].

(** [graph[a].push({ node: b, weight: 1 })]; [None] when [graph[a]] is
    [undefined] (the call throws a [TypeError]). *)
Definition push_edge (a b : string) (g : Obj.t (list Edge))
  : option (Obj.t (list Edge)) :=
  match Obj.get a g with
  | Some es => Some (Obj.set a (es ++ [mkEdge b 1]) g)
  | None => None
  end.

(** Third [forEach]: both directions of every link. *)
Fixpoint addLinks (ls : list Link) (g : Obj.t (list Edge))
  : option (Obj.t (list Edge)) :=
  match ls with
  | [] => Some g
  | l :: r =>
      match push_edge (from l) (to l) g with
      | Some g1 =>
          match push_edge (to l) (from l) g1 with
          | Some g2 => addLinks r g2
          | None => None
          end
      | None => None
      end
  end.

(** The [for ... of unvisited] scan: the first node of least distance,
    provided that distance is below [Infinity]. *)
Definition scan_step (d : Obj.t dist) (acc : option string * dist) (n : string)
  : option string * dist :=
  match Obj.get n d with
  | Some dn => if dist_ltb dn (snd acc) then (Some n, dn) else acc
  | None => acc
  end.

Definition scan (d : Obj.t dist) (u : list string) : option string * dist :=
  fold_left (scan_step d) u (None, Infinity).

(** One neighbour of [currentNode] in [graph[currentNode].forEach]. *)
Definition relax (currentNode : string) (s : Search) (neighbor : Edge) : Search :=
  if mem (node neighbor) (unvisited s) then
    match Obj.get currentNode (distances s), Obj.get (node neighbor) (distances s) with
    | Some dc, Some dn =>
        let newDistance := dist_add dc (weight neighbor) in
        if dist_ltb newDistance dn then
          {| distances := Obj.set (node neighbor) newDistance (distances s);
             previous := Obj.set (node neighbor) (Some currentNode) (previous s);
             unvisited := unvisited s |}
        else s
    | _, _ => s
    end
  else s.

(** The [while (unvisited.size > 0)] loop. Every iteration that does not
    leave the loop deletes one node from [unvisited]; [fuel] bounds the
    number of iterations and [None] means it ran out. *)
Fixpoint search (fuel : nat) (graph : Obj.t (list Edge)) (end_ : string)
         (s : Search) : option Search :=
  match unvisited s with
  | [] => Some s
  | _ :: _ =>
      match scan (distances s) (unvisited s) with
      | (None, _) => Some s
      | (Some currentNode, _) =>
          match Obj.get currentNode (distances s) with
          | Some Infinity => Some s
          | _ =>
              let s1 := {| distances := distances s;
                           previous := previous s;
                           unvisited := set_delete currentNode (unvisited s) |} in
              if String.eqb currentNode end_ then Some s1
              else
                let s2 := match Obj.get currentNode graph with
                          | Some es => fold_left (relax currentNode) es s1
                          | None => s1
                          end in
                match fuel with
                | O => None
                | S f => search f graph end_ s2
                end
          end
      end
  end.

(** The [while (currentNode !== null)] loop. [cur] is [None] for [null].
    When [previous[currentNode]] is [undefined] the JavaScript loop goes
    on with [undefined] for ever; the model answers [None] there, as it
    does when [fuel] runs out. *)
Fixpoint walkBack (fuel : nat) (prev : Obj.t (option string))
         (cur : option string) (path : list string) : option (list string) :=
  match cur with
  | None => Some path
  | Some c =>
      match fuel with
      | O => None
      | S f =>
          match Obj.get c prev with
          | Some p => walkBack f prev p (c :: path)
          | None => None
          end
      end
  end.

Definition dijkstra (ns : list string) (ls : list Link) (start end_ : string)
  : option (list string) :=
  let s0 := init ns start in
  match addLinks ls (emptyGraph ns) with
  | None => None
  | Some graph =>
      match search (List.length ns) graph end_ s0 with
      | None => None
      | Some s =>
          match walkBack (S (List.length ns)) (previous s) (Some end_) [] with
          | None => None
          | Some path =>
              match path with
              | p0 :: _ => if String.eqb p0 start then Some path else Some []
              | [] => Some []
              end
          end
      end
  end.

End Dijkstra.

Definition links_init : list Link :=
  [ mkLink "A" "B" 100; mkLink "A" "C" 80; mkLink "B" "D" 70;
    mkLink "C" "D" 90; mkLink "C" "E" 100; mkLink "D" "E" 60 ].


(* ------------------------------------------------------------------ *)
(** ** network.js: state                                               *)
(* ------------------------------------------------------------------ *)

Record NodeStat := mkNodeStat {
  packetsGenerated : Z;
  packetsReceived : Z;
  currentLoad : Z
}.

(** One element of a packet's [route]. *)
Record Hop := mkHop {
  hop_from : string;
  hop_to : string;
  hop_transmitted : bool;
  hop_linkKey : string
}.

Record Packet := mkPacket {
  pkt_id : string;
  pkt_source : string;
  pkt_destination : string;
  pkt_path : list string;
  pkt_route : list Hop;
  pkt_transmitted : bool;
  pkt_timestamp : Z
}.

Record NetworkState := mkNetworkState {
  currentTime : string;
  isRunning : bool;
  simulationStep : Z;
  queues : Obj.t Z;
  linkLoads : Obj.t Z;
  packetStats : list Packet;
  nodeStats : Obj.t NodeStat;
  totalPacketsGenerated : Z;
  totalPacketsTransmitted : Z
}.

(** The module-level variables of network.js that change at run time:
    [networkState], the capacities inside [links], and the rates inside
    [trafficRates]. [nodes] is never assigned. *)
Record World := mkWorld {
  networkState : NetworkState;
  links : list Link;
  trafficRates : Obj.t (Obj.t Z)
}.

Definition trafficRates_init : Obj.t (Obj.t Z) :=
  [ ("08:00", [("A", 50); ("B", 30); ("C", 40); ("D", 20); ("E", 60)]);
    ("08:15", [("A", 55); ("B", 35); ("C", 45); ("D", 25); ("E", 65)]);
    ("08:30", [("A", 60); ("B", 40); ("C", 50); ("D", 30); ("E", 70)]);
    ("08:45", [("A", 55); ("B", 35); ("C", 45); ("D", 25); ("E", 65)]) ].

Definition networkState_init : NetworkState :=
  {| currentTime := "08:00"; isRunning := false; simulationStep := 0;
     queues := []; linkLoads := []; packetStats := []; nodeStats := [];
     totalPacketsGenerated := 0; totalPacketsTransmitted := 0 |}.

(** The state right after the module is loaded. *)
Definition world_init : World :=
  {| networkState := networkState_init;
     links := links_init;
     trafficRates := trafficRates_init |}.

Definition set_currentTime (v : string) (n : NetworkState) : NetworkState :=
  mkNetworkState v (isRunning n) (simulationStep n) (queues n) (linkLoads n)
    (packetStats n) (nodeStats n) (totalPacketsGenerated n) (totalPacketsTransmitted n).
Definition set_isRunning (v : bool) (n : NetworkState) : NetworkState :=
  mkNetworkState (currentTime n) v (simulationStep n) (queues n) (linkLoads n)
    (packetStats n) (nodeStats n) (totalPacketsGenerated n) (totalPacketsTransmitted n).
Definition set_simulationStep (v : Z) (n : NetworkState) : NetworkState :=
  mkNetworkState (currentTime n) (isRunning n) v (queues n) (linkLoads n)
    (packetStats n) (nodeStats n) (totalPacketsGenerated n) (totalPacketsTransmitted n).
Definition set_queues (v : Obj.t Z) (n : NetworkState) : NetworkState :=
  mkNetworkState (currentTime n) (isRunning n) (simulationStep n) v (linkLoads n)
    (packetStats n) (nodeStats n) (totalPacketsGenerated n) (totalPacketsTransmitted n).
Definition set_linkLoads (v : Obj.t Z) (n : NetworkState) : NetworkState :=
  mkNetworkState (currentTime n) (isRunning n) (simulationStep n) (queues n) v
    (packetStats n) (nodeStats n) (totalPacketsGenerated n) (totalPacketsTransmitted n).
Definition set_packetStats (v : list Packet) (n : NetworkState) : NetworkState :=
  mkNetworkState (currentTime n) (isRunning n) (simulationStep n) (queues n) (linkLoads n)
    v (nodeStats n) (totalPacketsGenerated n) (totalPacketsTransmitted n).
Definition set_nodeStats (v : Obj.t NodeStat) (n : NetworkState) : NetworkState :=
  mkNetworkState (currentTime n) (isRunning n) (simulationStep n) (queues n) (linkLoads n)
    (packetStats n) v (totalPacketsGenerated n) (totalPacketsTransmitted n).
Definition set_totalPacketsGenerated (v : Z) (n : NetworkState) : NetworkState :=
  mkNetworkState (currentTime n) (isRunning n) (simulationStep n) (queues n) (linkLoads n)
    (packetStats n) (nodeStats n) v (totalPacketsTransmitted n).
Definition set_totalPacketsTransmitted (v : Z) (n : NetworkState) : NetworkState :=
  mkNetworkState (currentTime n) (isRunning n) (simulationStep n) (queues n) (linkLoads n)
    (packetStats n) (nodeStats n) (totalPacketsGenerated n) v.

(* ------------------------------------------------------------------ *)
(** ** The engine monad                                                *)
(* ------------------------------------------------------------------ *)

(** A call either returns a value in a new state, or does not return
    normally and leaves the state as it was at that point. *)
Inductive Outcome (A : Type) : Type :=
| Done (a : A) (w : World)
| Abort (w : World).
Arguments Done {A} a w.
Arguments Abort {A} w.

Definition Engine (A : Type) : Type := World -> Outcome A.

Definition ret {A} (a : A) : Engine A := fun w => Done a w.
Definition bind {A B} (m : Engine A) (k : A -> Engine B) : Engine B :=
  fun w => match m w with
           | Done a w' => k a w'
           | Abort w' => Abort w'
           end.
Definition abort {A} : Engine A := fun w => Abort w.
Definition gets {A} (f : NetworkState -> A) : Engine A :=
  fun w => Done (f (networkState w)) w.
Definition modify (f : NetworkState -> NetworkState) : Engine unit :=
  fun w => Done tt (mkWorld (f (networkState w)) (links w) (trafficRates w)).
Definition getLinks : Engine (list Link) := fun w => Done (links w) w.
Definition getRates : Engine (Obj.t (Obj.t Z)) := fun w => Done (trafficRates w) w.

Declare Scope engine_scope.
Delimit Scope engine_scope with engine.
Notation "x <- m ;; k" := (bind m (fun x => k))
  (at level 61, m at next level, right associativity) : engine_scope.
Notation "m ;; k" := (bind m (fun _ => k))
  (at level 61, right associativity) : engine_scope.
Local Open Scope engine_scope.

(** The state a call leaves behind, however it ended. *)
Definition stateOf {A} (o : Outcome A) : World :=
  match o with Done _ w => w | Abort w => w end.

(** [array.forEach] with a callback that may throw. *)
Fixpoint forEach {A} (f : A -> Engine unit) (l : list A) : Engine unit :=
  match l with
  | [] => ret tt
  | x :: r => f x ;; forEach f r
  end.

(** [x || 0] for a numeric property that may be [undefined]. *)
Definition orZero (x : option Z) : Z :=
  match x with Some v => v | None => 0 end.

(* ------------------------------------------------------------------ *)
(** ** network.js: operations                                          *)
(* ------------------------------------------------------------------ *)

Definition nodeStat_init : NodeStat := mkNodeStat 0 0 0.

Definition initializeNetwork : Engine unit :=
  modify (set_queues []) ;;
  modify (set_linkLoads []) ;;
  modify (set_nodeStats []) ;;
  forEach (fun n => modify (fun s => set_nodeStats (Obj.set n nodeStat_init (nodeStats s)) s))
          nodes ;;
  ls <- getLinks ;;
  forEach (fun link =>
             let key := linkKey (from link) (to link) in
             modify (fun s => set_linkLoads (Obj.set key 0 (linkLoads s)) s) ;;
             modify (fun s => set_queues (Obj.set key 0 (queues s)) s))
          ls.

(** [availableNodes[Math.floor(Math.random() * availableNodes.length)]],
    where [r] is the draw: every index below the length is possible and no
    other; [None] is [undefined] (no node is available). *)
Definition getRandomDestination (source : string) (r : nat) : option string :=
  let availableNodes := filter (fun n => negb (String.eqb n source)) nodes in
  nth_error availableNodes (r mod List.length availableNodes)%nat.

(** [links.find(l => `${l.from}-${l.to}` === linkKey)] *)
Definition findLink (key : string) (ls : list Link) : option Link :=
  find (fun l => String.eqb (linkKey (from l) (to l)) key) ls.

Definition processQueuedPackets : Engine unit :=
  qs <- gets queues ;;
  forEach (fun key =>
             q <- gets (fun s => Obj.get key (queues s)) ;;
             if 0 <? orZero q then
               ls <- getLinks ;;
               match findLink key ls with
               | Some link =>
                   let processable := Z.min (orZero q) (capacity link) in
                   modify (fun s => set_queues
                             (Obj.set key (orZero (Obj.get key (queues s)) - processable)
                                      (queues s)) s) ;;
                   modify (fun s => set_totalPacketsTransmitted
                             (totalPacketsTransmitted s + processable) s)
               | None => ret tt
               end
             else ret tt)
          (Obj.keys qs).

Definition updateLinkLoad (key : string) (packets : Z) : Engine bool :=
  ls <- getLinks ;;
  match findLink key ls with
  | None => ret false
  | Some link =>
      currentLoad <- gets (fun s => orZero (Obj.get key (linkLoads s))) ;;
      let newLoad := currentLoad + packets in
      if capacity link <? newLoad then
        let excess := newLoad - capacity link in
        modify (fun s => set_queues
                  (Obj.set key (orZero (Obj.get key (queues s)) + excess) (queues s)) s) ;;
        modify (fun s => set_linkLoads (Obj.set key (capacity link) (linkLoads s)) s) ;;
        ret false
      else
        modify (fun s => set_linkLoads (Obj.set key newLoad (linkLoads s)) s) ;;
        ret true
  end.

(** The inner [for (let j = 0; j < path.length - 1; j++)] loop, with its two
    accumulators [packetRoute] and [packetTransmitted]. *)
Fixpoint transmit (path : list string) (packetRoute : list Hop)
         (packetTransmitted : bool) : Engine (list Hop * bool) :=
  match path with
  | a :: ((b :: _) as rest) =>
      let key := linkKey a b in
      transmitted <- updateLinkLoad key 1 ;;
      transmit rest (packetRoute ++ [mkHop a b transmitted key])
               (if transmitted then packetTransmitted else false)
  | _ => ret (packetRoute, packetTransmitted)
  end.

Definition packetId (source destination : string) (i : nat) : string :=
  (source ++ "-" ++ destination ++ "-" ++ NilZero.string_of_uint (Nat.to_uint i))%string.

(** The body of the packet loop once the destination is drawn. *)
Definition sendPacket (source destination : string) (i : nat) : Engine unit :=
  ls <- getLinks ;;
  match Dijkstra.dijkstra nodes ls source destination with
  | None => abort
  | Some path =>
      if (List.length path <? 2)%nat then ret tt
      else
        r <- transmit path [] true ;;
        let '(packetRoute, packetTransmitted) := r in
        step <- gets simulationStep ;;
        modify (fun s => set_packetStats
                  (packetStats s ++
                   [mkPacket (packetId source destination i) source destination path
                             packetRoute packetTransmitted step]) s) ;;
        if packetTransmitted then
          st <- gets (fun s => Obj.get destination (nodeStats s)) ;;
          match st with
          | None => abort
          | Some ns =>
              modify (fun s => set_nodeStats
                        (Obj.set destination
                           (mkNodeStat (packetsGenerated ns) (packetsReceived ns + 1)
                                       (currentLoad ns))
                           (nodeStats s)) s) ;;
              modify (fun s => set_totalPacketsTransmitted (totalPacketsTransmitted s + 1) s)
          end
        else ret tt
  end.

Definition packetStep (rnd : string -> nat -> nat) (source : string) (i : nat)
  : Engine unit :=
  match getRandomDestination source (rnd source i) with
  | None => abort
  | Some destination => sendPacket source destination i
  end.

(** [for (let i = 0; i < rate; i++)]: [n] iterations remain and the
    counter stands at [i]. *)
Fixpoint packetLoop (rnd : string -> nat -> nat) (source : string)
         (n : nat) (i : nat) : Engine unit :=
  match n with
  | O => ret tt
  | S n' => packetStep rnd source i ;; packetLoop rnd source n' (S i)
  end.

(** The callback of [Object.entries(currentRates).forEach]. The local
    [tickPacketsGenerated] is threaded as the result. *)
Definition sourceStep (rnd : string -> nat -> nat) (tickPacketsGenerated : Z)
           (e : string * Z) : Engine Z :=
  let '(source, rate) := e in
  st <- gets (fun s => Obj.get source (nodeStats s)) ;;
  match st with
  | None => abort
  | Some ns =>
      modify (fun s => set_nodeStats
                (Obj.set source
                   (mkNodeStat (packetsGenerated ns + rate) (packetsReceived ns) rate)
                   (nodeStats s)) s) ;;
      packetLoop rnd source (Z.to_nat rate) 0 ;;
      ret (tickPacketsGenerated + rate)
  end.

Fixpoint sourceLoop (rnd : string -> nat -> nat) (tickPacketsGenerated : Z)
         (es : list (string * Z)) : Engine Z :=
  match es with
  | [] => ret tickPacketsGenerated
  | e :: r => t <- sourceStep rnd tickPacketsGenerated e ;; sourceLoop rnd t r
  end.

(** Everything [simulateTick] does after draining the backlog. *)
Definition generateTraffic (rnd : string -> nat -> nat) (currentRates : Obj.t Z)
  : Engine unit :=
  tickPacketsGenerated <- sourceLoop rnd 0 (Obj.entries currentRates) ;;
  modify (fun s => set_totalPacketsGenerated
            (totalPacketsGenerated s + tickPacketsGenerated) s) ;;
  modify (fun s => set_simulationStep (simulationStep s + 1) s).

Definition simulateTick (rnd : string -> nat -> nat) : Engine unit :=
  rates <- getRates ;;
  now <- gets currentTime ;;
  match Obj.get now rates with
  | None => ret tt
  | Some currentRates =>
      modify (set_linkLoads []) ;;
      modify (set_packetStats []) ;;
      processQueuedPackets ;;
      generateTraffic rnd currentRates
  end.

(** A floating-point quotient the engine only reports: [quot_num / quot_den]
    in JavaScript arithmetic. Its rounding and formatting are not modelled;
    the two operands determine it. *)
Record Quot := mkQuot { quot_num : Z; quot_den : Z }.

(** [(num / den * 100).toFixed(2)] *)
Inductive Percent := PercentOf (q : Quot).

(** [summary.packetLoss]: the number [0], or a formatted percentage. *)
Inductive Loss := LossZero | LossPercent (p : Percent).

Module LinkStat.
Record t := mk {
  from : string;
  to : string;
  capacity : Z;
  currentLoad : Z;
  utilization : Percent;
  queueSize : Z;
  congested : bool
}.
End LinkStat.

(** [{ id: node, ...networkState.nodeStats[node] }]: spreading [undefined]
    adds nothing. *)
Module NodeView.
Record t := mk { id : string; stats : option NodeStat }.
End NodeView.

Module Summary.
Record t := mk {
  totalPacketsGenerated : Z;
  totalPacketsTransmitted : Z;
  packetLoss : Loss;
  averageQueueSize : Quot
}.
End Summary.

Module Stats.
Record t := mk {
  currentTime : string;
  simulationStep : Z;
  isRunning : bool;
  nodes : list NodeView.t;
  links : list LinkStat.t;
  packets : list Packet;
  summary : Summary.t
}.
End Stats.

Definition linkStat (s : NetworkState) (link : Link) : LinkStat.t :=
  let key := linkKey (from link) (to link) in
  let load := orZero (Obj.get key (linkLoads s)) in
  let queueSize := orZero (Obj.get key (queues s)) in
  LinkStat.mk (from link) (to link) (capacity link) load
    (PercentOf (mkQuot load (capacity link)))
    queueSize
    ((capacity link <=? load) || (0 <? queueSize)).

Definition getNetworkStats : Engine Stats.t :=
  ls <- getLinks ;;
  s <- gets (fun s => s) ;;
  let linkStats := map (linkStat s) ls in
  ret (Stats.mk
         (currentTime s) (simulationStep s) (isRunning s)
         (map (fun n => NodeView.mk n (Obj.get n (nodeStats s))) nodes)
         linkStats
         (packetStats s)
         (Summary.mk
            (totalPacketsGenerated s)
            (totalPacketsTransmitted s)
            (if 0 <? totalPacketsGenerated s
             then LossPercent (PercentOf
                    (mkQuot (totalPacketsGenerated s - totalPacketsTransmitted s)
                            (totalPacketsGenerated s)))
             else LossZero)
            (mkQuot (fold_left Z.add (Obj.values (queues s)) 0)
                    (Z.of_nat (List.length ls))))).

Definition startSimulation : Engine unit :=
  modify (set_isRunning true) ;;
  initializeNetwork.

Definition pauseSimulation : Engine unit :=
  modify (set_isRunning false).

Definition resetSimulation : Engine unit :=
  modify (set_isRunning false) ;;
  modify (set_simulationStep 0) ;;
  modify (set_currentTime "08:00") ;;
  modify (set_totalPacketsGenerated 0) ;;
  modify (set_totalPacketsTransmitted 0) ;;
  initializeNetwork.

Definition updateTrafficRates (nodeId : string) (newRate : Z) : Engine bool :=
  rates <- getRates ;;
  now <- gets currentTime ;;
  match Obj.get now rates with
  | Some table =>
      if Dijkstra.mem nodeId nodes then
        (fun w => Done true
           (mkWorld (networkState w) (links w)
                    (Obj.set now (Obj.set nodeId newRate table) (trafficRates w))))
      else ret false
  | None => ret false
  end.

(** The test [l.from === from && l.to === to] of [updateLinkCapacity]. *)
Definition joins (a b : string) (l : Link) : bool :=
  String.eqb (from l) a && String.eqb (to l) b.

(** [link.capacity = newCapacity] on the first link that [find] returns. *)
Fixpoint setCapacity (a b : string) (newCapacity : Z) (ls : list Link) : list Link :=
  match ls with
  | [] => []
  | l :: r =>
      if joins a b l
      then mkLink (from l) (to l) newCapacity :: r
      else l :: setCapacity a b newCapacity r
  end.

Definition updateLinkCapacity (a b : string) (newCapacity : Z) : Engine bool :=
  ls <- getLinks ;;
  match find (joins a b) ls with
  | Some _ =>
      (fun w => Done true
         (mkWorld (networkState w) (setCapacity a b newCapacity (links w)) (trafficRates w)))
  | None => ret false
  end.

(** [timeSlots.indexOf(x)], [-1] when absent. *)
Fixpoint indexOf (x : string) (l : list string) : Z :=
  match l with
  | [] => -1
  | y :: r =>
      if String.eqb y x then 0
      else let i := indexOf x r in if i <? 0 then -1 else i + 1
  end.

Definition advanceTimeSlot : Engine unit :=
  rates <- getRates ;;
  now <- gets currentTime ;;
  let timeSlots := Obj.keys rates in
  let currentIndex := indexOf now timeSlots in
  if currentIndex <? Z.of_nat (List.length timeSlots) - 1 then
    (* the index read is below the length by the test just made *)
    modify (set_currentTime (nth (Z.to_nat (currentIndex + 1)) timeSlots now))
  else ret tt.

(* ------------------------------------------------------------------ *)
(** ** routes/simulate.js: the two handlers that validate              *)
(* ------------------------------------------------------------------ *)

(** The status of the JSON answer. *)
Inductive Status := Status200 | Status400 | Status404.

(** [POST /traffic/:nodeId]. The [rate] field of the body is modelled for
    a JSON integer ([Some r]) and for a missing field ([None]); on an
    integer [parseInt] is the identity. The test is [!rate || rate < 0]. *)
Definition postTraffic (nodeId : string) (rate : option Z) : Engine Status :=
  match rate with
  | None => ret Status400
  | Some r =>
      if (r =? 0) || (r <? 0) then ret Status400
      else
        updated <- updateTrafficRates nodeId r ;;
        ret (if updated then Status200 else Status404)
  end.

(** [POST /link/:from/:to/capacity], with the test
    [!capacity || capacity <= 0]. *)
Definition postLinkCapacity (a b : string) (cap : option Z) : Engine Status :=
  match cap with
  | None => ret Status400
  | Some c =>
      if (c =? 0) || (c <=? 0) then ret Status400
      else
        updated <- updateLinkCapacity a b c ;;
        ret (if updated then Status200 else Status404)
  end.

(** A run of engine calls whose failures are caught by the caller, as the
    HTTP routes do: the next call starts from the state the last one left. *)
Definition after {A} (m : Engine A) (w : World) : World := stateOf (m w).

Definition ticks (draws : list (string -> nat -> nat)) (w : World) : World :=
  fold_left (fun w rnd => after (simulateTick rnd) w) draws w.

(** The state once app.js has called [initializeNetwork()] at start-up. *)
Definition world_ready : World := after initializeNetwork world_init.


(* ------------------------------------------------------------------ *)
(** ** Routing graph: what the router is measured against              *)
(* ------------------------------------------------------------------ *)

(** Two nodes are adjacent when some link joins them, in either
    direction. *)
Definition adj (ls : list Link) (a b : string) : Prop :=
  exists l, In l ls /\ ((from l = a /\ to l = b) \/ (from l = b /\ to l = a)).

(** Consecutive nodes of a sequence are adjacent. *)
Fixpoint chained (ls : list Link) (p : list string) : Prop :=
  match p with
  | x :: ((y :: _) as r) => adj ls x y /\ chained ls r
  | _ => True
  end.

(** [p] is a route from [a] to [b]: it starts at [a], ends at [b] and
    follows links. *)
Definition route (ls : list Link) (a b : string) (p : list string) : Prop :=
  hd_error p = Some a /\ last p a = b /\ chained ls p.

(** [b] can be reached from [a] over exactly [k] links. *)
Inductive reach (ls : list Link) (a : string) : nat -> string -> Prop :=
| reach_here : reach ls a 0 a
| reach_step k u v : reach ls a k u -> adj ls u v -> reach ls a (S k) v.

Definition dist_le (a b : Dijkstra.dist) : Prop :=
  match a, b with
  | _, Dijkstra.Infinity => True
  | Dijkstra.Finite x, Dijkstra.Finite y => (x <= y)%nat
  | Dijkstra.Infinity, Dijkstra.Finite _ => False
  end.

(** A node is settled once it has left the unvisited set. *)
Definition settled (ns : list string) (s : Dijkstra.Search) (u : string) : Prop :=
  In u ns /\ ~ In u (Dijkstra.unvisited s).

(** The predecessor table describes a tree rooted at [start]: a node at
    finite distance [S d] points to an adjacent node at distance [d]. *)
Record TreeInv (ns : list string) (ls : list Link) (start : string)
       (s : Dijkstra.Search) : Prop := {
  tree_dist_def : forall n, In n ns -> exists d, Obj.get n (Dijkstra.distances s) = Some d;
  tree_prev_def : forall n, In n ns -> exists p, Obj.get n (Dijkstra.previous s) = Some p;
  tree_start : Obj.get start (Dijkstra.distances s) = Some (Dijkstra.Finite 0);
  tree_parent : forall n d,
      In n ns -> Obj.get n (Dijkstra.distances s) = Some (Dijkstra.Finite d) ->
      (n = start /\ d = 0%nat /\ Obj.get n (Dijkstra.previous s) = Some None) \/
      (exists u d', d = S d' /\
                    Obj.get n (Dijkstra.previous s) = Some (Some u) /\
                    In u ns /\
                    Obj.get u (Dijkstra.distances s) = Some (Dijkstra.Finite d') /\
                    adj ls u n);
  tree_inf : forall n,
      In n ns -> Obj.get n (Dijkstra.distances s) = Some Dijkstra.Infinity ->
      Obj.get n (Dijkstra.previous s) = Some None
}.

(** The loop invariant of the search. *)
Record SearchInv (ns : list string) (ls : list Link) (start : string)
       (s : Dijkstra.Search) : Prop := {
  inv_tree : TreeInv ns ls start s;
  inv_sub : forall x, In x (Dijkstra.unvisited s) -> In x ns;
  inv_parent_settled : forall n u,
      In n ns -> Obj.get n (Dijkstra.previous s) = Some (Some u) -> settled ns s u;
  inv_settled_finite : forall u,
      settled ns s u -> exists d, Obj.get u (Dijkstra.distances s) = Some (Dijkstra.Finite d);
  inv_edge : forall u v du,
      settled ns s u -> Obj.get u (Dijkstra.distances s) = Some (Dijkstra.Finite du) ->
      adj ls u v ->
      exists dv, Obj.get v (Dijkstra.distances s) = Some (Dijkstra.Finite dv) /\ (dv <= S du)%nat;
  inv_order : forall u v du dv,
      settled ns s u -> In v (Dijkstra.unvisited s) ->
      Obj.get u (Dijkstra.distances s) = Some du ->
      Obj.get v (Dijkstra.distances s) = Some dv ->
      dist_le du dv
}.

(** Every link joins two nodes of the node list. *)
Definition wellFormed (ns : list string) (ls : list Link) : Prop :=
  forall l, In l ls -> In (from l) ns /\ In (to l) ns.

(** The distance the first loop of [dijkstra] gives to a node. *)
Definition initialDist (start n : string) : Dijkstra.dist :=
  if String.eqb n start then Dijkstra.Finite 0 else Dijkstra.Infinity.

(** A graph table that lists, for every node of [ns], exactly the
    neighbours given by the relation [E], each with weight 1. *)
Definition graphFor (ns : list string) (E : string -> string -> Prop)
           (g : Obj.t (list Dijkstra.Edge)) : Prop :=
  (forall n, In n ns -> exists es, Obj.get n g = Some es) /\
  (forall n es e, Obj.get n g = Some es -> In e es -> Dijkstra.weight e = 1%nat /\ E n (Dijkstra.node e)) /\
  (forall a b, E a b -> exists es, Obj.get a g = Some es /\ In (Dijkstra.mkEdge b 1) es).

(** How the tables [t] may differ from [s1] while the neighbours of
    [cur], itself at distance [c], are relaxed: a node either keeps its
    entries, or is an unvisited neighbour of [cur] now at distance [S c]
    with [cur] as predecessor, having been farther before. *)
Definition relaxed (ls : list Link) (cur : string) (c : nat)
           (s1 t : Dijkstra.Search) : Prop :=
  Dijkstra.unvisited t = Dijkstra.unvisited s1 /\
  forall n,
    (Obj.get n (Dijkstra.distances t) = Obj.get n (Dijkstra.distances s1) /\
     Obj.get n (Dijkstra.previous t) = Obj.get n (Dijkstra.previous s1)) \/
    (In n (Dijkstra.unvisited s1) /\ adj ls cur n /\
     Obj.get n (Dijkstra.distances t) = Some (Dijkstra.Finite (S c)) /\
     Obj.get n (Dijkstra.previous t) = Some (Some cur) /\
     exists dn, Obj.get n (Dijkstra.distances s1) = Some dn /\
                Dijkstra.dist_ltb (Dijkstra.Finite (S c)) dn = true).

(** Shorthands used in the statements below. *)
Definition loadOf (key : string) (w : World) : Z :=
  orZero (Obj.get key (linkLoads (networkState w))).

Definition queueOf (key : string) (w : World) : Z :=
  orZero (Obj.get key (queues (networkState w))).

(** The table [initializeNetwork] builds for loads and for queues. *)
Definition zeroTable (ls : list Link) (o : Obj.t Z) : Obj.t Z :=
  fold_left (fun o l => Obj.set (linkKey (from l) (to l)) 0 o) ls o.

Definition nodeStats_init : Obj.t NodeStat :=
  Eval cbv in fold_left (fun o n => Obj.set n nodeStat_init o) nodes [].

(** The ordered slot labels, and the position of the current one. *)
Definition timeSlots (w : World) : list string := Obj.keys (trafficRates w).

Definition slotIndex (w : World) : Z :=
  indexOf (currentTime (networkState w)) (timeSlots w).

(** The snapshot [getNetworkStats] would return in state [w]. *)
Definition stateOfStats (w : World) : Stats.t :=
  match getNetworkStats w with
  | Done s _ => s
  | Abort _ => Stats.mk "" 0 false [] [] [] (Summary.mk 0 0 LossZero (mkQuot 0 0))
  end.

(** A draw that always picks the first available node. *)
Definition rnd0 : string -> nat -> nat := fun _ _ => 0%nat.

(* ------------------------------------------------------------------ *)
(** ** Backlog and counters: quantities used in the statements         *)
(* ------------------------------------------------------------------ *)

Definition sumZ (l : list Z) : Z := fold_right Z.add 0 l.

(** What one call of [processQueuedPackets] takes out of the queue of
    [key]: nothing unless the queue is positive and the key names a link,
    else the smaller of the queue and the link's capacity. *)
Definition released (w : World) (key : string) : Z :=
  if 0 <? queueOf key w then
    match findLink key (links w) with
    | Some link => Z.min (queueOf key w) (capacity link)
    | None => 0
    end
  else 0.

(** The effect of the [forEach] callback of [processQueuedPackets]. *)
Definition drainKey (w : World) (key : string) : World :=
  if 0 <? queueOf key w then
    match findLink key (links w) with
    | Some link =>
        let processable := Z.min (queueOf key w) (capacity link) in
        mkWorld
          (set_totalPacketsTransmitted
             (totalPacketsTransmitted (networkState w) + processable)
             (set_queues
                (Obj.set key (queueOf key w - processable) (queues (networkState w)))
                (networkState w)))
          (links w) (trafficRates w)
    | None => w
    end
  else w.

(** The first two assignments of [simulateTick]. *)
Definition clearTick (w : World) : World :=
  mkWorld (set_packetStats [] (set_linkLoads [] (networkState w)))
          (links w) (trafficRates w).

(** Total backlog over all queues. *)
Definition queueTotal (w : World) : Z :=
  sumZ (Obj.values (queues (networkState w))).

(** A state with 150 units queued on link D-E (capacity 60) and no traffic
    offered in the current slot. *)
Definition world_backlog : World :=
  mkWorld
    (set_queues [("A-B", 0); ("A-C", 0); ("B-D", 0); ("C-D", 0); ("C-E", 0); ("D-E", 150)]
                (networkState world_ready))
    links_init
    (Obj.set "08:00" [("A", 0); ("B", 0); ("C", 0); ("D", 0); ("E", 0)] trafficRates_init).

(** The link keys a packet tries along its path, in order. *)
Fixpoint keysOf (path : list string) : list string :=
  match path with
  | a :: ((b :: _) as rest) => linkKey a b :: keysOf rest
  | _ => []
  end.

(** 1 when one more packet on [key] would exceed the capacity of its link,
    0 when it fits or when no link has this key. *)
Definition hot (w : World) (key : string) : Z :=
  match findLink key (links w) with
  | Some link => if capacity link <? loadOf key w + 1 then 1 else 0
  | None => 0
  end.

Definition hotCount (w : World) (ks : list string) : Z := sumZ (map (hot w) ks).

Definition loadsWithinCapacity (w : World) : Prop :=
  forall key link, findLink key (links w) = Some link -> loadOf key w <= capacity link.

Definition queuesNonNegative (w : World) : Prop :=
  Forall (fun v => 0 <= v) (Obj.values (queues (networkState w))).

(** Packets accounted for: transmitted, or waiting in a queue. *)
Definition potential (w : World) : Z :=
  totalPacketsTransmitted (networkState w) + queueTotal w.

(** [w'] differs from [w] at most in link loads and queues. *)
Definition sameButLinkState (w w' : World) : Prop :=
  links w' = links w /\
  trafficRates w' = trafficRates w /\
  nodeStats (networkState w') = nodeStats (networkState w) /\
  packetStats (networkState w') = packetStats (networkState w) /\
  totalPacketsTransmitted (networkState w') = totalPacketsTransmitted (networkState w) /\
  totalPacketsGenerated (networkState w') = totalPacketsGenerated (networkState w) /\
  simulationStep (networkState w') = simulationStep (networkState w) /\
  currentTime (networkState w') = currentTime (networkState w) /\
  isRunning (networkState w') = isRunning (networkState w).

(** [w'] has the rate tables, the time slot and the generated counter of
    [w]. *)
Definition sameConfig (w w' : World) : Prop :=
  trafficRates w' = trafficRates w /\
  currentTime (networkState w') = currentTime (networkState w) /\
  totalPacketsGenerated (networkState w') = totalPacketsGenerated (networkState w).

(** Every node has its statistics record. *)
Definition nodeStatsComplete (w : World) : Prop :=
  forall n, In n nodes -> Obj.get n (nodeStats (networkState w)) <> None.

(* ------------------------------------------------------------------ *)
(** ** The default configuration: invariants of a tick                 *)
(* ------------------------------------------------------------------ *)

(** Bounds on three link loads after [m] packets of the current tick. In
    the slot 08:00 the first 50 packets come from A and the next 30 from B. *)
Definition tickLoads (w : World) (m : Z) : Prop :=
  loadOf "A-B" w <= m /\ loadOf "A-C" w <= m /\ loadOf "D-E" w <= Z.max 0 (m - 50).

(** The source that sends the packet number [m] of a tick (from 0). *)
Definition sends (source : string) (m : Z) : Prop :=
  (source = "A" /\ 0 <= m < 50) \/
  (source = "B" /\ 50 <= m < 80) \/
  ((source = "C" \/ source = "D" \/ source = "E") /\ 80 <= m).

Definition loopInv (w : World) : Prop :=
  links w = links_init /\
  loadsWithinCapacity w /\ queuesNonNegative w /\ nodeStatsComplete w.

(** Holds between ticks from the start-up state on. *)
Definition tickInv (w : World) : Prop :=
  links w = links_init /\
  trafficRates w = trafficRates_init /\
  currentTime (networkState w) = "08:00" /\
  queuesNonNegative w /\ nodeStatsComplete w /\
  potential w <= totalPacketsGenerated (networkState w).

(** Holds between ticks when [initializeNetwork] was never called. *)
Definition bootInv (w : World) : Prop :=
  trafficRates w = trafficRates_init /\
  currentTime (networkState w) = "08:00" /\
  nodeStats (networkState w) = [] /\
  queues (networkState w) = [] /\
  totalPacketsGenerated (networkState w) = 0 /\
  totalPacketsTransmitted (networkState w) = 0.

(** The default topology with links B-D and D-E cut down to capacity 2,
    and node B the only sender in the current slot, at 3 packets a tick. *)
Definition world_narrow : World :=
  after (updateLinkCapacity "B" "D" 2)
    (after (updateLinkCapacity "D" "E" 2)
       (after (updateTrafficRates "A" 0)
          (after (updateTrafficRates "B" 3)
             (after (updateTrafficRates "C" 0)
                (after (updateTrafficRates "D" 0)
                   (after (updateTrafficRates "E" 0) world_ready)))))).

(** A draw that always picks the last available node. *)
Definition rnd3 : string -> nat -> nat := fun _ _ => 3%nat.

(* ------------------------------------------------------------------ *)
(** ** The effects a tick is made of                                   *)
(* ------------------------------------------------------------------ *)

(** The result and the state of [updateLinkLoad key packets]. *)
Definition charge (key : string) (packets : Z) (w : World) : bool * World :=
  match findLink key (links w) with
  | None => (false, w)
  | Some link =>
      if capacity link <? loadOf key w + packets then
        (false,
         mkWorld
           (set_linkLoads
              (Obj.set key (capacity link) (linkLoads (networkState w)))
              (set_queues
                 (Obj.set key (queueOf key w + (loadOf key w + packets - capacity link))
                          (queues (networkState w)))
                 (networkState w)))
           (links w) (trafficRates w))
      else
        (true,
         mkWorld
           (set_linkLoads (Obj.set key (loadOf key w + packets) (linkLoads (networkState w)))
                          (networkState w))
           (links w) (trafficRates w))
  end.

(** The hops recorded and the state left by the inner loop of a packet. *)
Fixpoint travel (path : list string) (w : World) : list Hop * World :=
  match path with
  | a :: ((b :: _) as rest) =>
      let key := linkKey a b in
      let r := charge key 1 w in
      let t := travel rest (snd r) in
      (mkHop a b (fst r) key :: fst t, snd t)
  | _ => ([], w)
  end.

(** [packetStats.push(pkt)] *)
Definition recordPacket (pkt : Packet) (w : World) : World :=
  mkWorld (set_packetStats (packetStats (networkState w) ++ [pkt]) (networkState w))
          (links w) (trafficRates w).

(** The two counters bumped for a transmitted packet, [ns] being the
    record of the destination. *)
Definition credit (d : string) (ns : NodeStat) (w : World) : World :=
  mkWorld
    (set_totalPacketsTransmitted
       (totalPacketsTransmitted (networkState w) + 1)
       (set_nodeStats
          (Obj.set d (mkNodeStat (packetsGenerated ns) (packetsReceived ns + 1) (currentLoad ns))
                   (nodeStats (networkState w)))
          (networkState w)))
    (links w) (trafficRates w).

(** The two fields written when a source starts sending, [ns] being its
    record. *)
Definition openSource (s : string) (rate : Z) (ns : NodeStat) (w : World) : World :=
  mkWorld
    (set_nodeStats
       (Obj.set s (mkNodeStat (packetsGenerated ns + rate) (packetsReceived ns) rate)
                (nodeStats (networkState w)))
       (networkState w))
    (links w) (trafficRates w).

(** The record a routed packet leaves, and the state after it. *)
Definition packetOf (s d : string) (i : nat) (path : list string) (w : World) : Packet :=
  mkPacket (packetId s d i) s d path (fst (travel path w))
           (forallb hop_transmitted (fst (travel path w)))
           (simulationStep (networkState w)).

(** What a tick needs in order to run: a record for every node, links
    between listed nodes, and a rate table for the current slot whose keys
    are nodes. *)
Definition tickReady (w : World) : Prop :=
  nodeStatsComplete w /\
  wellFormed nodes (links w) /\
  exists table,
    Obj.get (currentTime (networkState w)) (trafficRates w) = Some table /\
    forall s, In s (Obj.keys table) -> In s nodes.

(** Number of records marked transmitted. *)
Definition countTransmitted (ps : list Packet) : Z :=
  Z.of_nat (List.length (filter pkt_transmitted ps)).

(** Number of records marked transmitted and addressed to [n]. *)
Definition countReceived (n : string) (ps : list Packet) : Z :=
  Z.of_nat (List.length
              (filter (fun p => pkt_transmitted p && String.eqb (pkt_destination p) n) ps)).

Definition receivedOf (n : string) (w : World) : Z :=
  match Obj.get n (nodeStats (networkState w)) with
  | Some ns => packetsReceived ns
  | None => 0
  end.

Definition generatedOf (n : string) (w : World) : Z :=
  match Obj.get n (nodeStats (networkState w)) with
  | Some ns => packetsGenerated ns
  | None => 0
  end.

Definition currentLoadOf (n : string) (w : World) : Z :=
  match Obj.get n (nodeStats (networkState w)) with
  | Some ns => currentLoad ns
  | None => 0
  end.

(** The part of [tickReady] that the generation of traffic relies on. *)
Definition routable (w : World) : Prop :=
  nodeStatsComplete w /\ wellFormed nodes (links w).

(** The state in which a tick starts to generate traffic: tick data
    cleared, backlog drained. *)
Definition drained (w : World) : World :=
  fold_left drainKey (Obj.keys (queues (networkState w))) (clearTick w).

(** The two assignments that end a tick, [t] being [tickPacketsGenerated]. *)
Definition finishTick (t : Z) (w : World) : World :=
  mkWorld
    (set_simulationStep
       (simulationStep (networkState w) + 1)
       (set_totalPacketsGenerated (totalPacketsGenerated (networkState w) + t)
                                  (networkState w)))
    (links w) (trafficRates w).

(** [w'] has the configuration and the clock of [w]: links, rate tables,
    time slot, running flag, step and generated counter. *)
Definition sameSetup (w w' : World) : Prop :=
  links w' = links w /\
  trafficRates w' = trafficRates w /\
  currentTime (networkState w') = currentTime (networkState w) /\
  isRunning (networkState w') = isRunning (networkState w) /\
  simulationStep (networkState w') = simulationStep (networkState w) /\
  totalPacketsGenerated (networkState w') = totalPacketsGenerated (networkState w).

(** The number of packets a rate table asks a tick to send: the loop of a
    source with a rate below 1 sends none. *)
Definition offered (table : Obj.t Z) : nat :=
  list_sum (map (fun e => Z.to_nat (snd e)) table).

(** Link loads as a tick leaves them: between 0 and the capacity for a key
    that names a link, 0 for any other key. *)
Definition loadsBounded (w : World) : Prop :=
  forall key,
    match findLink key (links w) with
    | Some link => 0 <= loadOf key w <= capacity link
    | None => loadOf key w = 0
    end.

Definition capacitiesNonNegative (ls : list Link) : Prop :=
  forall l, In l ls -> 0 <= capacity l.

(** What a tick that starts at step [step] with links [ls] and rate table
    [table] writes into a packet record. *)
Definition recorded (ls : list Link) (table : Obj.t Z) (step : Z) (p : Packet) : Prop :=
  (exists rate i, In (pkt_source p, rate) table /\ (i < Z.to_nat rate)%nat /\
                  pkt_id p = packetId (pkt_source p) (pkt_destination p) i) /\
  In (pkt_destination p) nodes /\
  pkt_destination p <> pkt_source p /\
  Dijkstra.dijkstra nodes ls (pkt_source p) (pkt_destination p) = Some (pkt_path p) /\
  (2 <= List.length (pkt_path p))%nat /\
  map hop_from (pkt_route p) = removelast (pkt_path p) /\
  map hop_to (pkt_route p) = tl (pkt_path p) /\
  map hop_linkKey (pkt_route p) = keysOf (pkt_path p) /\
  pkt_transmitted p = forallb hop_transmitted (pkt_route p) /\
  (pkt_transmitted p = true ->
   forall key, In key (keysOf (pkt_path p)) -> findLink key ls <> None) /\
  pkt_timestamp p = step.

(** The books of a tick started in [w], after [k] packets: the
    configuration and the clock are those of [w], every record is well
    formed, there is at most one record per packet, and the transmitted
    and received counters have grown by the records marked transmitted. *)
Definition ledger (w : World) (table : Obj.t Z) (k : nat) (w1 : World) : Prop :=
  sameSetup w w1 /\
  Forall (recorded (links w) table (simulationStep (networkState w)))
         (packetStats (networkState w1)) /\
  (List.length (packetStats (networkState w1)) <= k)%nat /\
  totalPacketsTransmitted (networkState w1)
  = totalPacketsTransmitted (networkState (drained w))
    + countTransmitted (packetStats (networkState w1)) /\
  forall n, receivedOf n w1 = receivedOf n w + countReceived n (packetStats (networkState w1)).

(** Any two nodes are joined by a route. *)
Definition connected (ls : list Link) : Prop :=
  forall a b, In a nodes -> In b nodes -> exists q, route ls a b q.

(* ------------------------------------------------------------------ *)
(** ** routes/simulate.js: the router                                  *)
(* ------------------------------------------------------------------ *)

(** A request to one of the nine routes. The body of a POST is a JSON
    object whose [rate] or [capacity] field is modelled as for
    [postTraffic]; [PostTick] carries the draws that [Math.random] makes
    during the tick. *)
Inductive Request :=
| GetStats
| PostTick (rnd : string -> nat -> nat)
| PostStart
| PostPause
| PostReset
| PostTraffic (nodeId : string) (rate : option Z)
| PostLinkCapacity (a b : string) (cap : option Z)
| PostAdvanceTime
| GetTopology.

(** The [try] block of each route, with the status it answers. *)
Definition handler (r : Request) : Engine Status :=
  match r with
  | GetStats => _ <- getNetworkStats ;; ret Status200
  | PostTick rnd => simulateTick rnd ;; _ <- getNetworkStats ;; ret Status200
  | PostStart => startSimulation ;; ret Status200
  | PostPause => pauseSimulation ;; ret Status200
  | PostReset => resetSimulation ;; ret Status200
  | PostTraffic nodeId rate => postTraffic nodeId rate
  | PostLinkCapacity a b cap => postLinkCapacity a b cap
  | PostAdvanceTime => advanceTimeSlot ;; _ <- getNetworkStats ;; ret Status200
  | GetTopology => _ <- getNetworkStats ;; ret Status200
  end.

(** What the client gets: the status of the [try] block, or 500 from the
    [catch] block when the engine has thrown. *)
Inductive Answer := Answered (st : Status) | ServerError.

Definition respond (r : Request) (w : World) : Answer * World :=
  match handler r w with
  | Done st w' => (Answered st, w')
  | Abort w' => (ServerError, w')
  end.

(** A sequence of requests, each served in the state the last one left. *)
Fixpoint serve (rs : list Request) (w : World) : list Answer * World :=
  match rs with
  | [] => ([], w)
  | r :: rest =>
      let (a, w1) := respond r w in
      let (answers, w') := serve rest w1 in
      (a :: answers, w')
  end.

Definition endpoints (ls : list Link) : list (string * string) :=
  map (fun l => (from l, to l)) ls.

Definition linkKeys (ls : list Link) : list string :=
  map (fun l => linkKey (from l) (to l)) ls.

(** What holds of the state of a running server, whatever it was asked. *)
Definition sound (w : World) : Prop :=
  nodeStatsComplete w /\
  endpoints (links w) = endpoints links_init /\
  Obj.keys (trafficRates w) = Obj.keys trafficRates_init /\
  (forall slot, In slot (Obj.keys trafficRates_init) ->
     exists table, Obj.get slot (trafficRates w) = Some table /\ Obj.keys table = nodes) /\
  In (currentTime (networkState w)) (Obj.keys trafficRates_init) /\
  queuesNonNegative w /\
  Obj.keys (queues (networkState w)) = linkKeys links_init /\
  receivedOf "A" w = 0 /\
  (forall p, In p (packetStats (networkState w)) ->
     pkt_source p = "E" \/ pkt_destination p = "A" -> pkt_transmitted p = false).

(* ------------------------------------------------------------------ *)
(** ** network.js and routes/simulate.js, first version                *)
(* ------------------------------------------------------------------ *)

(** The first version of the engine keeps one time slot, never drains a
    queue and has no operation that changes a rate or a capacity. A throw
    (or a call that does not return) is [None]. *)
Module Legacy.

Definition trafficRates : Obj.t (Obj.t Z) :=
  [ ("08:00", [("A", 50); ("B", 30); ("C", 40); ("D", 20); ("E", 60)]) ].

Definition links : list Link :=
  [ mkLink "A" "B" 100; mkLink "A" "C" 80; mkLink "B" "D" 70;
    mkLink "C" "D" 90; mkLink "C" "E" 100; mkLink "D" "E" 60 ].

(** [{ from: source, to: destination, path }] *)
Record Stat := mkStat {
  stat_from : string;
  stat_to : string;
  stat_path : list string
}.

(** [networkState], and the module variable [linkUsage]. *)
Record State := mkState {
  time : string;
  queues : Obj.t Z;
  stats : list Stat;
  linkUsage : Obj.t Z
}.

Definition state_init : State := mkState "08:00" [] [] [].

(** [nodes.filter(n => n !== source)[Math.floor(Math.random() * (nodes.length - 1))]],
    [r] being the draw. *)
Definition getRandomDestination (source : string) (r : nat) : option string :=
  nth_error (filter (fun n => negb (String.eqb n source)) nodes)
            (r mod (List.length nodes - 1))%nat.

(** [!x] on a queue entry: [undefined] and [0] are falsy. *)
Definition falsy (x : option Z) : bool :=
  match x with
  | None => true
  | Some v => v =? 0
  end.

Definition queuePacket (key : string) (q : Obj.t Z) : Obj.t Z :=
  let q1 := if falsy (Obj.get key q) then Obj.set key 0 q else q in
  Obj.set key (orZero (Obj.get key q1) + 1) q1.

(** One pass of the loop over the links of a path. *)
Definition hop (a b : string) (s : State) : State :=
  let key := linkKey a b in
  let usage := orZero (Obj.get key (linkUsage s)) + 1 in
  let q :=
    match find (joins a b) links with
    | Some link => if capacity link <? usage then queuePacket key (queues s) else queues s
    | None => queues s
    end in
  mkState (time s) q (stats s) (Obj.set key usage (linkUsage s)).

Fixpoint walk (path : list string) (s : State) : State :=
  match path with
  | a :: ((b :: _) as rest) => walk rest (hop a b s)
  | _ => s
  end.

(** The body of the packet loop once the destination is drawn. *)
Definition sendPacket (source destination : string) (s : State) : option State :=
  match Dijkstra.dijkstra nodes links source destination with
  | None => None
  | Some path =>
      if (List.length path <? 2)%nat then Some s
      else
        let s1 := walk path s in
        Some (mkState (time s1) (queues s1)
                      (stats s1 ++ [mkStat source destination path]) (linkUsage s1))
  end.

(** [for (let i = 0; i < packets; i++)]: [n] iterations remain and the
    counter stands at [i]. With no destination drawn, [dijkstra] is called
    with [undefined] and does not return. *)
Fixpoint packetLoop (rnd : string -> nat -> nat) (source : string) (n i : nat)
         (s : State) : option State :=
  match n with
  | O => Some s
  | S n' =>
      match getRandomDestination source (rnd source i) with
      | None => None
      | Some destination =>
          match sendPacket source destination s with
          | None => None
          | Some s1 => packetLoop rnd source n' (S i) s1
          end
      end
  end.

(** [for (const source of Object.keys(rates))] *)
Fixpoint sourceLoop (rnd : string -> nat -> nat) (rates : Obj.t Z)
         (sources : list string) (s : State) : option State :=
  match sources with
  | [] => Some s
  | source :: rest =>
      let packets := match Obj.get source rates with
                     | Some p => Z.to_nat p
                     | None => 0%nat
                     end in
      match packetLoop rnd source packets 0 s with
      | None => None
      | Some s1 => sourceLoop rnd rates rest s1
      end
  end.

(** Without a rate table for the slot, [Object.keys(rates)] throws. *)
Definition simulateTick (rnd : string -> nat -> nat) (s : State) : option State :=
  match Obj.get (time s) trafficRates with
  | None => None
  | Some rates =>
      sourceLoop rnd rates (Obj.keys rates) (mkState (time s) (queues s) [] [])
  end.

(** [{ time, stats, queues, links }] *)
Definition getNetworkStats (s : State)
  : string * list Stat * Obj.t Z * list Link :=
  (time s, stats s, queues s, links).

(** [router.get('/')]: a tick, then the snapshot. *)
Definition getRoot (rnd : string -> nat -> nat) (s : State)
  : option ((string * list Stat * Obj.t Z * list Link) * State) :=
  match simulateTick rnd s with
  | Some s' => Some (getNetworkStats s', s')
  | None => None
  end.

Definition queueOf (key : string) (s : State) : Z := orZero (Obj.get key (queues s)).



(** A record of the tick: two different nodes and the path between them. *)
Definition routed (r : Stat) : Prop :=
  In (stat_from r) nodes /\ In (stat_to r) nodes /\ stat_to r <> stat_from r /\
  Dijkstra.dijkstra nodes links (stat_from r) (stat_to r) = Some (stat_path r) /\
  (2 <= List.length (stat_path r))%nat.

End Legacy.


(* ------------------------------------------------------------------ *)
(** ** The running flag                                                *)
(* ------------------------------------------------------------------ *)

(** The state [w] with the running flag set to [b]. *)
Definition withFlag (b : bool) (w : World) : World :=
  mkWorld (set_isRunning b (networkState w)) (links w) (trafficRates w).

Definition mapOutcome {A} (f : World -> World) (o : Outcome A) : Outcome A :=
  match o with
  | Done a w => Done a (f w)
  | Abort w => Abort (f w)
  end.

(** [m] neither reads nor writes the running flag: run with the flag
    forced to [b], it ends as it does otherwise, with the same result and
    in the same state but for the flag. *)
Definition flagBlind {A} (m : Engine A) : Prop :=
  forall b w, m (withFlag b w) = mapOutcome (withFlag b) (m w).


(* ================================================================== *)
(** * Properties                                                        *)
(* ================================================================== *)


(* ------------------------------------------------------------------ *)
(** ** Dictionaries: read after write                                  *)
(* ------------------------------------------------------------------ *)

Section ObjFacts.
Variable V : Type.
Implicit Types (o : Obj.t V) (k : string) (v : V).

Lemma get_set_same k v o : Obj.get k (Obj.set k v o) = Some v.
Proof.
  induction o as [|[k' v'] r IH]; simpl.
  - now rewrite String.eqb_refl.
  - destruct (String.eqb k' k) eqn:E; simpl.
    + now rewrite String.eqb_refl.
    + now rewrite E.
Qed.

Lemma get_set_other k k' v o : k <> k' -> Obj.get k' (Obj.set k v o) = Obj.get k' o.
Proof.
  intros Hne. induction o as [|[k1 v1] r IH]; simpl.
  - destruct (String.eqb k k') eqn:E; [apply String.eqb_eq in E; contradiction | reflexivity].
  - destruct (String.eqb k1 k) eqn:E; simpl.
    + apply String.eqb_eq in E; subst k1.
      destruct (String.eqb k k') eqn:E'; [apply String.eqb_eq in E'; contradiction | reflexivity].
    + now rewrite IH.
Qed.

Lemma get_set k k' v o :
  Obj.get k' (Obj.set k v o) = if String.eqb k k' then Some v else Obj.get k' o.
Proof.
  destruct (String.eqb k k') eqn:E.
  - apply String.eqb_eq in E; subst. apply get_set_same.
  - apply String.eqb_neq in E. now apply get_set_other.
Qed.

Lemma keys_set_present k v o :
  Obj.get k o <> None -> Obj.keys (Obj.set k v o) = Obj.keys o.
Proof.
  induction o as [|[k1 v1] r IH]; simpl; intros H.
  - congruence.
  - destruct (String.eqb k1 k) eqn:E; simpl.
    + apply String.eqb_eq in E. now subst.
    + f_equal. now apply IH.
Qed.

Lemma keys_set_absent k v o :
  Obj.get k o = None -> Obj.keys (Obj.set k v o) = Obj.keys o ++ [k].
Proof.
  induction o as [|[k1 v1] r IH]; simpl; intros H.
  - reflexivity.
  - destruct (String.eqb k1 k) eqn:E; simpl.
    + discriminate.
    + f_equal. now apply IH.
Qed.

Lemma get_None_keys k o : Obj.get k o = None <-> ~ In k (Obj.keys o).
Proof.
  induction o as [|[k1 v1] r IH]; simpl.
  - tauto.
  - destruct (String.eqb k1 k) eqn:E.
    + apply String.eqb_eq in E. split; [discriminate | intros H; exfalso; apply H; now left].
    + apply String.eqb_neq in E. rewrite IH. tauto.
Qed.

Lemma get_Some_In k v o : Obj.get k o = Some v -> In (k, v) o.
Proof.
  induction o as [|[k1 v1] r IH]; simpl; [discriminate|].
  destruct (String.eqb k1 k) eqn:E.
  - apply String.eqb_eq in E. intros [= ->]. subst. now left.
  - intros H. right. now apply IH.
Qed.

Lemma In_get_NoDup k v o : NoDup (Obj.keys o) -> In (k, v) o -> Obj.get k o = Some v.
Proof.
  induction o as [|[k1 v1] r IH]; simpl; [tauto|].
  intros Hnd [H|H].
  - inversion H; subst. now rewrite String.eqb_refl.
  - inversion Hnd; subst.
    destruct (String.eqb k1 k) eqn:E.
    + apply String.eqb_eq in E; subst. exfalso. apply H2.
      unfold Obj.keys. change k with (fst (k, v)). now apply in_map.
    + now apply IH.
Qed.

Lemma NoDup_keys_set k v o : NoDup (Obj.keys o) -> NoDup (Obj.keys (Obj.set k v o)).
Proof.
  intros H. destruct (Obj.get k o) eqn:E.
  - rewrite keys_set_present; [assumption | congruence].
  - rewrite keys_set_absent by assumption.
    apply get_None_keys in E.
    apply NoDup_rev in H. rewrite <- (rev_involutive (_ ++ _)).
    apply NoDup_rev. rewrite rev_app_distr. simpl. constructor; [|assumption].
    now rewrite <- in_rev.
Qed.
End ObjFacts.

Unset Implicit Arguments.

(** Unfolding of the monad's plumbing. *)
Ltac run :=
  repeat (unfold bind, ret, gets, modify, getLinks, getRates, abort, after, stateOf; simpl).

(* ------------------------------------------------------------------ *)
(** ** Link loads                                                      *)
(* ------------------------------------------------------------------ *)

(** What [updateLinkLoad] does to a link that exists. *)
Lemma updateLinkLoad_found key packets link w :
  findLink key (links w) = Some link ->
  updateLinkLoad key packets w =
  if capacity link <? loadOf key w + packets then
    Done false
      (mkWorld
         (set_linkLoads
            (Obj.set key (capacity link) (linkLoads (networkState w)))
            (set_queues
               (Obj.set key (queueOf key w + (loadOf key w + packets - capacity link))
                        (queues (networkState w)))
               (networkState w)))
         (links w) (trafficRates w))
  else
    Done true
      (mkWorld
         (set_linkLoads (Obj.set key (loadOf key w + packets) (linkLoads (networkState w)))
                        (networkState w))
         (links w) (trafficRates w)).
Proof.
  intros H. unfold updateLinkLoad, loadOf, queueOf. run. rewrite H. run.
  destruct (capacity link <? _); reflexivity.
Qed.

Lemma updateLinkLoad_missing key packets w :
  findLink key (links w) = None -> updateLinkLoad key packets w = Done false w.
Proof. intros H. unfold updateLinkLoad. run. now rewrite H. Qed.

(** C2. For a link that exists, [updateLinkLoad] always returns, and leaves
    the link's recorded load at or below its capacity. If the load plus the
    requested amount exceeds the capacity, the load becomes exactly the
    capacity, the excess is added to the link's queue and the result is
    [false]; otherwise the load grows by the amount, the queue is untouched
    and the result is [true]. *)
Theorem updateLinkLoad_caps_load :
  forall (w : World) (key : string) (packets : Z) (link : Link),
    findLink key (links w) = Some link ->
    exists (ok : bool) (w' : World),
      updateLinkLoad key packets w = Done ok w' /\
      links w' = links w /\
      loadOf key w' <= capacity link /\
      (if capacity link <? loadOf key w + packets
       then ok = false /\
            loadOf key w' = capacity link /\
            queueOf key w' = queueOf key w + (loadOf key w + packets - capacity link)
       else ok = true /\
            loadOf key w' = loadOf key w + packets /\
            queues (networkState w') = queues (networkState w)).
Proof.
  intros w key packets link H.
  rewrite (updateLinkLoad_found key packets link w H).
  destruct (capacity link <? loadOf key w + packets) eqn:E.
  - eexists _, _. split; [reflexivity|].
    unfold loadOf, queueOf; simpl. rewrite !get_set_same; simpl.
    repeat split; lia.
  - eexists _, _. split; [reflexivity|].
    apply Z.ltb_ge in E.
    unfold loadOf in *; simpl. rewrite !get_set_same; simpl.
    repeat split; lia.
Qed.

Lemma updateLinkLoad_caps_load_witness :
  exists (ok : bool) (w' : World),
    updateLinkLoad "D-E" 1 world_ready = Done ok w' /\
    links w' = links world_ready /\
    loadOf "D-E" w' <= 60 /\
    ok = true /\ loadOf "D-E" w' = 1.
Proof.
  destruct (updateLinkLoad_caps_load world_ready "D-E" 1 (mkLink "D" "E" 60) eq_refl)
    as (ok & w' & H1 & H2 & H3 & H4).
  exists ok, w'. simpl in H3, H4. tauto.
Defined.

(* ------------------------------------------------------------------ *)
(** ** Initialisation, start and reset                                 *)
(* ------------------------------------------------------------------ *)

Lemma initLinks_run ls : forall w,
  forEach (fun link =>
             let key := linkKey (from link) (to link) in
             modify (fun s => set_linkLoads (Obj.set key 0 (linkLoads s)) s) ;;
             modify (fun s => set_queues (Obj.set key 0 (queues s)) s))
          ls w
  = Done tt (mkWorld
               (set_queues (zeroTable ls (queues (networkState w)))
                  (set_linkLoads (zeroTable ls (linkLoads (networkState w)))
                     (networkState w)))
               (links w) (trafficRates w)).
Proof.
  induction ls as [|l r IH]; intros [[] ? ?]; simpl.
  - reflexivity.
  - run. rewrite IH. reflexivity.
Qed.

Lemma initializeNetwork_run w :
  initializeNetwork w =
  Done tt (mkWorld
             (set_queues (zeroTable (links w) [])
                (set_linkLoads (zeroTable (links w) [])
                   (set_nodeStats nodeStats_init (networkState w))))
             (links w) (trafficRates w)).
Proof.
  unfold initializeNetwork. destruct w as [[] ls tr].
  run. rewrite initLinks_run. reflexivity.
Qed.

Lemma zeroTable_values ls : forall o,
  Forall (fun v => v = 0) (Obj.values o) ->
  Forall (fun v => v = 0) (Obj.values (zeroTable ls o)).
Proof.
  induction ls as [|l r IH]; intros o H; simpl; [assumption|].
  apply IH. clear IH.
  induction o as [|[k v] o IHo]; simpl.
  - repeat constructor.
  - inversion H; subst. destruct (String.eqb k _); simpl; constructor; auto.
Qed.

Lemma zeroTable_get_other ls k : forall o,
  ~ In k (map (fun l => linkKey (from l) (to l)) ls) ->
  Obj.get k (zeroTable ls o) = Obj.get k o.
Proof.
  induction ls as [|l r IH]; intros o H; simpl in *; [reflexivity|].
  rewrite IH by tauto. apply get_set_other. tauto.
Qed.

Lemma zeroTable_get_key ls k : forall o,
  In k (map (fun l => linkKey (from l) (to l)) ls) ->
  Obj.get k (zeroTable ls o) = Some 0.
Proof.
  induction ls as [|l1 r IH]; intros o H; simpl in *; [tauto|].
  destruct (in_dec string_dec k (map (fun l => linkKey (from l) (to l)) r)) as [Hin|Hout].
  - now apply IH.
  - rewrite zeroTable_get_other by assumption.
    destruct H as [<-|H]; [apply get_set_same | contradiction].
Qed.

Lemma zeroTable_get ls l o :
  In l ls -> Obj.get (linkKey (from l) (to l)) (zeroTable ls o) = Some 0.
Proof.
  intros H. apply zeroTable_get_key.
  now apply (in_map (fun l => linkKey (from l) (to l))).
Qed.

(** C8. [startSimulation] always returns; it sets the running flag and puts
    every link's load and queue back to zero (both tables hold nothing but
    zeros), and it leaves the cumulative generated and transmitted counters,
    the tick counter, the selected time slot, the link capacities and the
    rate tables as they were. *)
Theorem startSimulation_keeps_counters :
  forall w : World,
    exists w' : World,
      startSimulation w = Done tt w' /\
      isRunning (networkState w') = true /\
      (forall l, In l (links w) ->
         Obj.get (linkKey (from l) (to l)) (linkLoads (networkState w')) = Some 0 /\
         Obj.get (linkKey (from l) (to l)) (queues (networkState w')) = Some 0) /\
      Forall (fun v => v = 0) (Obj.values (linkLoads (networkState w'))) /\
      Forall (fun v => v = 0) (Obj.values (queues (networkState w'))) /\
      totalPacketsGenerated (networkState w') = totalPacketsGenerated (networkState w) /\
      totalPacketsTransmitted (networkState w') = totalPacketsTransmitted (networkState w) /\
      simulationStep (networkState w') = simulationStep (networkState w) /\
      currentTime (networkState w') = currentTime (networkState w) /\
      links w' = links w /\
      trafficRates w' = trafficRates w.
Proof.
  intros w. unfold startSimulation. run. rewrite initializeNetwork_run. simpl.
  eexists. split; [reflexivity|]. simpl.
  repeat split; try reflexivity.
  - now apply zeroTable_get.
  - now apply zeroTable_get.
  - apply zeroTable_values. constructor.
  - apply zeroTable_values. constructor.
Qed.

Lemma startSimulation_keeps_counters_witness :
  exists w' : World,
    startSimulation world_backlog = Done tt w' /\
    isRunning (networkState w') = true /\
    Obj.get "D-E" (queues (networkState w')) = Some 0 /\
    totalPacketsGenerated (networkState w') = 0 /\
    currentTime (networkState w') = "08:00".
Proof.
  destruct (startSimulation_keeps_counters world_backlog)
    as (w' & H1 & H2 & H3 & _ & _ & H6 & _ & _ & H9 & _).
  exists w'. split; [exact H1|]. split; [exact H2|].
  split; [apply (H3 (mkLink "D" "E" 60)); simpl; tauto|].
  rewrite H6, H9. split; reflexivity.
Defined.

(** What [resetSimulation] restores: everything but the packet history,
    the link capacities and the rate tables. *)
Lemma resetSimulation_run w :
  resetSimulation w =
  Done tt (mkWorld
             (mkNetworkState "08:00" false 0
                (zeroTable (links w) []) (zeroTable (links w) [])
                (packetStats (networkState w)) nodeStats_init 0 0)
             (links w) (trafficRates w)).
Proof.
  unfold resetSimulation. run. rewrite initializeNetwork_run. reflexivity.
Qed.

(** C9. [getNetworkStats] always returns and leaves the state exactly as it
    found it; a second call right after the first returns the same
    snapshot. *)
Theorem getNetworkStats_pure :
  forall w : World,
    exists s : Stats.t,
      getNetworkStats w = Done s w /\
      (s <- getNetworkStats ;; t <- getNetworkStats ;; ret (s, t)) w = Done (s, s) w.
Proof.
  intros w. unfold getNetworkStats. run. eexists. split; reflexivity.
Qed.

(* ------------------------------------------------------------------ *)
(** ** Time slots                                                      *)
(* ------------------------------------------------------------------ *)

Lemma indexOf_range x l : -1 <= indexOf x l < Z.of_nat (List.length l).
Proof.
  induction l as [|y r IH]; simpl; [lia|].
  destruct (String.eqb y x); [lia|].
  destruct (indexOf x r <? 0) eqn:E; [lia|]. apply Z.ltb_ge in E. lia.
Qed.

Lemma indexOf_nth x l d :
  0 <= indexOf x l -> nth (Z.to_nat (indexOf x l)) l d = x.
Proof.
  induction l as [|y r IH]; simpl; [lia|].
  destruct (String.eqb y x) eqn:E.
  - intros _. now apply String.eqb_eq in E.
  - destruct (indexOf x r <? 0) eqn:E'; [lia|]. apply Z.ltb_ge in E'.
    intros _. rewrite Z2Nat.inj_add by lia. rewrite Nat.add_1_r. simpl. now apply IH.
Qed.

Lemma indexOf_of_nth l d : forall i,
  NoDup l -> (i < List.length l)%nat -> indexOf (nth i l d) l = Z.of_nat i.
Proof.
  induction l as [|y r IH]; intros i Hnd Hi; simpl in *; [lia|].
  inversion Hnd as [|? ? Hy Hr]; subst.
  destruct i as [|i].
  - now rewrite String.eqb_refl.
  - assert (Hlt : (i < List.length r)%nat) by lia.
    destruct (String.eqb y (nth i r d)) eqn:E.
    + apply String.eqb_eq in E. exfalso. apply Hy. rewrite E. now apply nth_In.
    + rewrite IH by assumption.
      destruct (Z.of_nat i <? 0) eqn:E'; [apply Z.ltb_lt in E'; lia | lia].
Qed.

Lemma advanceTimeSlot_run w :
  advanceTimeSlot w =
  if slotIndex w <? Z.of_nat (List.length (timeSlots w)) - 1
  then Done tt (mkWorld
                  (set_currentTime
                     (nth (Z.to_nat (slotIndex w + 1)) (timeSlots w)
                          (currentTime (networkState w)))
                     (networkState w))
                  (links w) (trafficRates w))
  else Done tt w.
Proof.
  unfold advanceTimeSlot, slotIndex, timeSlots. run.
  destruct (_ <? _); reflexivity.
Qed.

Lemma advance_timeSlots w : timeSlots (after advanceTimeSlot w) = timeSlots w.
Proof.
  unfold after. rewrite advanceTimeSlot_run. destruct (_ <? _); reflexivity.
Qed.

Lemma advance_slotIndex w :
  NoDup (timeSlots w) ->
  slotIndex (after advanceTimeSlot w) =
  Z.min (slotIndex w + 1) (Z.of_nat (List.length (timeSlots w)) - 1).
Proof.
  intros Hnd. pose proof (indexOf_range (currentTime (networkState w)) (timeSlots w)) as Hr.
  fold (slotIndex w) in Hr.
  unfold after. rewrite advanceTimeSlot_run.
  destruct (slotIndex w <? _) eqn:E; simpl.
  - apply Z.ltb_lt in E. unfold slotIndex at 1; simpl.
    change (timeSlots (mkWorld _ _ (trafficRates w))) with (timeSlots w).
    rewrite indexOf_of_nth by (assumption || lia). lia.
  - apply Z.ltb_ge in E. lia.
Qed.

Lemma advance_iter_slotIndex w n :
  NoDup (timeSlots w) ->
  timeSlots (Nat.iter n (after advanceTimeSlot) w) = timeSlots w /\
  slotIndex (Nat.iter n (after advanceTimeSlot) w) =
  Z.min (slotIndex w + Z.of_nat n) (Z.of_nat (List.length (timeSlots w)) - 1).
Proof.
  intros Hnd. pose proof (indexOf_range (currentTime (networkState w)) (timeSlots w)) as Hr.
  fold (slotIndex w) in Hr.
  induction n as [|n [IHs IHi]].
  - simpl. split; [reflexivity | lia].
  - simpl Nat.iter. split.
    + now rewrite advance_timeSlots.
    + rewrite advance_slotIndex by now rewrite IHs.
      rewrite IHs, IHi. lia.
Qed.

Lemma nth_last (l : list string) d : nth (List.length l - 1) l d = last l d.
Proof.
  induction l as [|x [|y r] IH]; try reflexivity.
  change (last (x :: y :: r) d) with (last (y :: r) d). rewrite <- IH.
  simpl. now rewrite Nat.sub_0_r.
Qed.

(** C7. With the slot labels a non-empty list without repetition (as the
    keys of an object are): from the slot at position [i], not the last,
    [advanceTimeSlot] moves to the slot at position [i + 1] and changes
    nothing else; at the last slot it returns with the state unchanged; and
    after [N] calls, for any [N] at least the number of slots, the current
    slot is the last one. *)
Theorem advanceTimeSlot_saturates :
  forall w : World,
    NoDup (timeSlots w) ->
    timeSlots w <> [] ->
    (forall i : nat,
        (S i < List.length (timeSlots w))%nat ->
        currentTime (networkState w) = nth i (timeSlots w) "" ->
        advanceTimeSlot w =
        Done tt (mkWorld (set_currentTime (nth (S i) (timeSlots w) "") (networkState w))
                         (links w) (trafficRates w))) /\
    (currentTime (networkState w) = last (timeSlots w) "" ->
     advanceTimeSlot w = Done tt w) /\
    (forall N : nat,
        (List.length (timeSlots w) <= N)%nat ->
        currentTime (networkState (Nat.iter N (after advanceTimeSlot) w))
        = last (timeSlots w) "").
Proof.
  intros w Hnd Hne.
  assert (Hlen : (0 < List.length (timeSlots w))%nat)
    by (destruct (timeSlots w); [congruence | simpl; lia]).
  repeat split.
  - intros i Hi Hcur. rewrite advanceTimeSlot_run.
    assert (Hidx : slotIndex w = Z.of_nat i).
    { unfold slotIndex. rewrite Hcur. apply indexOf_of_nth; [assumption | lia]. }
    rewrite Hidx. destruct (_ <? _) eqn:E; [|apply Z.ltb_ge in E; lia].
    replace (Z.to_nat (Z.of_nat i + 1)) with (S i) by lia.
    do 3 f_equal. apply nth_indep. lia.
  - intros Hcur. rewrite advanceTimeSlot_run.
    assert (Hidx : slotIndex w = Z.of_nat (List.length (timeSlots w) - 1)).
    { unfold slotIndex. rewrite Hcur, <- nth_last. apply indexOf_of_nth; [assumption | lia]. }
    rewrite Hidx. destruct (_ <? _) eqn:E; [apply Z.ltb_lt in E; lia | reflexivity].
  - intros N HN.
    destruct (advance_iter_slotIndex w N Hnd) as [Hs Hi].
    pose proof (indexOf_range (currentTime (networkState w)) (timeSlots w)) as Hr.
    fold (slotIndex w) in Hr.
    set (w' := Nat.iter N (after advanceTimeSlot) w) in *.
    assert (Hidx : slotIndex w' = Z.of_nat (List.length (timeSlots w) - 1)) by lia.
    rewrite <- nth_last.
    unfold slotIndex in Hidx. rewrite Hs in Hidx.
    rewrite <- (indexOf_nth (currentTime (networkState w')) (timeSlots w) "") at 1 by lia.
    rewrite Hidx. f_equal. lia.
Qed.

Lemma advanceTimeSlot_saturates_witness :
  advanceTimeSlot (Nat.iter 3 (after advanceTimeSlot) world_ready)
  = Done tt (Nat.iter 3 (after advanceTimeSlot) world_ready) /\
  currentTime (networkState (Nat.iter 7 (after advanceTimeSlot) world_ready)) = "08:45".
Proof.
  assert (Hnd : NoDup (timeSlots world_ready)).
  { repeat constructor; simpl; intuition discriminate. }
  assert (Hnd3 : NoDup (timeSlots (Nat.iter 3 (after advanceTimeSlot) world_ready))).
  { repeat constructor; simpl; intuition discriminate. }
  split.
  - apply (advanceTimeSlot_saturates (Nat.iter 3 (after advanceTimeSlot) world_ready));
      [exact Hnd3 | discriminate | reflexivity].
  - apply (advanceTimeSlot_saturates world_ready Hnd); [discriminate | simpl; lia].
Defined.

(* ------------------------------------------------------------------ *)
(** ** Administrative updates                                          *)
(* ------------------------------------------------------------------ *)

Lemma mem_In x l : Dijkstra.mem x l = true <-> In x l.
Proof.
  unfold Dijkstra.mem. rewrite existsb_exists. split.
  - intros (y & Hy & E). apply String.eqb_eq in E. now subst.
  - intros H. exists x. split; [assumption | apply String.eqb_refl].
Qed.

Lemma mem_notIn x l : Dijkstra.mem x l = false <-> ~ In x l.
Proof.
  rewrite <- mem_In. destruct (Dijkstra.mem x l); split; congruence.
Qed.

Lemma find_setCapacity a b c ls l :
  find (joins a b) ls = Some l ->
  find (joins a b) (setCapacity a b c ls) = Some (mkLink (from l) (to l) c).
Proof.
  induction ls as [|l1 r IH]; simpl; [discriminate|].
  destruct (joins a b l1) eqn:E; simpl.
  - intros [= ->]. unfold joins in *. simpl. now rewrite E.
  - rewrite E. exact IH.
Qed.

Lemma setCapacity_endpoints a b c ls :
  map (fun l => (from l, to l)) (setCapacity a b c ls) = map (fun l => (from l, to l)) ls.
Proof.
  induction ls as [|l1 r IH]; simpl; [reflexivity|].
  destruct (joins a b l1); simpl; [reflexivity | now rewrite IH].
Qed.

(** C5, as the code has it. Neither mutator looks at the value it is given.
    [updateTrafficRates] on a known node (the current slot having a rate
    table) stores the rate, negative or not, in the current slot's table
    only and returns [true]; on an unknown node it returns [false] and
    changes nothing. [updateLinkCapacity] on an existing (from, to) link
    stores the capacity, positive or not, in that link and returns [true];
    when no link has these endpoints it returns [false] and changes
    nothing. Neither touches [networkState]. The values are checked one
    layer up: the two route handlers answer 400 to a negative rate or a
    non-positive capacity and leave the state as it is. *)
Theorem mutators_check_target_only :
  forall (w : World) (nodeId : string) (newRate : Z) (a b : string) (newCapacity : Z),
    (In nodeId nodes ->
     Obj.get (currentTime (networkState w)) (trafficRates w) <> None ->
     exists w' table',
       updateTrafficRates nodeId newRate w = Done true w' /\
       networkState w' = networkState w /\ links w' = links w /\
       Obj.get (currentTime (networkState w)) (trafficRates w') = Some table' /\
       Obj.get nodeId table' = Some newRate /\
       (forall slot, slot <> currentTime (networkState w) ->
                     Obj.get slot (trafficRates w') = Obj.get slot (trafficRates w))) /\
    (~ In nodeId nodes -> updateTrafficRates nodeId newRate w = Done false w) /\
    ((exists l, In l (links w) /\ from l = a /\ to l = b) ->
     exists w' l',
       updateLinkCapacity a b newCapacity w = Done true w' /\
       networkState w' = networkState w /\ trafficRates w' = trafficRates w /\
       find (joins a b) (links w') = Some l' /\
       capacity l' = newCapacity /\
       map (fun l => (from l, to l)) (links w') = map (fun l => (from l, to l)) (links w)) /\
    ((forall l, In l (links w) -> ~ (from l = a /\ to l = b)) ->
     updateLinkCapacity a b newCapacity w = Done false w) /\
    (newRate < 0 -> postTraffic nodeId (Some newRate) w = Done Status400 w) /\
    (newCapacity <= 0 -> postLinkCapacity a b (Some newCapacity) w = Done Status400 w).
Proof.
  intros w nodeId newRate a b newCapacity.
  split; [|split; [|split; [|split; [|split]]]].
  - intros Hin Hslot. apply mem_In in Hin.
    unfold updateTrafficRates. rewrite Hin. run.
    destruct (Obj.get _ (trafficRates w)) as [table|] eqn:E; [|congruence].
    exists (mkWorld (networkState w) (links w)
                    (Obj.set (currentTime (networkState w))
                             (Obj.set nodeId newRate table) (trafficRates w))),
           (Obj.set nodeId newRate table).
    simpl. repeat split.
    + apply get_set_same.
    + apply get_set_same.
    + intros slot Hne. apply get_set_other. congruence.
  - intros Hout. apply mem_notIn in Hout.
    unfold updateTrafficRates. rewrite Hout. run.
    destruct (Obj.get _ (trafficRates w)); reflexivity.
  - intros (l & Hin & Ha & Hb).
    unfold updateLinkCapacity. run.
    destruct (find (joins a b) (links w)) as [l0|] eqn:E.
    + exists (mkWorld (networkState w) (setCapacity a b newCapacity (links w))
                      (trafficRates w)),
             (mkLink (from l0) (to l0) newCapacity).
      simpl. repeat split.
      * now apply find_setCapacity.
      * apply setCapacity_endpoints.
    + exfalso. apply (find_none _ _ E) in Hin. unfold joins in Hin.
      subst. now rewrite !String.eqb_refl in Hin.
  - intros Hnone. unfold updateLinkCapacity. run.
    destruct (find (joins a b) (links w)) as [l0|] eqn:E; [|reflexivity].
    apply find_some in E. destruct E as [Hin E]. exfalso.
    apply (Hnone l0 Hin). unfold joins in E. apply andb_prop in E.
    destruct E as [E1 E2]. apply String.eqb_eq in E1, E2. tauto.
  - intros Hneg. unfold postTraffic.
    apply Z.ltb_lt in Hneg. rewrite Hneg, orb_true_r. reflexivity.
  - intros Hnp. unfold postLinkCapacity.
    apply Z.leb_le in Hnp. rewrite Hnp, orb_true_r. reflexivity.
Qed.

Lemma mutators_check_target_only_witness :
  (exists w' table',
      updateTrafficRates "A" (-5) world_ready = Done true w' /\
      Obj.get "08:00" (trafficRates w') = Some table' /\
      Obj.get "A" table' = Some (-5)) /\
  updateTrafficRates "Z" 5 world_ready = Done false world_ready /\
  (exists w' l',
      updateLinkCapacity "A" "B" 0 world_ready = Done true w' /\
      find (joins "A" "B") (links w') = Some l' /\ capacity l' = 0) /\
  updateLinkCapacity "B" "A" 10 world_ready = Done false world_ready /\
  postTraffic "A" (Some (-5)) world_ready = Done Status400 world_ready /\
  postLinkCapacity "A" "B" (Some 0) world_ready = Done Status400 world_ready.
Proof.
  split; [|split; [|split; [|split; [|split]]]].
  - destruct (mutators_check_target_only world_ready "A" (-5) "A" "B" 0)
      as (H & _).
    destruct H as (w' & t' & H1 & _ & _ & H2 & H3 & _);
      [simpl; tauto | discriminate |].
    exists w', t'. tauto.
  - apply (mutators_check_target_only world_ready "Z" 5 "A" "B" 0).
    simpl. intuition discriminate.
  - destruct (mutators_check_target_only world_ready "A" (-5) "A" "B" 0)
      as (_ & _ & H & _).
    destruct H as (w' & l' & H1 & _ & _ & H2 & H3 & _).
    + exists (mkLink "A" "B" 100). simpl. tauto.
    + exists w', l'. tauto.
  - apply (mutators_check_target_only world_ready "A" 1 "B" "A" 10).
    simpl. intros l [<-|[<-|[<-|[<-|[<-|[<-|[]]]]]]]; simpl; intuition discriminate.
  - apply (mutators_check_target_only world_ready "A" (-5) "A" "B" 0). lia.
  - apply (mutators_check_target_only world_ready "A" (-5) "A" "B" 0). lia.
Defined.

(** C5 as stated fails: a negative rate and a zero capacity are both
    accepted, reported as success and stored. *)
Lemma mutators_accept_invalid_values :
  (exists w',
      updateTrafficRates "A" (-5) world_ready = Done true w' /\
      trafficRates w' <> trafficRates world_ready) /\
  (exists w',
      updateLinkCapacity "A" "B" 0 world_ready = Done true w' /\
      links w' <> links world_ready).
Proof.
  split; eexists; (split; [reflexivity | discriminate]).
Qed.

(* ------------------------------------------------------------------ *)
(** ** Reset                                                           *)
(* ------------------------------------------------------------------ *)

(** C4, on the code. After [resetSimulation] a snapshot shows tick 0, slot
    08:00, the running flag off, both cumulative counters 0 and every
    link with load 0 and queue 0; but the packet history is the one from
    before the reset: [resetSimulation] never assigns [packetStats]. After
    one tick from the start-up state the snapshot taken after a reset still
    lists that tick's 200 packets. *)
Theorem resetSimulation_keeps_packet_history :
  (forall w : World,
      exists w' s,
        resetSimulation w = Done tt w' /\
        getNetworkStats w' = Done s w' /\
        Stats.simulationStep s = 0 /\
        Stats.currentTime s = "08:00" /\
        Stats.isRunning s = false /\
        Summary.totalPacketsGenerated (Stats.summary s) = 0 /\
        Summary.totalPacketsTransmitted (Stats.summary s) = 0 /\
        Forall (fun l => LinkStat.queueSize l = 0 /\ LinkStat.currentLoad l = 0)
               (Stats.links s) /\
        Stats.packets s = packetStats (networkState w)) /\
  List.length
    (Stats.packets
       (stateOfStats (after resetSimulation (after (simulateTick rnd0) world_ready))))
  = 200%nat /\
  Stats.packets (stateOfStats world_init) = [].
Proof.
  split.
  - intros w. rewrite resetSimulation_run. unfold getNetworkStats. run.
    eexists _, _. split; [reflexivity|]. split; [reflexivity|]. simpl.
    repeat split.
    apply Forall_forall. intros ls Hin. apply in_map_iff in Hin.
    destruct Hin as (l & <- & Hin). unfold linkStat; simpl.
    now rewrite (zeroTable_get _ _ [] Hin).
  - split; vm_compute; reflexivity.
Qed.

(* ------------------------------------------------------------------ *)
(** ** The router: tables, graph and scan                              *)
(* ------------------------------------------------------------------ *)

Import Dijkstra.

Lemma dist_ltb_le a b : dist_ltb a b = false <-> dist_le b a.
Proof.
  destruct a, b; simpl; try tauto; try (split; [discriminate | tauto]).
  rewrite Nat.ltb_ge. tauto.
Qed.

Lemma dist_ltb_lt a b :
  dist_ltb a b = true -> exists x, a = Finite x /\ (forall y, b = Finite y -> (x < y)%nat).
Proof.
  destruct a, b; simpl; try discriminate.
  - rewrite Nat.ltb_lt. intros H. exists n. split; [reflexivity|]. now intros y [= <-].
  - intros _. exists n. split; [reflexivity | discriminate].
Qed.

Lemma set_add_In x y l : In y (set_add x l) <-> y = x \/ In y l.
Proof.
  unfold set_add. destruct (mem x l) eqn:E.
  - apply mem_In in E. split; [tauto | intros [->|]; assumption].
  - rewrite in_app_iff. simpl. intuition.
Qed.

Lemma set_add_NoDup x l : NoDup l -> NoDup (set_add x l).
Proof.
  unfold set_add. destruct (mem x l) eqn:E; [tauto|]. apply mem_notIn in E.
  intros H. apply NoDup_rev in H. rewrite <- (rev_involutive (l ++ [x])).
  apply NoDup_rev. rewrite rev_app_distr. simpl. constructor; [|assumption].
  now rewrite <- in_rev.
Qed.

Lemma set_add_length x l : (List.length (set_add x l) <= S (List.length l))%nat.
Proof.
  unfold set_add. destruct (mem x l); [lia|]. rewrite length_app. simpl. lia.
Qed.

Lemma set_delete_In x y l : In y (set_delete x l) <-> In y l /\ y <> x.
Proof.
  unfold set_delete. rewrite filter_In. rewrite negb_true_iff, String.eqb_neq. tauto.
Qed.

Lemma set_delete_length x l :
  In x l -> (List.length (set_delete x l) < List.length l)%nat.
Proof.
  unfold set_delete. induction l as [|y r IH]; simpl; [tauto|].
  destruct (String.eqb y x) eqn:E; simpl.
  - intros _. pose proof (filter_length_le (fun y => negb (String.eqb y x)) r). lia.
  - intros [->|H]; [now rewrite String.eqb_refl in E | apply IH in H; lia].
Qed.

Section Init.
Variable start : string.

Lemma init_fold l : forall s,
  let s' := fold_left (init_step start) l s in
  (forall n, In n l -> Obj.get n (distances s') = Some (initialDist start n) /\
                       Obj.get n (previous s') = Some None) /\
  (forall n, ~ In n l -> Obj.get n (distances s') = Obj.get n (distances s) /\
                         Obj.get n (previous s') = Obj.get n (previous s)) /\
  (forall x, In x (unvisited s') <-> In x l \/ In x (unvisited s)) /\
  (NoDup (unvisited s) -> NoDup (unvisited s')) /\
  (List.length (unvisited s') <= List.length (unvisited s) + List.length l)%nat.
Proof.
  induction l as [|a r IH]; intros s; simpl.
  - repeat split; try tauto; try lia.
  - destruct (IH (init_step start s a)) as (H1 & H2 & H3 & H4 & H5). clear IH.
    repeat split.
    + destruct (in_dec string_dec n r) as [Hin|Hout]; [now apply H1|].
      destruct H as [->|H]; [|contradiction].
      destruct (H2 n Hout) as [E _]. rewrite E. simpl. apply get_set_same.
    + destruct (in_dec string_dec n r) as [Hin|Hout]; [now apply H1|].
      destruct H as [->|H]; [|contradiction].
      destruct (H2 n Hout) as [_ E]. rewrite E. simpl. apply get_set_same.
    + assert (Hr : ~ In n r) by tauto. destruct (H2 n Hr) as [E _]. rewrite E. simpl.
      apply get_set_other. tauto.
    + assert (Hr : ~ In n r) by tauto. destruct (H2 n Hr) as [_ E]. rewrite E. simpl.
      apply get_set_other. tauto.
    + intros H. apply H3 in H. simpl in H. rewrite set_add_In in H. intuition.
    + intros H. apply H3. simpl. rewrite set_add_In. intuition.
    + intros H. apply H4. simpl. now apply set_add_NoDup.
    + simpl in H5. pose proof (set_add_length a (unvisited s)). lia.
Qed.
End Init.

Lemma graphFor_ext ns (E E' : string -> string -> Prop) g :
  (forall x y, E x y <-> E' x y) -> graphFor ns E g -> graphFor ns E' g.
Proof.
  intros Heq (H1 & H2 & H3). repeat split.
  - exact H1.
  - eapply H2; eassumption.
  - apply Heq. eapply H2; eassumption.
  - intros a b H. apply Heq in H. now apply H3.
Qed.

Lemma emptyGraph_fold l : forall g n,
  Obj.get n (fold_left (fun g n => Obj.set n (@nil Edge) g) l g) =
  if in_dec string_dec n l then Some [] else Obj.get n g.
Proof.
  induction l as [|a r IH]; intros g n; simpl; [reflexivity|].
  rewrite IH. destruct (in_dec string_dec n r) as [Hin|Hout].
  - destruct (string_dec a n); [reflexivity|]. destruct (in_dec string_dec n r); tauto.
  - rewrite (get_set (V := list Edge)). destruct (string_dec a n) as [->|Hne].
    + now rewrite String.eqb_refl.
    + apply String.eqb_neq in Hne. rewrite Hne.
      destruct (in_dec string_dec n r); tauto.
Qed.

Lemma emptyGraph_good ns : graphFor ns (fun _ _ => False) (emptyGraph ns).
Proof.
  unfold emptyGraph. repeat split.
  - intros n Hn. rewrite emptyGraph_fold. destruct (in_dec string_dec n ns); [eauto | tauto].
  - rewrite emptyGraph_fold in H. destruct (in_dec string_dec n ns); [|discriminate].
    injection H as <-. destruct H0.
  - rewrite emptyGraph_fold in H. destruct (in_dec string_dec n ns); [|discriminate].
    injection H as <-. destruct H0.
  - intros a b [].
Qed.

Lemma push_edge_good ns (E : string -> string -> Prop) a b g :
  graphFor ns E g -> In a ns ->
  exists g', push_edge a b g = Some g' /\
             graphFor ns (fun x y => E x y \/ (x = a /\ y = b)) g'.
Proof.
  intros (H1 & H2 & H3) Ha. unfold push_edge.
  destruct (H1 a Ha) as (es & Hes). rewrite Hes.
  eexists. split; [reflexivity|]. repeat split.
  - intros n Hn. rewrite (get_set (V := list Edge)).
    destruct (String.eqb a n); [eauto | now apply H1].
  - rewrite (get_set (V := list Edge)) in H.
    destruct (String.eqb a n) eqn:Ean.
    + apply String.eqb_eq in Ean. subst n. injection H as <-.
      apply in_app_iff in H0. destruct H0 as [H0|[<-|[]]]; [|reflexivity].
      eapply H2; eassumption.
    + eapply H2; eassumption.
  - rewrite (get_set (V := list Edge)) in H.
    destruct (String.eqb a n) eqn:Ean.
    + apply String.eqb_eq in Ean. subst n. injection H as <-.
      apply in_app_iff in H0. destruct H0 as [H0|[<-|[]]]; [|simpl; tauto].
      left. eapply H2; eassumption.
    + left. eapply H2; eassumption.
  - intros x y [Hxy|[-> ->]].
    + destruct (H3 x y Hxy) as (es' & Hg & Hin).
      rewrite (get_set (V := list Edge)). destruct (String.eqb a x) eqn:Eax.
      * apply String.eqb_eq in Eax. subst x. rewrite Hes in Hg. injection Hg as <-.
        eexists. split; [reflexivity|]. apply in_app_iff. now left.
      * eauto.
    + rewrite (get_set_same (V := list Edge)). eexists. split; [reflexivity|].
      apply in_app_iff. right. now left.
Qed.

Lemma addLinks_good ns r : forall (E : string -> string -> Prop) g,
  graphFor ns E g -> wellFormed ns r ->
  exists g', addLinks r g = Some g' /\ graphFor ns (fun x y => E x y \/ adj r x y) g'.
Proof.
  induction r as [|l r IH]; intros E g Hg Hwf; simpl.
  - eexists. split; [reflexivity|]. eapply graphFor_ext; [|exact Hg].
    intros x y. split; [tauto|]. intros [H|(l & [] & _)]. exact H.
  - destruct (Hwf l (or_introl eq_refl)) as [Hf Ht].
    destruct (@push_edge_good ns _ (from l) (to l) g Hg Hf) as (g1 & -> & Hg1).
    destruct (@push_edge_good ns _ (to l) (from l) g1 Hg1 Ht) as (g2 & -> & Hg2).
    destruct (IH _ g2 Hg2) as (g' & -> & Hg').
    { intros l' Hl'. apply Hwf. now right. }
    eexists. split; [reflexivity|]. eapply graphFor_ext; [|exact Hg'].
    intros x y. unfold adj. simpl. split.
    + intros [[[H|[-> ->]]|[-> ->]]|(l' & Hin & H)].
      * now left.
      * right. exists l. tauto.
      * right. exists l. tauto.
      * right. exists l'. tauto.
    + intros [H|(l' & [<-|Hin] & H)].
      * tauto.
      * destruct H as [[<- <-]|[<- <-]]; tauto.
      * right. exists l'. tauto.
Qed.

Lemma graph_good ns ls :
  wellFormed ns ls ->
  exists g, addLinks ls (emptyGraph ns) = Some g /\ graphFor ns (adj ls) g.
Proof.
  intros Hwf.
  destruct (addLinks_good ns ls _ _ (emptyGraph_good ns) Hwf) as (g & Hg & Hgood).
  exists g. split; [assumption|]. eapply graphFor_ext; [|exact Hgood].
  intros x y. simpl. tauto.
Qed.

(** The scan returns the first unvisited node of least finite distance. *)
Lemma scan_fold d u : forall c m c' m',
  fold_left (scan_step d) u (c, m) = (c', m') ->
  dist_le m' m /\
  (forall y dy, In y u -> Obj.get y d = Some dy -> dist_le m' dy) /\
  ((c', m') = (c, m) \/
   exists cur, c' = Some cur /\ In cur u /\ Obj.get cur d = Some m' /\ dist_ltb m' m = true).
Proof.
  assert (Hrefl : forall x, dist_le x x) by (intros [x|]; simpl; lia).
  assert (Htrans : forall x y z, dist_le x y -> dist_le y z -> dist_le x z).
  { intros [x|] [y|] [z|]; simpl; try tauto; lia. }
  induction u as [|a r IH]; intros c m c' m'; simpl.
  - intros [= -> ->]. repeat split; [apply Hrefl | tauto | now left].
  - unfold scan_step at 2. simpl.
    destruct (Obj.get a d) as [da|] eqn:Ea.
    + destruct (dist_ltb da m) eqn:Elt.
      * intros H. apply IH in H. destruct H as (H1 & H2 & H3).
        assert (Hdam : dist_le da m).
        { apply dist_ltb_lt in Elt. destruct Elt as (x & -> & Hx).
          destruct m as [y|]; simpl; [specialize (Hx y eq_refl); lia | trivial]. }
        repeat split.
        -- eapply Htrans; eassumption.
        -- intros y dy [->|Hy] Hg; [|now apply (H2 y)].
           rewrite Ea in Hg. injection Hg as <-. exact H1.
        -- right. destruct H3 as [[= -> ->]|(cur & -> & Hin & Hg & Hlt)].
           ++ exists a. repeat split; auto.
           ++ exists cur. repeat split; auto.
              apply dist_ltb_lt in Hlt. destruct Hlt as (x & -> & Hx).
              apply dist_ltb_lt in Elt. destruct Elt as (x' & -> & Hx').
              specialize (Hx x' eq_refl).
              destruct m as [y|]; simpl; [|reflexivity].
              specialize (Hx' y eq_refl). apply Nat.ltb_lt. lia.
      * intros H. apply IH in H. destruct H as (H1 & H2 & H3).
        repeat split.
        -- exact H1.
        -- intros y dy [->|Hy] Hg; [|now apply (H2 y)].
           rewrite Ea in Hg. injection Hg as <-.
           apply dist_ltb_le in Elt. eapply Htrans; eassumption.
        -- destruct H3 as [H3|(cur & -> & Hin & Hg & Hlt)]; [now left|].
           right. exists cur. repeat split; auto.
    + intros H. apply IH in H. destruct H as (H1 & H2 & H3).
      repeat split.
      * exact H1.
      * intros y dy [->|Hy] Hg; [congruence | now apply (H2 y)].
      * destruct H3 as [H3|(cur & -> & Hin & Hg & Hlt)]; [now left|].
        right. exists cur. repeat split; auto.
Qed.

(* ------------------------------------------------------------------ *)
(** ** The router: the search loop                                     *)
(* ------------------------------------------------------------------ *)

Section SearchLoop.
Variables (ns : list string) (ls : list Link) (start end_ : string).
Variable graph : Obj.t (list Edge).
Hypothesis Hwf : wellFormed ns ls.
Hypothesis Hgraph : graphFor ns (adj ls) graph.
Hypothesis Hstart : In start ns.

Lemma adj_nodes a b : adj ls a b -> In a ns /\ In b ns.
Proof.
  intros (l & Hl & H). destruct (Hwf l Hl) as [Hf Ht].
  destruct H as [[<- <-]|[<- <-]]; tauto.
Qed.

Section Relax.
Variables (cur : string) (c : nat) (s1 : Search).
Hypothesis Hcur_out : ~ In cur (unvisited s1).
Hypothesis Hcur_dist : Obj.get cur (distances s1) = Some (Finite c).
Hypothesis Hdef : forall n, In n ns -> exists d, Obj.get n (distances s1) = Some d.

Lemma relaxed_cur t :
  relaxed ls cur c s1 t -> Obj.get cur (distances t) = Some (Finite c).
Proof.
  intros [_ H]. destruct (H cur) as [[E _]|(Hin & _)]; [congruence | contradiction].
Qed.

Lemma relax_one t e :
  relaxed ls cur c s1 t -> weight e = 1%nat -> adj ls cur (node e) ->
  relaxed ls cur c s1 (relax cur t e) /\
  (In (node e) (unvisited s1) ->
   exists dv, Obj.get (node e) (distances (relax cur t e)) = Some (Finite dv) /\
              (dv <= S c)%nat) /\
  (forall n dv, Obj.get n (distances t) = Some (Finite dv) -> (dv <= S c)%nat ->
                exists dv', Obj.get n (distances (relax cur t e)) = Some (Finite dv') /\
                            (dv' <= S c)%nat).
Proof.
  intros Hrel Hw Hadj. pose proof (relaxed_cur t Hrel) as Hc.
  destruct Hrel as [Hu Hrel].
  assert (Hne : In (node e) ns) by (apply (adj_nodes _ _ Hadj)).
  destruct (Hdef _ Hne) as (d1 & Hd1).
  unfold relax. rewrite Hu, Hc.
  destruct (mem (node e) (unvisited s1)) eqn:Emem.
  - apply mem_In in Emem.
    assert (Hdt : exists dt, Obj.get (node e) (distances t) = Some dt).
    { destruct (Hrel (node e)) as [[E _]|(_ & _ & E & _)]; rewrite E; eauto. }
    destruct Hdt as (dt & Hdt). rewrite Hdt, Hw. simpl dist_add.
    rewrite Nat.add_1_r.
    destruct (dist_ltb (Finite (S c)) dt) eqn:Elt.
    + split; [split|split]; simpl.
      * reflexivity.
      * intros n. destruct (string_dec (node e) n) as [<-|Hn].
        -- right. rewrite !get_set_same. repeat split; auto.
           destruct (Hrel (node e)) as [[E _]|(_ & _ & E & _)].
           ++ exists dt. split; [congruence | exact Elt].
           ++ rewrite E in Hdt. injection Hdt as <-. simpl in Elt.
              rewrite Nat.ltb_irrefl in Elt. discriminate.
        -- rewrite (get_set_other (V := dist)), (get_set_other (V := option string)) by assumption.
           apply Hrel.
      * intros _. exists (S c). rewrite get_set_same. split; [reflexivity | lia].
      * intros n dv Hn Hle. destruct (string_dec (node e) n) as [<-|Hne'].
        -- exists (S c). rewrite get_set_same. split; [reflexivity | lia].
        -- exists dv. rewrite (get_set_other (V := dist)) by assumption. tauto.
    + split; [split|split].
      * exact Hu.
      * exact Hrel.
      * intros _. apply dist_ltb_le in Elt. destruct dt as [x|]; simpl in Elt; [|tauto].
        exists x. split; [assumption | lia].
      * intros n dv Hn Hle. eauto.
  - apply mem_notIn in Emem. split; [split|split].
    + exact Hu.
    + exact Hrel.
    + contradiction.
    + intros n dv Hn Hle. eauto.
Qed.

Lemma relax_fold es : forall t,
  relaxed ls cur c s1 t ->
  (forall e, In e es -> weight e = 1%nat /\ adj ls cur (node e)) ->
  relaxed ls cur c s1 (fold_left (relax cur) es t) /\
  (forall e, In e es -> In (node e) (unvisited s1) ->
     exists dv, Obj.get (node e) (distances (fold_left (relax cur) es t)) = Some (Finite dv) /\
                (dv <= S c)%nat) /\
  (forall n dv, Obj.get n (distances t) = Some (Finite dv) -> (dv <= S c)%nat ->
     exists dv', Obj.get n (distances (fold_left (relax cur) es t)) = Some (Finite dv') /\
                 (dv' <= S c)%nat).
Proof.
  induction es as [|e r IH]; intros t Hrel Hes; simpl.
  - split; [exact Hrel | split; [intros e [] | eauto]].
  - destruct (Hes e (or_introl eq_refl)) as [Hw Hadj].
    destruct (@relax_one t e Hrel Hw Hadj) as (Hrel1 & Hhead & Hmono1).
    destruct (IH (relax cur t e) Hrel1) as (Hrel' & Hall & Hmono).
    { intros e' He'. apply Hes. now right. }
    split; [exact Hrel' | split].
    + intros e' [<-|He'] Hin.
      * destruct (Hhead Hin) as (dv & Hdv & Hle). eapply Hmono; eassumption.
      * now apply Hall.
    + intros n dv Hn Hle. destruct (Hmono1 n dv Hn Hle) as (dv1 & Hdv1 & Hle1).
      eapply Hmono; eassumption.
Qed.
End Relax.

(** Anything reachable over [k] links is either settled at distance at most
    [k], or some unvisited node stands at distance at most [k]. *)
Lemma frontier s k x :
  SearchInv ns ls start s -> reach ls start k x ->
  (settled ns s x /\ exists d, Obj.get x (distances s) = Some (Finite d) /\ (d <= k)%nat) \/
  (exists y d, In y (unvisited s) /\ Obj.get y (distances s) = Some (Finite d) /\ (d <= k)%nat).
Proof.
  intros Hinv Hreach. induction Hreach as [|k u v Hr IH Hadj].
  - destruct (in_dec string_dec start (unvisited s)) as [Hin|Hout].
    + right. exists start, 0%nat. split; [assumption|]. split; [|lia].
      apply (tree_start (inv_tree Hinv)).
    + left. split; [split; assumption|]. exists 0%nat. split; [|lia].
      apply (tree_start (inv_tree Hinv)).
  - destruct IH as [[Hset (d & Hd & Hle)]|(y & d & Hy & Hd & Hle)].
    + destruct (inv_edge Hinv Hset Hd Hadj) as (dv & Hdv & Hle').
      destruct (in_dec string_dec v (unvisited s)) as [Hin|Hout].
      * right. exists v, dv. repeat split; auto; lia.
      * left. split; [split; [apply (adj_nodes _ _ Hadj) | assumption]|].
        exists dv. split; [assumption | lia].
    + right. exists y, d. repeat split; auto.
Qed.
Lemma init_inv : SearchInv ns ls start (init ns start).
Proof.
  destruct (init_fold start ns (mkSearch [] [] [])) as (H1 & H2 & H3 & H4 & H5).
  fold (init ns start) in *. simpl in *.
  assert (Hnone : forall u, ~ settled ns (init ns start) u).
  { intros u [Hu Hout]. apply Hout. apply H3. now left. }
  split; [split|..].
  - intros n Hn. destruct (H1 n Hn) as [E _]. eauto.
  - intros n Hn. destruct (H1 n Hn) as [_ E]. eauto.
  - destruct (H1 start Hstart) as [E _]. rewrite E. unfold initialDist.
    now rewrite String.eqb_refl.
  - intros n d Hn Hd. destruct (H1 n Hn) as [E1 E2]. rewrite E1 in Hd.
    unfold initialDist in Hd. destruct (String.eqb n start) eqn:E; [|discriminate].
    apply String.eqb_eq in E. injection Hd as <-. left. tauto.
  - intros n Hn _. apply (H1 n Hn).
  - intros x Hx. apply H3 in Hx. tauto.
  - intros n u Hn Hp. destruct (H1 n Hn) as [_ E]. congruence.
  - intros u Hu. destruct (Hnone u Hu).
  - intros u v du Hu. destruct (Hnone u Hu).
  - intros u v du dv Hu. destruct (Hnone u Hu).
Qed.

Lemma step_inv s cur c es :
  SearchInv ns ls start s ->
  In cur (unvisited s) ->
  Obj.get cur (distances s) = Some (Finite c) ->
  (forall y dy, In y (unvisited s) -> Obj.get y (distances s) = Some dy ->
                dist_le (Finite c) dy) ->
  Obj.get cur graph = Some es ->
  SearchInv ns ls start
    (fold_left (relax cur) es
       (mkSearch (distances s) (previous s) (set_delete cur (unvisited s)))).
Proof.
  intros Hinv Hcur Hc Hmin Hes.
  set (s1 := mkSearch (distances s) (previous s) (set_delete cur (unvisited s))).
  assert (Hcur_out : ~ In cur (unvisited s1)).
  { simpl. rewrite set_delete_In. tauto. }
  assert (Hdef : forall n, In n ns -> exists d, Obj.get n (distances s1) = Some d).
  { intros n Hn. apply (tree_dist_def (inv_tree Hinv) n Hn). }
  assert (Hrel0 : relaxed ls cur c s1 s1).
  { split; [reflexivity | intros n; left; split; reflexivity]. }
  assert (Hedges : forall e, In e es -> weight e = 1%nat /\ adj ls cur (node e)).
  { intros e He. destruct Hgraph as (_ & G2 & _). eapply G2; eassumption. }
  destruct (@relax_fold cur c s1 Hcur_out Hc Hdef es s1 Hrel0 Hedges) as (Hrel & Hall & _).
  set (t := fold_left (relax cur) es s1) in *.
  destruct Hrel as [Hu Hrel]. simpl in Hu.
  pose proof (inv_tree Hinv) as Htree.
  assert (Hcur_ns : In cur ns) by (apply (inv_sub Hinv), Hcur).
  assert (Hsame : forall n, ~ In n (unvisited t) ->
            Obj.get n (distances t) = Obj.get n (distances s) /\
            Obj.get n (previous t) = Obj.get n (previous s)).
  { intros n Hn. destruct (Hrel n) as [H|(Hin & _)]; [exact H|].
    exfalso. apply Hn. rewrite Hu. exact Hin. }
  assert (Hcur_t : Obj.get cur (distances t) = Some (Finite c)).
  { destruct (Hsame cur) as [E _]; [rewrite Hu; exact Hcur_out | congruence]. }
  assert (Hold : forall u, settled ns t u -> u <> cur -> settled ns s u).
  { intros u [Hu1 Hu2] Hne. split; [assumption|]. intros Hin. apply Hu2.
    rewrite Hu. apply set_delete_In. tauto. }
  assert (Hnew : forall u, settled ns s u -> settled ns t u).
  { intros u [Hu1 Hu2]. split; [assumption|]. rewrite Hu, set_delete_In. tauto. }
  split; [split|..].
  - intros n Hn. destruct (Hrel n) as [[E _]|(_ & _ & E & _)]; rewrite E; [|eauto].
    apply (tree_dist_def Htree n Hn).
  - intros n Hn. destruct (Hrel n) as [[_ E]|(_ & _ & _ & E & _)]; rewrite E; [|eauto].
    apply (tree_prev_def Htree n Hn).
  - destruct (Hrel start) as [[E _]|(_ & _ & _ & _ & dn & Hdn & Hlt)].
    + rewrite E. apply (tree_start Htree).
    + simpl in Hdn. rewrite (tree_start Htree) in Hdn. injection Hdn as <-.
      simpl in Hlt. discriminate.
  - intros n d Hn Hd. destruct (Hrel n) as [[E1 E2]|(Hin & Hadj & E1 & E2 & _)].
    + rewrite E1 in Hd. rewrite E2. simpl in *.
      destruct (tree_parent Htree n Hn Hd) as [H|(u & d' & -> & Hp & Hu' & Hdu & Hadj)];
        [left; exact H|].
      right. exists u, d'. repeat split; auto.
      destruct (Hsame u) as [E _]; [|congruence].
      apply (Hnew u). apply (inv_parent_settled Hinv n Hn Hp).
    + rewrite E1 in Hd. injection Hd as <-. right. exists cur, c. repeat split; auto.
  - intros n Hn Hd. destruct (Hrel n) as [[E1 E2]|(_ & _ & E1 & _)]; [|congruence].
    rewrite E2. rewrite E1 in Hd. apply (tree_inf Htree n Hn Hd).
  - intros x Hx. rewrite Hu in Hx. apply set_delete_In in Hx. apply (inv_sub Hinv). tauto.
  - intros n u Hn Hp. destruct (Hrel n) as [[_ E2]|(_ & _ & _ & E2 & _)].
    + rewrite E2 in Hp. apply Hnew. apply (inv_parent_settled Hinv n Hn Hp).
    + rewrite E2 in Hp. injection Hp as <-. split; [assumption|]. rewrite Hu. exact Hcur_out.
  - intros u Hset. destruct (string_dec u cur) as [->|Hne]; [eauto|].
    destruct (Hsame u (proj2 Hset)) as [E _]. rewrite E.
    apply (inv_settled_finite Hinv). now apply Hold.
  - intros u v du Hset Hdu Hadj.
    destruct (adj_nodes _ _ Hadj) as [_ Hv].
    destruct (string_dec u cur) as [->|Hne].
    + rewrite Hcur_t in Hdu. injection Hdu as <-.
      destruct (in_dec string_dec v (unvisited t)) as [Hin|Hout].
      * destruct Hgraph as (_ & _ & G3). destruct (G3 cur v Hadj) as (es' & Hes' & He).
        rewrite Hes in Hes'. injection Hes' as <-.
        apply (Hall _ He). simpl. rewrite <- Hu. exact Hin.
      * destruct (Hsame v Hout) as [E _]. rewrite E.
        destruct (string_dec v cur) as [->|Hne']; [exists c; split; [assumption | lia]|].
        assert (Hsv : settled ns s v) by (apply Hold; [split; assumption | assumption]).
        destruct (inv_settled_finite Hinv Hsv) as (dv & Hdv).
        exists dv. split; [assumption|].
        pose proof (@inv_order _ _ _ _ Hinv v cur _ _ Hsv Hcur Hdv Hc) as Hle. simpl in Hle. lia.
    + assert (Hsu : settled ns s u) by (now apply Hold).
      destruct (Hsame u (proj2 Hset)) as [E _]. rewrite E in Hdu.
      destruct (inv_edge Hinv Hsu Hdu Hadj) as (dv & Hdv & Hle).
      pose proof (@inv_order _ _ _ _ Hinv u cur _ _ Hsu Hcur Hdu Hc) as Hle'. simpl in Hle'.
      destruct (Hrel v) as [[E1 _]|(_ & _ & E1 & _ & dn & Hdn & Hlt)]; rewrite E1.
      * exists dv. split; [exact Hdv | lia].
      * simpl in Hdn. rewrite Hdv in Hdn. injection Hdn as <-.
        simpl in Hlt. apply Nat.ltb_lt in Hlt.
        exists (S c). split; [reflexivity | lia].
  - intros u v du dv Hset Hv Hdu Hdv.
    rewrite Hu in Hv. apply set_delete_In in Hv. destruct Hv as [Hv Hvne].
    destruct (Hsame u (proj2 Hset)) as [E _]. rewrite E in Hdu.
    destruct (string_dec u cur) as [->|Hne].
    + rewrite Hc in Hdu. injection Hdu as <-.
      destruct (Hrel v) as [[E1 _]|(_ & _ & E1 & _)]; rewrite E1 in Hdv.
      * now apply (Hmin v).
      * injection Hdv as <-. simpl. lia.
    + assert (Hsu : settled ns s u) by (now apply Hold).
      destruct (Hrel v) as [[E1 _]|(_ & _ & E1 & _)]; rewrite E1 in Hdv.
      * apply (@inv_order _ _ _ _ Hinv u v _ _ Hsu Hv Hdu Hdv).
      * injection Hdv as <-.
        pose proof (@inv_order _ _ _ _ Hinv u cur _ _ Hsu Hcur Hdu Hc) as Hle.
        destruct du; simpl in *; [lia | contradiction].
Qed.
Lemma relax_unvisited cur es : forall t,
  unvisited (fold_left (relax cur) es t) = unvisited t.
Proof.
  induction es as [|e r IH]; intros t; simpl; [reflexivity|].
  rewrite IH. unfold relax.
  destruct (mem _ _); [|reflexivity].
  destruct (Obj.get cur _); [|reflexivity].
  destruct (Obj.get (node e) _); [|reflexivity].
  destruct (dist_ltb _ _); reflexivity.
Qed.

Lemma search_unfold fuel s :
  search fuel graph end_ s =
  match unvisited s with
  | [] => Some s
  | _ :: _ =>
      match scan (distances s) (unvisited s) with
      | (None, _) => Some s
      | (Some currentNode, _) =>
          match Obj.get currentNode (distances s) with
          | Some Infinity => Some s
          | _ =>
              let s1 := mkSearch (distances s) (previous s)
                                 (set_delete currentNode (unvisited s)) in
              if String.eqb currentNode end_ then Some s1
              else
                let s2 := match Obj.get currentNode graph with
                          | Some es => fold_left (relax currentNode) es s1
                          | None => s1
                          end in
                match fuel with
                | O => None
                | S f => search f graph end_ s2
                end
          end
      end
  end.
Proof. destruct fuel; reflexivity. Qed.

(** The loop ends within [fuel] rounds when [fuel] covers the unvisited
    set, and leaves either the least hop count to [end_] or [Infinity] when
    [end_] cannot be reached. *)
Lemma search_final : forall fuel s,
  SearchInv ns ls start s ->
  In end_ (unvisited s) ->
  (List.length (unvisited s) <= fuel)%nat ->
  exists s',
    search fuel graph end_ s = Some s' /\
    TreeInv ns ls start s' /\
    ((exists d, Obj.get end_ (distances s') = Some (Finite d) /\
                forall k, reach ls start k end_ -> (d <= k)%nat) \/
     (Obj.get end_ (distances s') = Some Infinity /\
      forall k, ~ reach ls start k end_)).
Proof.
  induction fuel as [fuel IH] using lt_wf_ind. intros s Hinv Hend Hlen.
  rewrite search_unfold.
  destruct (unvisited s) as [|x0 r0] eqn:EU; [destruct Hend|]. rewrite <- EU in *.
  clear x0 r0 EU.
  destruct (scan (distances s) (unvisited s)) as [[cur|] m] eqn:Escan.
  - apply scan_fold in Escan. destruct Escan as (_ & Hmin & Hsel).
    destruct Hsel as [[=]|(cur' & [= <-] & Hcur & Hm & Hlt)].
    apply dist_ltb_lt in Hlt. destruct Hlt as (c & -> & _).
    rewrite Hm.
    destruct (String.eqb cur end_) eqn:Eend.
    + apply String.eqb_eq in Eend. subst cur.
      eexists. split; [reflexivity|]. split.
      * destruct (inv_tree Hinv). split; assumption.
      * left. exists c. split; [exact Hm|].
        intros k Hk. destruct (frontier s k end_ Hinv Hk) as [[[_ Hout] _]|(y & d & Hy & Hd & Hle)].
        -- contradiction.
        -- pose proof (Hmin y _ Hy Hd) as Hcd. simpl in Hcd. lia.
    + apply String.eqb_neq in Eend.
      assert (Hcur_ns : In cur ns) by (apply (inv_sub Hinv), Hcur).
      destruct Hgraph as (G1 & _). destruct (G1 cur Hcur_ns) as (es & Hes). rewrite Hes.
      pose proof (@set_delete_length cur _ Hcur) as Hdel.
      destruct fuel as [|f]; [lia|].
      apply IH.
      * lia.
      * now apply (@step_inv s cur c es).
      * rewrite relax_unvisited. simpl. apply set_delete_In. split; [assumption|].
        congruence.
      * rewrite relax_unvisited. simpl. lia.
  - apply scan_fold in Escan. destruct Escan as (_ & Hmin & Hsel).
    destruct Hsel as [[= ->]|(cur' & [=] & _)].
    exists s. split; [reflexivity|]. split; [apply (inv_tree Hinv)|].
    right. split.
    + destruct (tree_dist_def (inv_tree Hinv) end_ (inv_sub Hinv _ Hend)) as (d & Hd).
      pose proof (Hmin end_ d Hend Hd) as Hle. destruct d; simpl in Hle; [contradiction|].
      exact Hd.
    + intros k Hk. destruct (frontier s k end_ Hinv Hk) as [[[_ Hout] _]|(y & d & Hy & Hd & Hle)].
      * contradiction.
      * apply (Hmin y _ Hy Hd).
Qed.

Lemma chained_snoc p : forall a u n,
  p <> [] -> chained ls p -> last p a = u -> adj ls u n -> chained ls (p ++ [n]).
Proof.
  induction p as [|x [|y r] IH]; intros a u n Hne Hch Hlast Hadj.
  - congruence.
  - simpl in *. subst. tauto.
  - change (chained ls (x :: (y :: r) ++ [n])).
    destruct Hch as [Hxy Hch]. split; [exact Hxy|].
    apply (IH a u n); [discriminate | exact Hch | exact Hlast | exact Hadj].
Qed.

Lemma last_snoc (p : list string) x d : last (p ++ [x]) d = x.
Proof. apply last_last. Qed.

(** Walking the predecessors back from a node at finite distance [d]
    yields a route from [start] with [d] links. *)
Lemma walkBack_tree s :
  TreeInv ns ls start s ->
  forall d n fuel acc,
    In n ns -> Obj.get n (distances s) = Some (Finite d) -> (d < fuel)%nat ->
    exists p,
      walkBack fuel (previous s) (Some n) acc = Some (p ++ acc) /\
      route ls start n p /\
      List.length p = S d /\
      (forall x, In x p -> In x ns) /\
      (forall i x, nth_error p i = Some x -> Obj.get x (distances s) = Some (Finite i)).
Proof.
  intros Htree. induction d as [|d IH]; intros n fuel acc Hn Hd Hfuel;
    (destruct fuel as [|f]; [lia|]); simpl.
  - destruct (tree_parent Htree n Hn Hd) as [(-> & _ & Hp)|(u & d' & [=] & _)].
    rewrite Hp. exists [start]. simpl.
    split; [destruct f; reflexivity
           | split; [repeat split | split; [reflexivity | split]]].
    + intros x [<-|[]]. assumption.
    + intros [|i] x; simpl; [intros [= <-]; assumption | destruct i; discriminate].
  - destruct (tree_parent Htree n Hn Hd) as [(_ & [=] & _)|(u & d' & [= <-] & Hp & Hu & Hdu & Hadj)].
    rewrite Hp.
    destruct (IH u f (n :: acc) Hu Hdu) as (p & Hw & (Hhd & Hlast & Hch) & Hlen & Hin & Hnth);
      [lia|].
    exists (p ++ [n]). rewrite <- app_assoc. simpl.
    assert (Hne : p <> []) by (destruct p; [discriminate | congruence]).
    split; [exact Hw | split; [split; [|split] | split; [|split]]].
    + destruct p; [congruence | exact Hhd].
    + apply last_snoc.
    + eapply chained_snoc; eassumption.
    + rewrite length_app. simpl. lia.
    + intros x Hx. apply in_app_iff in Hx. destruct Hx as [Hx|[<-|[]]]; auto.
    + intros i x Hi.
      destruct (Nat.lt_ge_cases i (List.length p)) as [Hlt|Hge].
      * rewrite nth_error_app1 in Hi by assumption. now apply Hnth.
      * rewrite nth_error_app2 in Hi by assumption.
        destruct (i - List.length p)%nat as [|j] eqn:Ej; simpl in Hi.
        -- injection Hi as <-. replace i with (S d) by lia. exact Hd.
        -- destruct j; discriminate.
Qed.

Lemma tree_depth s d n :
  TreeInv ns ls start s -> In n ns ->
  Obj.get n (distances s) = Some (Finite d) -> (d < List.length ns)%nat.
Proof.
  intros Htree Hn Hd.
  destruct (@walkBack_tree s Htree d n (S d) [] Hn Hd) as (p & _ & _ & Hlen & Hin & Hnth);
    [lia|].
  assert (Hnd : NoDup p).
  { apply NoDup_nth_error. intros i j Hi Hij.
    destruct (nth_error p i) as [x|] eqn:Ei; [|apply nth_error_None in Ei; lia].
    symmetry in Hij. apply Hnth in Ei, Hij. congruence. }
  pose proof (NoDup_incl_length Hnd Hin). lia.
Qed.

Lemma last_default (r : list string) : forall x d d',
  last (x :: r) d = last (x :: r) d'.
Proof.
  induction r as [|a r IH]; intros x d d'; [reflexivity|].
  change (last (a :: r) d = last (a :: r) d'). apply IH.
Qed.

Lemma reach_chain r : forall k u,
  reach ls start k u -> chained ls (u :: r) ->
  reach ls start (k + List.length r) (last (u :: r) u).
Proof.
  induction r as [|v r IH]; intros k u Hr Hch.
  - simpl. now rewrite Nat.add_0_r.
  - destruct Hch as [Huv Hch].
    replace (k + List.length (v :: r))%nat with (S k + List.length r)%nat by (simpl; lia).
    replace (last (u :: v :: r) u) with (last (v :: r) v).
    + apply IH; [|exact Hch]. econstructor; eassumption.
    + change (last (u :: v :: r) u) with (last (v :: r) u). apply last_default.
Qed.

Lemma route_reach b q : route ls start b q -> reach ls start (List.length q - 1) b.
Proof.
  intros (Hhd & Hlast & Hch). destruct q as [|a r]; [discriminate|].
  injection Hhd as ->. subst b. simpl. rewrite Nat.sub_0_r.
  apply (@reach_chain r 0%nat _); [constructor | exact Hch].
Qed.
End SearchLoop.

(** The router is total on a well-formed topology and returns a route with
    the fewest links, or the empty sequence when there is no route. *)
Lemma dijkstra_correct ns ls start end_ :
  wellFormed ns ls -> In start ns -> In end_ ns ->
  exists p,
    dijkstra ns ls start end_ = Some p /\
    ((route ls start end_ p /\
      forall q, route ls start end_ q -> (List.length p <= List.length q)%nat) \/
     (p = [] /\ forall q, ~ route ls start end_ q)).
Proof.
  intros Hwf Hstart Hend. unfold dijkstra.
  destruct (graph_good ns ls Hwf) as (g & -> & Hg).
  destruct (init_fold start ns (mkSearch [] [] [])) as (_ & _ & H3 & _ & H5).
  fold (init ns start) in *. cbv zeta. simpl in H3, H5.
  destruct (@search_final ns ls start end_ g Hwf Hg Hstart (List.length ns) (init ns start))
    as (s & -> & Htree & Hres).
  { now apply init_inv. }
  { apply H3. now left. }
  { exact H5. }
  destruct Hres as [(d & Hd & Hmin)|(Hinf & Hnone)].
  - assert (Hdepth : (d < List.length ns)%nat) by (eapply tree_depth; eassumption).
    edestruct walkBack_tree with (s := s) (d := d) (n := end_)
                                 (fuel := S (List.length ns)) (acc := @nil string)
      as (p & Hw & Hroute & Hlen & _); try eassumption; [lia|].
    rewrite app_nil_r in Hw. rewrite Hw.
    destruct Hroute as (Hhd & Hlast & Hch).
    destruct p as [|p0 r]; [discriminate|]. injection Hhd as ->.
    rewrite String.eqb_refl. eexists. split; [reflexivity|]. left.
    split; [repeat split; assumption|].
    intros q Hq. pose proof (route_reach _ _ _ _ Hq) as Hr. apply Hmin in Hr.
    destruct Hq as [Hh _]. destruct q as [|q0 q]; [discriminate|].
    simpl in Hr, Hlen |- *. lia.
  - simpl walkBack. rewrite (tree_inf Htree end_ Hend Hinf).
    replace (walkBack (List.length ns) (previous s) None [end_]) with (Some [end_])
      by (destruct (List.length ns); reflexivity).
    destruct (String.eqb end_ start) eqn:E.
    + apply String.eqb_eq in E. subst end_. rewrite (tree_start Htree) in Hinf. discriminate.
    + eexists. split; [reflexivity|]. right. split; [reflexivity|].
      intros q Hq. apply route_reach in Hq. now apply Hnone in Hq.
Qed.

Lemma wellFormed_init : wellFormed nodes links_init.
Proof.
  intros l [<-|[<-|[<-|[<-|[<-|[<-|[]]]]]]]; simpl; tauto.
Qed.

(** C6. For any node list and link list whose links join listed nodes, and
    any source and destination in the node list, [dijkstra] returns; its
    result is either a route from source to destination along links (taken
    in either direction) that has no more nodes than any other such route,
    or the empty sequence when no route exists. On the default topology,
    whatever the capacities, [dijkstra(nodes, links, 'A', 'E')] is
    A, C, E: three nodes, two links. *)
Theorem dijkstra_shortest :
  (forall (ns : list string) (ls : list Link) (start end_ : string),
      wellFormed ns ls -> In start ns -> In end_ ns ->
      exists p,
        dijkstra ns ls start end_ = Some p /\
        ((route ls start end_ p /\
          forall q, route ls start end_ q -> (List.length p <= List.length q)%nat) \/
         (p = [] /\ forall q, ~ route ls start end_ q))) /\
  (forall ls : list Link,
      map (fun l => (from l, to l)) ls = map (fun l => (from l, to l)) links_init ->
      dijkstra nodes ls "A" "E" = Some ["A"; "C"; "E"]).
Proof.
  split.
  - intros. now apply dijkstra_correct.
  - intros ls H.
    do 6 (destruct ls as [|[? ? ?] ls]; [discriminate|]).
    destruct ls; [|discriminate].
    simpl in H. injection H as -> -> -> -> -> -> -> -> -> -> -> ->.
    reflexivity.
Qed.

Lemma dijkstra_shortest_witness :
  (exists p,
      dijkstra nodes links_init "B" "C" = Some p /\
      ((route links_init "B" "C" p /\
        forall q, route links_init "B" "C" q -> (List.length p <= List.length q)%nat) \/
       (p = [] /\ forall q, ~ route links_init "B" "C" q))) /\
  dijkstra nodes links_init "A" "E" = Some ["A"; "C"; "E"].
Proof.
  split.
  - apply (proj1 dijkstra_shortest nodes links_init "B" "C" wellFormed_init);
      simpl; tauto.
  - apply (proj2 dijkstra_shortest links_init). reflexivity.
Defined.

Lemma dijkstra_self ns ls s :
  wellFormed ns ls -> In s ns -> dijkstra ns ls s s = Some [s].
Proof.
  intros Hwf Hs.
  destruct (@dijkstra_correct ns ls s s Hwf Hs Hs) as (p & -> & [[Hr Hmin]|[_ Hnone]]).
  - assert (Hself : route ls s s [s]) by (repeat split).
    apply Hmin in Hself. destruct Hr as (Hhd & _).
    destruct p as [|x [|y r]]; simpl in *; [discriminate | congruence | lia].
  - exfalso. apply (Hnone [s]). repeat split.
Qed.

Lemma getRandomDestination_other source r :
  exists d, getRandomDestination source r = Some d /\ d <> source /\ In d nodes.
Proof.
  unfold getRandomDestination.
  set (available := filter (fun n => negb (String.eqb n source)) nodes).
  assert (Hne : available <> []).
  { assert (Hin : In "A" available \/ In "B" available).
    { unfold available. destruct (string_dec "A" source) as [<-|HA].
      - right. apply filter_In. split; [simpl; tauto | reflexivity].
      - left. apply filter_In. split; [simpl; tauto|].
        now apply negb_true_iff, String.eqb_neq. }
    intros E. rewrite E in Hin. simpl in Hin. tauto. }
  assert (Hlt : (r mod List.length available < List.length available)%nat).
  { apply Nat.mod_upper_bound. destruct available; [congruence | discriminate]. }
  apply nth_error_Some in Hlt.
  destruct (nth_error available (r mod List.length available)) as [d|] eqn:E; [|congruence].
  exists d. split; [reflexivity|].
  apply nth_error_In in E. unfold available in E. apply filter_In in E.
  destruct E as [Hin Hd]. apply negb_true_iff, String.eqb_neq in Hd. tauto.
Qed.

(** C10. On a topology whose links join listed nodes, the route from a node
    [s] to itself is the one-node sequence [s]. Whenever the route has fewer
    than two nodes, [sendPacket] returns at once with the state untouched:
    no link load, no queue, no packet record, no counter changes; so a
    packet from [s] to [s] leaves the state as it is. And the destination
    drawn for a source is always a node other than the source. *)
Theorem self_route_is_discarded :
  (forall (ns : list string) (ls : list Link) (s : string),
      wellFormed ns ls -> In s ns -> dijkstra ns ls s s = Some [s]) /\
  (forall (w : World) (source destination : string) (i : nat) (path : list string),
      dijkstra nodes (links w) source destination = Some path ->
      (List.length path < 2)%nat ->
      sendPacket source destination i w = Done tt w) /\
  (forall (w : World) (s : string) (i : nat),
      wellFormed nodes (links w) -> In s nodes ->
      sendPacket s s i w = Done tt w) /\
  (forall (source : string) (r : nat),
      exists d, getRandomDestination source r = Some d /\ d <> source /\ In d nodes).
Proof.
  assert (Hguard : forall w source destination i path,
             dijkstra nodes (links w) source destination = Some path ->
             (List.length path < 2)%nat ->
             sendPacket source destination i w = Done tt w).
  { intros w source destination i path Hp Hlen.
    unfold sendPacket, bind, getLinks. rewrite Hp.
    apply Nat.ltb_lt in Hlen. rewrite Hlen. reflexivity. }
  split; [|split; [|split]].
  - intros. now apply dijkstra_self.
  - exact Hguard.
  - intros w s i Hwf Hs. apply (Hguard w s s i [s]); [|simpl; lia].
    now apply dijkstra_self.
  - apply getRandomDestination_other.
Qed.

Lemma self_route_is_discarded_witness :
  dijkstra nodes links_init "C" "C" = Some ["C"] /\
  sendPacket "C" "C" 0 world_ready = Done tt world_ready.
Proof.
  destruct self_route_is_discarded as (H1 & _ & H3 & _). split.
  - apply H1; [exact wellFormed_init | simpl; tauto].
  - apply H3; [exact wellFormed_init | simpl; tauto].
Defined.

(* ------------------------------------------------------------------ *)
(** ** Backlog drainage                                                *)
(* ------------------------------------------------------------------ *)

Lemma drain_callback key w :
  (q <- gets (fun s => Obj.get key (queues s)) ;;
   if 0 <? orZero q then
     ls <- getLinks ;;
     match findLink key ls with
     | Some link =>
         let processable := Z.min (orZero q) (capacity link) in
         modify (fun s => set_queues
                   (Obj.set key (orZero (Obj.get key (queues s)) - processable)
                            (queues s)) s) ;;
         modify (fun s => set_totalPacketsTransmitted
                   (totalPacketsTransmitted s + processable) s)
     | None => ret tt
     end
   else ret tt) w
  = Done tt (drainKey w key).
Proof.
  unfold drainKey, queueOf. run.
  destruct (0 <? orZero _); [|reflexivity]. run.
  destruct (findLink key (links w)); reflexivity.
Qed.

Lemma processQueuedPackets_run w :
  processQueuedPackets w =
  Done tt (fold_left drainKey (Obj.keys (queues (networkState w))) w).
Proof.
  unfold processQueuedPackets, bind at 1, gets at 1.
  generalize (Obj.keys (queues (networkState w))). intros ks. revert w.
  induction ks as [|k r IH]; intros w; simpl; [reflexivity|].
  unfold bind at 1. rewrite drain_callback. apply IH.
Qed.

Lemma drainKey_frame w key :
  links (drainKey w key) = links w /\
  trafficRates (drainKey w key) = trafficRates w /\
  linkLoads (networkState (drainKey w key)) = linkLoads (networkState w) /\
  packetStats (networkState (drainKey w key)) = packetStats (networkState w) /\
  nodeStats (networkState (drainKey w key)) = nodeStats (networkState w) /\
  currentTime (networkState (drainKey w key)) = currentTime (networkState w) /\
  isRunning (networkState (drainKey w key)) = isRunning (networkState w) /\
  simulationStep (networkState (drainKey w key)) = simulationStep (networkState w) /\
  totalPacketsGenerated (networkState (drainKey w key))
  = totalPacketsGenerated (networkState w).
Proof.
  unfold drainKey. destruct (0 <? _); [|tauto].
  destruct (findLink _ _); simpl; tauto.
Qed.

Lemma drainKey_queue w key k :
  queueOf k (drainKey w key) =
  if String.eqb key k then queueOf k w - released w k else queueOf k w.
Proof.
  unfold drainKey, released.
  destruct (String.eqb key k) eqn:E.
  - apply String.eqb_eq in E. subst k.
    destruct (0 <? queueOf key w); [|lia].
    destruct (findLink key (links w)); [|lia].
    unfold queueOf at 1. simpl. now rewrite get_set_same.
  - apply String.eqb_neq in E.
    destruct (0 <? queueOf key w); [|reflexivity].
    destruct (findLink key (links w)); [|reflexivity].
    unfold queueOf at 1. simpl. now rewrite get_set_other.
Qed.

Lemma drainKey_transmitted w key :
  totalPacketsTransmitted (networkState (drainKey w key))
  = totalPacketsTransmitted (networkState w) + released w key.
Proof.
  unfold drainKey, released.
  destruct (0 <? queueOf key w); [|lia].
  destruct (findLink key (links w)); simpl; lia.
Qed.

Lemma released_same w w' k :
  links w' = links w -> queueOf k w' = queueOf k w -> released w' k = released w k.
Proof. unfold released. now intros -> ->. Qed.

Lemma drain_fold ks : forall w,
  NoDup ks ->
  let w' := fold_left drainKey ks w in
  links w' = links w /\
  (forall k, queueOf k w' = if in_dec string_dec k ks
                            then queueOf k w - released w k else queueOf k w) /\
  totalPacketsTransmitted (networkState w')
  = totalPacketsTransmitted (networkState w) + sumZ (map (released w) ks).
Proof.
  induction ks as [|a r IH]; intros w Hnd; simpl.
  - repeat split. lia.
  - inversion Hnd as [|? ? Ha Hr]; subst.
    destruct (IH (drainKey w a) Hr) as (Hl & Hq & Ht). clear IH.
    pose proof (drainKey_frame w a) as (Hl1 & _).
    assert (Hrel : forall k, In k r -> released (drainKey w a) k = released w k).
    { intros k Hk. apply released_same; [assumption|].
      rewrite drainKey_queue. destruct (String.eqb a k) eqn:E; [|reflexivity].
      apply String.eqb_eq in E. subst. contradiction. }
    split; [congruence | split].
    + intros k. rewrite Hq. rewrite drainKey_queue.
      destruct (string_dec a k) as [->|Hne].
      * rewrite String.eqb_refl. destruct (in_dec string_dec k r); [contradiction | reflexivity].
      * rewrite (proj2 (String.eqb_neq a k) Hne).
        destruct (in_dec string_dec k r) as [Hin|Hout]; [|reflexivity].
        now rewrite Hrel.
    + rewrite Ht, drainKey_transmitted.
      rewrite (map_ext_in _ _ _ Hrel). lia.
Qed.

Lemma drain_fold_frame ks : forall w,
  let w' := fold_left drainKey ks w in
  trafficRates w' = trafficRates w /\
  linkLoads (networkState w') = linkLoads (networkState w) /\
  packetStats (networkState w') = packetStats (networkState w) /\
  nodeStats (networkState w') = nodeStats (networkState w) /\
  totalPacketsGenerated (networkState w') = totalPacketsGenerated (networkState w) /\
  simulationStep (networkState w') = simulationStep (networkState w) /\
  currentTime (networkState w') = currentTime (networkState w) /\
  isRunning (networkState w') = isRunning (networkState w).
Proof.
  induction ks as [|k r IH]; intros w; simpl; [repeat split|].
  pose proof (drainKey_frame w k) as (_ & F2 & F3 & F4 & F5 & F6 & F7 & F8 & F9).
  destruct (IH (drainKey w k)) as (G2 & G3 & G4 & G5 & G6 & G7 & G8 & G9).
  repeat split; congruence.
Qed.

(** C3. [processQueuedPackets] always returns. With the queue table an
    object (no key twice), it takes [released] out of each queue and adds
    the total taken to the transmitted counter, and changes nothing else.
    For a link with a non-negative queue and capacity this amount is
    exactly min(queue, capacity): the queue stays non-negative and loses at
    most one capacity per call. Within [simulateTick] (the current slot
    having a rate table) it runs on the state cleared of the last tick's
    loads and packets, before any traffic is generated. With 150 queued on
    D-E (capacity 60) and no traffic offered, three ticks leave 90, 30 and
    0 in the queue and bring the transmitted counter to 60, 120 and 150. *)
Theorem backlog_drains_first :
  (forall w : World,
      NoDup (Obj.keys (queues (networkState w))) ->
      exists w',
        processQueuedPackets w = Done tt w' /\
        links w' = links w /\
        (trafficRates w' = trafficRates w /\
         linkLoads (networkState w') = linkLoads (networkState w) /\
         packetStats (networkState w') = packetStats (networkState w) /\
         nodeStats (networkState w') = nodeStats (networkState w) /\
         totalPacketsGenerated (networkState w') = totalPacketsGenerated (networkState w) /\
         simulationStep (networkState w') = simulationStep (networkState w) /\
         currentTime (networkState w') = currentTime (networkState w) /\
         isRunning (networkState w') = isRunning (networkState w)) /\
        (forall key, queueOf key w' = queueOf key w - released w key) /\
        totalPacketsTransmitted (networkState w')
        = totalPacketsTransmitted (networkState w)
          + sumZ (map (released w) (Obj.keys (queues (networkState w))))) /\
  (forall (w : World) (key : string) (link : Link),
      findLink key (links w) = Some link ->
      0 <= queueOf key w -> 0 <= capacity link ->
      released w key = Z.min (queueOf key w) (capacity link) /\
      0 <= queueOf key w - released w key /\
      released w key <= capacity link) /\
  (forall (rnd : string -> nat -> nat) (w : World) (currentRates : Obj.t Z),
      Obj.get (currentTime (networkState w)) (trafficRates w) = Some currentRates ->
      simulateTick rnd w
      = (processQueuedPackets ;; generateTraffic rnd currentRates) (clearTick w)) /\
  (forall r1 r2 r3 : string -> nat -> nat,
      let w1 := ticks [r1] world_backlog in
      let w2 := ticks [r1; r2] world_backlog in
      let w3 := ticks [r1; r2; r3] world_backlog in
      (queueOf "D-E" w1, totalPacketsTransmitted (networkState w1)) = (90, 60) /\
      (queueOf "D-E" w2, totalPacketsTransmitted (networkState w2)) = (30, 120) /\
      (queueOf "D-E" w3, totalPacketsTransmitted (networkState w3)) = (0, 150)).
Proof.
  split; [|split; [|split]].
  - intros w Hnd. rewrite processQueuedPackets_run. eexists. split; [reflexivity|].
    destruct (drain_fold _ w Hnd) as (Hl & Hq & Ht).
    split; [exact Hl | split; [apply drain_fold_frame | split; [|exact Ht]]].
    intros key. rewrite Hq.
    destruct (in_dec string_dec key _) as [Hin|Hout]; [reflexivity|].
    apply get_None_keys in Hout.
    unfold released, queueOf. rewrite Hout. simpl. lia.
  - intros w key link Hl Hq Hc. unfold released. rewrite Hl.
    destruct (0 <? queueOf key w) eqn:E; [lia|]. apply Z.ltb_ge in E. lia.
  - intros rnd w currentRates H. unfold simulateTick, bind at 1, getRates.
    unfold bind at 1, gets. rewrite H. reflexivity.
  - intros r1 r2 r3. vm_compute. repeat split.
Qed.

Lemma backlog_drains_first_witness :
  (exists w',
      processQueuedPackets world_backlog = Done tt w' /\
      queueOf "D-E" w' = 150 - released world_backlog "D-E") /\
  released world_backlog "D-E" = Z.min 150 60 /\
  simulateTick rnd0 world_backlog
  = (processQueuedPackets ;;
     generateTraffic rnd0 [("A", 0); ("B", 0); ("C", 0); ("D", 0); ("E", 0)])
      (clearTick world_backlog).
Proof.
  destruct backlog_drains_first as (H1 & H2 & H3 & _).
  split; [|split].
  - destruct (H1 world_backlog) as (w' & Hrun & _ & _ & Hq & _).
    + repeat constructor; simpl; intuition discriminate.
    + exists w'. split; [exact Hrun | apply Hq].
  - apply (H2 world_backlog "D-E" (mkLink "D" "E" 60)); [reflexivity | | ]; vm_compute; discriminate.
  - apply H3. reflexivity.
Defined.

(* ------------------------------------------------------------------ *)
(** ** One packet: queues grow by the congested hops                   *)
(* ------------------------------------------------------------------ *)

Lemma sumZ_set k v (o : Obj.t Z) :
  sumZ (Obj.values (Obj.set k v o)) = sumZ (Obj.values o) - orZero (Obj.get k o) + v.
Proof.
  unfold sumZ, Obj.values. induction o as [|[k1 v1] r IH]; simpl; [lia|].
  destruct (String.eqb k1 k); simpl; lia.
Qed.

Lemma Forall_values_set (P : Z -> Prop) k v (o : Obj.t Z) :
  Forall P (Obj.values o) -> P v -> Forall P (Obj.values (Obj.set k v o)).
Proof.
  intros H Hv. induction o as [|[k1 v1] r IH]; simpl.
  - repeat constructor. exact Hv.
  - inversion H; subst. destruct (String.eqb k1 k); simpl; constructor; auto.
Qed.

Lemma orZero_nonneg k (o : Obj.t Z) :
  Forall (fun v => 0 <= v) (Obj.values o) -> 0 <= orZero (Obj.get k o).
Proof.
  intros H. destruct (Obj.get k o) as [v|] eqn:E; simpl; [|lia].
  apply get_Some_In in E. rewrite Forall_forall in H. apply H.
  unfold Obj.values. change v with (snd (k, v)). now apply in_map.
Qed.

Lemma sumZ_nonneg l : Forall (fun v => 0 <= v) l -> 0 <= sumZ l.
Proof. induction 1; simpl; lia. Qed.

Lemma sameButLinkState_refl w : sameButLinkState w w.
Proof. repeat split. Qed.

Lemma sameButLinkState_trans w1 w2 w3 :
  sameButLinkState w1 w2 -> sameButLinkState w2 w3 -> sameButLinkState w1 w3.
Proof.
  unfold sameButLinkState. intros H1 H2.
  decompose [and] H1. decompose [and] H2. repeat split; congruence.
Qed.

Lemma updateLinkLoad_one key w :
  loadsWithinCapacity w -> queuesNonNegative w ->
  exists ok w',
    updateLinkLoad key 1 w = Done ok w' /\
    sameButLinkState w w' /\
    loadsWithinCapacity w' /\ queuesNonNegative w' /\
    queueTotal w' = queueTotal w + hot w key /\
    (ok = true -> hot w key = 0) /\
    (forall k, k <> key -> loadOf k w' = loadOf k w) /\
    loadOf key w' <= loadOf key w + 1.
Proof.
  intros Hload Hq. unfold hot.
  destruct (findLink key (links w)) as [link|] eqn:Hfind.
  - rewrite (updateLinkLoad_found key 1 link w Hfind).
    pose proof (Hload key link Hfind) as Hle.
    pose proof (orZero_nonneg key _ Hq) as Hqk.
    assert (Hkeep : forall v k l,
               v <= capacity link ->
               findLink k (links w) = Some l ->
               orZero (Obj.get k (Obj.set key v (linkLoads (networkState w))))
               <= capacity l).
    { intros v k l Hv Hk. rewrite (get_set (V := Z)).
      destruct (String.eqb key k) eqn:Ek.
      - apply String.eqb_eq in Ek. subst k. rewrite Hfind in Hk.
        injection Hk as <-. exact Hv.
      - apply (Hload k l Hk). }
    unfold loadOf, queueOf in *.
    destruct (capacity link <? _) eqn:E.
    + apply Z.ltb_lt in E.
      eexists _, _. split; [reflexivity|].
      split; [repeat split|]. split; [|split; [|split; [|split; [|split]]]].
      * intros k l Hk. unfold loadOf; simpl. apply Hkeep; [lia | exact Hk].
      * unfold queuesNonNegative; simpl. apply Forall_values_set; [exact Hq | lia].
      * unfold queueTotal; simpl. rewrite sumZ_set. lia.
      * discriminate.
      * intros k Hk. simpl. now rewrite get_set_other by congruence.
      * simpl. rewrite get_set_same. simpl. lia.
    + apply Z.ltb_ge in E.
      eexists _, _. split; [reflexivity|].
      split; [repeat split|]. split; [|split; [|split; [|split; [|split]]]].
      * intros k l Hk. unfold loadOf; simpl. apply Hkeep; [lia | exact Hk].
      * exact Hq.
      * unfold queueTotal; simpl. lia.
      * reflexivity.
      * intros k Hk. simpl. now rewrite get_set_other by congruence.
      * simpl. rewrite get_set_same. simpl. lia.
  - rewrite (updateLinkLoad_missing key 1 w Hfind).
    exists false, w. split; [reflexivity|].
    split; [apply sameButLinkState_refl|].
    repeat split; auto; try lia.
Qed.

Lemma hot_same w w' k :
  links w' = links w -> loadOf k w' = loadOf k w -> hot w' k = hot w k.
Proof. unfold hot. now intros -> ->. Qed.

Lemma transmit_spec path : forall packetRoute ok w,
  loadsWithinCapacity w -> queuesNonNegative w -> NoDup (keysOf path) ->
  exists route' ok' w',
    transmit path packetRoute ok w = Done (route', ok') w' /\
    sameButLinkState w w' /\
    loadsWithinCapacity w' /\ queuesNonNegative w' /\
    queueTotal w' = queueTotal w + hotCount w (keysOf path) /\
    (ok' = true -> ok = true /\ hotCount w (keysOf path) = 0) /\
    (forall k, loadOf k w' <= loadOf k w + (if in_dec string_dec k (keysOf path) then 1 else 0)).
Proof.
  induction path as [|a rest IH]; intros packetRoute ok w Hload Hq Hnd.
  - simpl. eexists _, _, _. split; [reflexivity|].
    split; [apply sameButLinkState_refl|]. unfold hotCount. simpl.
    repeat split; auto; try lia.
  - destruct rest as [|b rest'].
    + simpl. eexists _, _, _. split; [reflexivity|].
      split; [apply sameButLinkState_refl|]. unfold hotCount. simpl.
      repeat split; auto; try lia.
    + change (keysOf (a :: b :: rest')) with (linkKey a b :: keysOf (b :: rest')) in *.
      inversion Hnd as [|? ? Hout Hnd']; subst.
      change (transmit (a :: b :: rest') packetRoute ok w)
        with ((transmitted <- updateLinkLoad (linkKey a b) 1 ;;
               transmit (b :: rest') (packetRoute ++ [mkHop a b transmitted (linkKey a b)])
                        (if transmitted then ok else false)) w).
      unfold bind.
      destruct (updateLinkLoad_one (linkKey a b) w Hload Hq)
        as (t & w1 & -> & Hsame1 & Hload1 & Hq1 & Hqt1 & Hok1 & Hother1 & Hkey1).
      destruct (IH (packetRoute ++ [mkHop a b t (linkKey a b)])
                   (if t then ok else false) w1 Hload1 Hq1 Hnd')
        as (route' & ok' & w' & -> & Hsame & Hload' & Hq' & Hqt & Hok & Hloads).
      assert (Hhots : hotCount w1 (keysOf (b :: rest')) = hotCount w (keysOf (b :: rest'))).
      { unfold hotCount. f_equal. apply map_ext_in. intros k Hk.
        apply hot_same; [apply Hsame1|]. apply Hother1. intros ->. contradiction. }
      assert (Hcons : hotCount w (linkKey a b :: keysOf (b :: rest'))
                      = hot w (linkKey a b) + hotCount w (keysOf (b :: rest')))
        by reflexivity.
      exists route', ok', w'. split; [reflexivity|].
      split; [eapply sameButLinkState_trans; eassumption|].
      split; [exact Hload'|]. split; [exact Hq'|].
      rewrite Hcons. split; [lia|]. split.
      * intros Hok'. destruct (Hok Hok') as [Ht Hz].
        destruct t; [|discriminate]. rewrite (Hok1 eq_refl). split; [exact Ht | lia].
      * intros k. specialize (Hloads k).
        destruct (in_dec string_dec k (linkKey a b :: keysOf (b :: rest'))) as [Hin|Hnin].
        -- destruct (string_dec (linkKey a b) k) as [<-|Hne].
           ++ destruct (in_dec string_dec (linkKey a b) (keysOf (b :: rest')));
                [contradiction | lia].
           ++ rewrite (Hother1 k) in Hloads by congruence.
              destruct (in_dec string_dec k (keysOf (b :: rest'))); lia.
        -- assert (Hne : k <> linkKey a b) by (intros ->; apply Hnin; now left).
           rewrite (Hother1 k Hne) in Hloads.
           destruct (in_dec string_dec k (keysOf (b :: rest'))) as [Hin|_]; [|lia].
           exfalso. apply Hnin. now right.
Qed.

Lemma sendPacket_spec source destination i path w :
  dijkstra nodes (links w) source destination = Some path ->
  loadsWithinCapacity w -> queuesNonNegative w -> nodeStatsComplete w ->
  In destination nodes ->
  NoDup (keysOf path) -> hotCount w (keysOf path) <= 1 ->
  exists w',
    sendPacket source destination i w = Done tt w' /\
    links w' = links w /\
    loadsWithinCapacity w' /\ queuesNonNegative w' /\ nodeStatsComplete w' /\
    potential w' <= potential w + 1 /\
    sameConfig w w' /\
    (forall k, loadOf k w' <= loadOf k w + (if in_dec string_dec k (keysOf path) then 1 else 0)).
Proof.
  intros Hpath Hload Hq Hstats Hdest Hnd Hhot.
  unfold sendPacket, bind at 1, getLinks. rewrite Hpath.
  destruct (List.length path <? 2)%nat.
  - exists w. split; [reflexivity|]. repeat split; auto; try lia.
    intros k. destruct (in_dec string_dec k (keysOf path)); lia.
  - destruct (transmit_spec path [] true w Hload Hq Hnd)
      as (route' & ok' & w1 & Hrun & Hsame & Hload1 & Hq1 & Hqt & Hok & Hloads).
    unfold bind at 1. rewrite Hrun.
    destruct Hsame as (Hl & Hr & Hns & Hps & Htr & Hgen & Hstep & Hnow & Hrun').
    destruct ok'.
    + destruct (Hok eq_refl) as [_ Hzero].
      destruct (Obj.get destination (nodeStats (networkState w1))) as [ns|] eqn:Ens.
      2:{ exfalso. apply (Hstats destination Hdest). now rewrite <- Hns. }
      run. rewrite Ens. run.
      eexists. split; [reflexivity|]. simpl.
      split; [exact Hl|]. split; [exact Hload1|]. split; [exact Hq1|].
      split; [|split; [|split]].
      * intros n Hn. unfold nodeStatsComplete in Hstats. simpl.
        rewrite (get_set (V := NodeStat)). destruct (String.eqb destination n); [discriminate|].
        rewrite Hns. now apply Hstats.
      * unfold potential, queueTotal in *. simpl. lia.
      * repeat split; simpl; assumption.
      * exact Hloads.
    + run.
      eexists. split; [reflexivity|]. simpl.
      split; [exact Hl|]. split; [exact Hload1|]. split; [exact Hq1|].
      split; [|split; [|split]].
      * intros n Hn. simpl. rewrite Hns. now apply Hstats.
      * unfold potential, queueTotal in *. simpl. lia.
      * repeat split; simpl; assumption.
      * exact Hloads.
Qed.

(* ------------------------------------------------------------------ *)
(** ** A tick in the default configuration                             *)
(* ------------------------------------------------------------------ *)

Ltac split_ltb :=
  repeat match goal with
         | |- context [?a <? ?b] => destruct (Z.ltb_spec a b)
         end.

(** The load of [k] after a packet over [p]: one more at most, and the
    same when [k] is not on the route. *)
Ltac bound_load Hbound k p :=
  let H := fresh "Hb" in
  let Hi := fresh "Hi" in
  pose proof (Hbound k) as H;
  destruct (in_dec string_dec k (keysOf p)) as [Hi|Hi];
  [ try (exfalso; simpl in Hi; clear - Hi; intuition discriminate)
  | try (exfalso; apply Hi; simpl; clear; tauto) ].

(** One packet over a known route: at most one of its links is full. *)
Ltac one_packet source dest i p w Hinv Hloads :=
  let Hl := fresh "Hl" in
  let w' := fresh "w" in
  let Hbound := fresh "Hbound" in
  destruct Hinv as (Hl & ? & ? & ?);
  destruct (sendPacket_spec source dest i p w) as (w' & -> & ? & ? & ? & ? & ? & ? & Hbound);
  [ rewrite Hl; reflexivity | assumption | assumption | assumption
  | simpl; tauto
  | simpl; repeat (apply NoDup_cons; [simpl; intuition discriminate|]); apply NoDup_nil
  | unfold hotCount, hot, sumZ, tickLoads, loadOf in *; rewrite Hl; simpl;
    cbn [linkKey append] in *; split_ltb; lia
  | exists w';
    split; [reflexivity|];
    split; [repeat split; try assumption; congruence|];
    split; [|split; [lia | assumption]];
    unfold tickLoads in *;
    bound_load Hbound "A-B" p; bound_load Hbound "A-C" p; bound_load Hbound "D-E" p;
    lia ].

Lemma packetStep_default rnd source i m w :
  loopInv w -> tickLoads w m -> sends source m ->
  exists w',
    packetStep rnd source i w = Done tt w' /\
    loopInv w' /\ tickLoads w' (m + 1) /\
    potential w' <= potential w + 1 /\
    sameConfig w w'.
Proof.
  intros Hinv Hloads Hsrc. unfold packetStep.
  destruct (getRandomDestination_other source (rnd source i)) as (d & -> & Hne & Hd).
  destruct Hsrc as [[-> Hm] | [[-> Hm] | [[-> | [-> | ->]] Hm]]];
    destruct Hd as [<-|[<-|[<-|[<-|[<-|[]]]]]]; try congruence.
  - one_packet "A" "B" i ["A"; "B"] w Hinv Hloads.
  - one_packet "A" "C" i ["A"; "C"] w Hinv Hloads.
  - one_packet "A" "D" i ["A"; "B"; "D"] w Hinv Hloads.
  - one_packet "A" "E" i ["A"; "C"; "E"] w Hinv Hloads.
  - one_packet "B" "A" i ["B"; "A"] w Hinv Hloads.
  - one_packet "B" "C" i ["B"; "A"; "C"] w Hinv Hloads.
  - one_packet "B" "D" i ["B"; "D"] w Hinv Hloads.
  - one_packet "B" "E" i ["B"; "D"; "E"] w Hinv Hloads.
  - one_packet "C" "A" i ["C"; "A"] w Hinv Hloads.
  - one_packet "C" "B" i ["C"; "A"; "B"] w Hinv Hloads.
  - one_packet "C" "D" i ["C"; "D"] w Hinv Hloads.
  - one_packet "C" "E" i ["C"; "E"] w Hinv Hloads.
  - one_packet "D" "A" i ["D"; "B"; "A"] w Hinv Hloads.
  - one_packet "D" "B" i ["D"; "B"] w Hinv Hloads.
  - one_packet "D" "C" i ["D"; "C"] w Hinv Hloads.
  - one_packet "D" "E" i ["D"; "E"] w Hinv Hloads.
  - one_packet "E" "A" i ["E"; "C"; "A"] w Hinv Hloads.
  - one_packet "E" "B" i ["E"; "D"; "B"] w Hinv Hloads.
  - one_packet "E" "C" i ["E"; "C"] w Hinv Hloads.
  - one_packet "E" "D" i ["E"; "D"] w Hinv Hloads.
Qed.

Lemma sameConfig_trans w1 w2 w3 :
  sameConfig w1 w2 -> sameConfig w2 w3 -> sameConfig w1 w3.
Proof. unfold sameConfig. intuition congruence. Qed.

Lemma packetLoop_default rnd source : forall n i m w,
  loopInv w -> tickLoads w m ->
  (forall j, 0 <= j < Z.of_nat n -> sends source (m + j)) ->
  exists w',
    packetLoop rnd source n i w = Done tt w' /\
    loopInv w' /\ tickLoads w' (m + Z.of_nat n) /\
    potential w' <= potential w + Z.of_nat n /\
    sameConfig w w'.
Proof.
  induction n as [|n IH]; intros i m w Hinv Hloads Hsrc.
  - exists w. simpl. rewrite Z.add_0_r.
    split; [reflexivity | split; [exact Hinv | split; [exact Hloads | split; [lia|]]]].
    repeat split.
  - change (packetLoop rnd source (S n) i w)
      with ((packetStep rnd source i ;; packetLoop rnd source n (S i)) w).
    unfold bind.
    destruct (packetStep_default rnd source i m w Hinv Hloads)
      as (w1 & -> & Hinv1 & Hloads1 & Hpot1 & Hcfg1).
    { replace m with (m + 0) by lia. apply Hsrc. lia. }
    destruct (IH (S i) (m + 1) w1 Hinv1 Hloads1) as (w' & -> & Hinv' & Hloads' & Hpot' & Hcfg').
    { intros j Hj. replace (m + 1 + j) with (m + (j + 1)) by lia. apply Hsrc. lia. }
    exists w'. split; [reflexivity|]. split; [exact Hinv'|].
    split; [|split; [lia | eapply sameConfig_trans; eassumption]].
    replace (m + Z.of_nat (S n)) with (m + 1 + Z.of_nat n) by lia. exact Hloads'.
Qed.

Lemma sourceStep_default rnd t source rate m w :
  loopInv w -> tickLoads w m -> 0 <= rate -> In source nodes ->
  (forall j, 0 <= j < rate -> sends source (m + j)) ->
  exists w',
    sourceStep rnd t (source, rate) w = Done (t + rate) w' /\
    loopInv w' /\ tickLoads w' (m + rate) /\
    potential w' <= potential w + rate /\
    sameConfig w w'.
Proof.
  intros Hinv Hloads Hrate Hsource Hsrc.
  destruct Hinv as (Hl & Hload & Hq & Hstats).
  unfold sourceStep, bind at 1, gets.
  destruct (Obj.get source (nodeStats (networkState w))) as [ns|] eqn:Ens;
    [|destruct (Hstats source Hsource Ens)].
  unfold bind at 1, modify. unfold bind at 1.
  set (w1 := mkWorld _ (links w) (trafficRates w)).
  destruct (packetLoop_default rnd source (Z.to_nat rate) 0 m w1)
    as (w' & -> & Hinv' & Hloads' & Hpot' & Hcfg').
  - split; [exact Hl|]. split; [exact Hload|]. split; [exact Hq|].
    intros n Hn. unfold w1; simpl. rewrite (get_set (V := NodeStat)).
    destruct (String.eqb source n); [discriminate | now apply Hstats].
  - exact Hloads.
  - intros j Hj. apply Hsrc. lia.
  - rewrite Z2Nat.id in * by lia.
    exists w'. split; [reflexivity|]. split; [exact Hinv'|]. split; [exact Hloads'|].
    split; [exact Hpot' | exact Hcfg'].
Qed.

Lemma drainKey_inv w key :
  queuesNonNegative w ->
  queuesNonNegative (drainKey w key) /\ potential (drainKey w key) = potential w.
Proof.
  intros Hq. pose proof (orZero_nonneg key _ Hq) as Hqk.
  unfold drainKey, queueOf in *.
  destruct (0 <? _) eqn:E; [|tauto]. apply Z.ltb_lt in E.
  destruct (findLink key (links w)) as [link|]; [|tauto].
  split.
  - unfold queuesNonNegative; simpl. apply Forall_values_set; [exact Hq | lia].
  - unfold potential, queueTotal; simpl. rewrite sumZ_set. lia.
Qed.

Lemma drain_fold_inv ks : forall w,
  queuesNonNegative w ->
  let w' := fold_left drainKey ks w in
  queuesNonNegative w' /\ potential w' = potential w /\
  links w' = links w /\ sameConfig w w' /\
  linkLoads (networkState w') = linkLoads (networkState w) /\
  nodeStats (networkState w') = nodeStats (networkState w).
Proof.
  induction ks as [|k r IH]; intros w Hq; simpl.
  - repeat split; auto.
  - destruct (drainKey_inv w k Hq) as [Hq1 Hp1].
    destruct (IH (drainKey w k) Hq1) as (Hq' & Hp' & Hl' & (Hr' & Hn' & Hg') & Hll' & Hns').
    pose proof (drainKey_frame w k) as (F1 & F2 & F3 & _ & F5 & F6 & _ & _ & F9).
    repeat split; try congruence.
Qed.

Lemma simulateTick_run rnd w currentRates :
  Obj.get (currentTime (networkState w)) (trafficRates w) = Some currentRates ->
  simulateTick rnd w
  = (processQueuedPackets ;; generateTraffic rnd currentRates) (clearTick w).
Proof.
  intros H. unfold simulateTick, bind at 1, getRates.
  unfold bind at 1, gets. rewrite H. reflexivity.
Qed.

Lemma capacities_init_positive key link :
  findLink key links_init = Some link -> 0 < capacity link.
Proof.
  intros H. apply find_some in H. destruct H as [H _].
  destruct H as [<-|[<-|[<-|[<-|[<-|[<-|[]]]]]]]; simpl; lia.
Qed.

(** In the default configuration a tick returns normally and keeps the
    invariant: whatever the draws, every packet adds at most one unit to
    what is transmitted or queued. *)
Lemma tick_default rnd w :
  tickInv w -> exists w', simulateTick rnd w = Done tt w' /\ tickInv w'.
Proof.
  intros (Hl & Hr & Hnow & Hq & Hstats & Hpot).
  rewrite (simulateTick_run rnd w [("A", 50); ("B", 30); ("C", 40); ("D", 20); ("E", 60)])
    by (rewrite Hr, Hnow; reflexivity).
  unfold bind at 1. rewrite processQueuedPackets_run.
  set (ks := Obj.keys (queues (networkState (clearTick w)))).
  destruct (drain_fold_inv ks (clearTick w) Hq)
    as (Hq1 & Hp1 & Hl1 & (Hr1 & Hn1 & Hg1) & Hll1 & Hns1).
  set (w1 := fold_left drainKey ks (clearTick w)) in *.
  simpl in Hl1, Hr1, Hn1, Hg1, Hll1, Hns1.
  assert (Hzero : forall k, loadOf k w1 = 0).
  { intros k. unfold loadOf. now rewrite Hll1. }
  assert (Hinv1 : loopInv w1).
  { split; [congruence|]. split; [|split; [exact Hq1|]].
    - intros key link Hk. rewrite Hzero. rewrite Hl1, Hl in Hk.
      apply capacities_init_positive in Hk. lia.
    - intros n Hn. rewrite Hns1. now apply Hstats. }
  assert (Hloads1 : tickLoads w1 0).
  { unfold tickLoads. rewrite !Hzero. lia. }
  unfold generateTraffic, bind at 1, Obj.entries.
  cbn [sourceLoop]. unfold bind at 1.
  destruct (sourceStep_default rnd 0 "A" 50 0 w1 Hinv1 Hloads1)
    as (wA & -> & HinvA & HloadsA & HpotA & HcfgA);
    [lia | simpl; tauto | intros j Hj; unfold sends; left; split; [reflexivity | lia] |].
  unfold bind at 1.
  destruct (sourceStep_default rnd (0 + 50) "B" 30 (0 + 50) wA HinvA HloadsA)
    as (wB & -> & HinvB & HloadsB & HpotB & HcfgB);
    [lia | simpl; tauto
     | intros j Hj; unfold sends; right; left; split; [reflexivity | lia] |].
  unfold bind at 1.
  destruct (sourceStep_default rnd (0 + 50 + 30) "C" 40 (0 + 50 + 30) wB HinvB HloadsB)
    as (wC & -> & HinvC & HloadsC & HpotC & HcfgC);
    [lia | simpl; tauto
     | intros j Hj; unfold sends; right; right; split; [tauto | lia] |].
  unfold bind at 1.
  destruct (sourceStep_default rnd (0 + 50 + 30 + 40) "D" 20 (0 + 50 + 30 + 40) wC HinvC HloadsC)
    as (wD & -> & HinvD & HloadsD & HpotD & HcfgD);
    [lia | simpl; tauto
     | intros j Hj; unfold sends; right; right; split; [tauto | lia] |].
  unfold bind at 1.
  destruct (sourceStep_default rnd (0 + 50 + 30 + 40 + 20) "E" 60 (0 + 50 + 30 + 40 + 20)
                               wD HinvD HloadsD)
    as (wE & -> & HinvE & HloadsE & HpotE & HcfgE);
    [lia | simpl; tauto
     | intros j Hj; unfold sends; right; right; split; [tauto | lia] |].
  run. eexists. split; [reflexivity|].
  destruct HinvE as (HlE & _ & HqE & HstatsE).
  assert (Hcfg : sameConfig w1 wE).
  { repeat (eapply sameConfig_trans; [eassumption|]). repeat split. }
  destruct Hcfg as (HrE & HnE & HgE).
  split; [exact HlE|]. simpl.
  split; [congruence|]. split; [congruence|]. split; [exact HqE|].
  split; [exact HstatsE|].
  unfold potential, queueTotal in *. simpl in *. lia.
Qed.

Lemma tick_boot rnd w : bootInv w -> bootInv (after (simulateTick rnd) w).
Proof.
  intros (Hr & Hnow & Hns & Hq & Hg & Ht).
  unfold after.
  rewrite (simulateTick_run rnd w [("A", 50); ("B", 30); ("C", 40); ("D", 20); ("E", 60)])
    by (rewrite Hr, Hnow; reflexivity).
  unfold bind at 1. rewrite processQueuedPackets_run.
  change (queues (networkState (clearTick w))) with (queues (networkState w)).
  rewrite Hq. cbn [Obj.keys map fold_left].
  unfold generateTraffic, bind at 1, Obj.entries. cbn [sourceLoop].
  unfold bind at 1, sourceStep, bind at 1, gets.
  change (nodeStats (networkState (clearTick w))) with (nodeStats (networkState w)).
  rewrite Hns. simpl. repeat split; assumption.
Qed.

Lemma tickInv_ready : tickInv world_ready.
Proof.
  repeat split; try (vm_compute; discriminate).
  - repeat constructor; simpl; lia.
  - intros n [<-|[<-|[<-|[<-|[<-|[]]]]]]; discriminate.
Qed.

Lemma ticks_default draws : forall w, tickInv w -> tickInv (ticks draws w).
Proof.
  induction draws as [|rnd r IH]; intros w H; [exact H|].
  change (ticks (rnd :: r) w) with (ticks r (after (simulateTick rnd) w)).
  apply IH. destruct (tick_default rnd w H) as (w' & E & H').
  unfold after. rewrite E. exact H'.
Qed.

Lemma ticks_boot draws : forall w, bootInv w -> bootInv (ticks draws w).
Proof.
  induction draws as [|rnd r IH]; intros w H; [exact H|].
  change (ticks (rnd :: r) w) with (ticks r (after (simulateTick rnd) w)).
  apply IH. now apply tick_boot.
Qed.

(** C1. From the start-up state (after [initializeNetwork], as app.js
    leaves it), for every sequence of ticks and every outcome of the random
    draws, each tick returns normally and the transmitted counter stays at
    or below the generated counter. The same bound holds from the state of
    the freshly loaded module, before [initializeNetwork], where every tick
    stops at the first missing node record. *)
Theorem transmitted_never_exceeds_generated :
  forall (draws : list (string -> nat -> nat)) (rnd : string -> nat -> nat),
    (exists w', simulateTick rnd (ticks draws world_ready) = Done tt w') /\
    totalPacketsTransmitted (networkState (ticks draws world_ready))
    <= totalPacketsGenerated (networkState (ticks draws world_ready)) /\
    totalPacketsTransmitted (networkState (ticks draws world_init))
    <= totalPacketsGenerated (networkState (ticks draws world_init)).
Proof.
  intros draws rnd.
  pose proof (ticks_default draws world_ready tickInv_ready) as Hinv.
  split; [|split].
  - destruct (tick_default rnd _ Hinv) as (w' & E & _). eauto.
  - destruct Hinv as (_ & _ & _ & Hq & _ & Hpot).
    pose proof (sumZ_nonneg _ Hq) as Hnn.
    unfold potential, queueTotal in Hpot. lia.
  - assert (Hboot : bootInv world_init) by (repeat split).
    apply (ticks_boot draws) in Hboot.
    destruct Hboot as (_ & _ & _ & _ & -> & ->). lia.
Qed.

(** Outside the default configuration the bound can fail: a packet that
    meets two full links is queued on both, and both queues later count
    towards the transmitted total. With links B-D and D-E at capacity 2
    and B sending 3 packets a tick to E, three ticks give 10 transmitted
    for 9 generated. *)
Remark narrow_links_overcount :
  let w := ticks [rnd3; rnd3; rnd3] world_narrow in
  totalPacketsGenerated (networkState w) = 9 /\
  totalPacketsTransmitted (networkState w) = 10.
Proof. vm_compute. split; reflexivity. Qed.

(* ================================================================== *)
(** * Further properties of the router                                 *)
(* ================================================================== *)














Lemma push_edge_keys a b g g' n :
  push_edge a b g = Some g' -> (Obj.get n g' = None <-> Obj.get n g = None).
Proof.
  unfold push_edge. destruct (Obj.get a g) as [es|] eqn:E; [|discriminate].
  intros [= <-]. rewrite (get_set (V := list Edge)).
  destruct (String.eqb a n) eqn:En; [|tauto].
  apply String.eqb_eq in En. subst. rewrite E. split; discriminate.
Qed.

Lemma addLinks_bad ns r : forall g,
  (forall n, Obj.get n g = None <-> ~ In n ns) ->
  (exists l, In l r /\ (~ In (from l) ns \/ ~ In (to l) ns)) ->
  addLinks r g = None.
Proof.
  induction r as [|l r IH]; intros g Hg (l0 & Hin & Hbad); [destruct Hin|].
  simpl. destruct (push_edge (from l) (to l) g) as [g1|] eqn:E1; [|reflexivity].
  destruct (push_edge (to l) (from l) g1) as [g2|] eqn:E2; [|reflexivity].
  assert (Hg2 : forall n, Obj.get n g2 = None <-> ~ In n ns).
  { intros n. rewrite (push_edge_keys _ _ _ _ n E2), (push_edge_keys _ _ _ _ n E1). apply Hg. }
  destruct Hin as [<-|Hin].
  - exfalso. unfold push_edge in E1, E2.
    destruct (Obj.get (from l) g) eqn:F1; [|discriminate].
    destruct (Obj.get (to l) g1) eqn:F2; [|discriminate].
    assert (Hf : In (from l) ns).
    { destruct (in_dec string_dec (from l) ns) as [H|H]; [exact H|].
      apply Hg in H. congruence. }
    assert (Ht : In (to l) ns).
    { destruct (in_dec string_dec (to l) ns) as [H|H]; [exact H|].
      apply Hg in H. apply (push_edge_keys (from l) (to l) g g1) in H.
      - congruence.
      - unfold push_edge. now rewrite F1. }
    tauto.
  - apply IH; [exact Hg2 | eauto].
Qed.

(** X5. A link with an endpoint outside the node list makes every call
    fail: building the adjacency lists hits [graph[x]] undefined before
    any search starts, whatever the source and destination. *)
Theorem dijkstra_dangling_link :
  forall (ns : list string) (ls : list Link) (start end_ : string) (l : Link),
    In l ls -> ~ In (from l) ns \/ ~ In (to l) ns ->
    dijkstra ns ls start end_ = None.
Proof.
  intros ns ls start end_ l Hl Hbad. unfold dijkstra.
  rewrite (addLinks_bad ns ls (emptyGraph ns)); [reflexivity | | eauto].
  intros n. unfold emptyGraph. rewrite emptyGraph_fold.
  destruct (in_dec string_dec n ns); simpl; [split; [discriminate | tauto] | tauto].
Qed.

Lemma dijkstra_dangling_link_witness :
  dijkstra nodes (mkLink "A" "F" 10 :: links_init) "A" "B" = None.
Proof.
  apply (dijkstra_dangling_link nodes _ "A" "B" (mkLink "A" "F" 10)).
  - now left.
  - right. simpl. intuition discriminate.
Defined.

Lemma addLinks_endpoints ls : forall ls' g,
  map (fun l => (from l, to l)) ls = map (fun l => (from l, to l)) ls' ->
  addLinks ls g = addLinks ls' g.
Proof.
  induction ls as [|l r IH]; intros [|l' r'] g H; try discriminate; [reflexivity|].
  simpl in H. injection H as Hf Ht Hr. simpl. rewrite Hf, Ht.
  destruct (push_edge (from l') (to l') g) as [g1|]; [|reflexivity].
  destruct (push_edge (to l') (from l') g1) as [g2|]; [|reflexivity].
  now apply IH.
Qed.

(** X6. Routing looks at the endpoints of the links only: two link lists
    with the same endpoints in the same order give the same result, so no
    call of [updateLinkCapacity], whatever its arguments, changes any
    path. *)
Theorem dijkstra_ignores_capacity :
  (forall (ns : list string) (ls ls' : list Link) (start end_ : string),
      map (fun l => (from l, to l)) ls = map (fun l => (from l, to l)) ls' ->
      dijkstra ns ls start end_ = dijkstra ns ls' start end_) /\
  (forall (w : World) (a b : string) (newCapacity : Z) (start end_ : string),
      dijkstra nodes (links (after (updateLinkCapacity a b newCapacity) w)) start end_
      = dijkstra nodes (links w) start end_).
Proof.
  assert (H : forall ns ls ls' start end_,
             map (fun l => (from l, to l)) ls = map (fun l => (from l, to l)) ls' ->
             dijkstra ns ls start end_ = dijkstra ns ls' start end_).
  { intros ns ls ls' start end_ E. unfold dijkstra.
    now rewrite (addLinks_endpoints ls ls' _ E). }
  split; [exact H|].
  intros w a b c start end_. apply H.
  unfold after, updateLinkCapacity, bind, getLinks.
  destruct (find (joins a b) (links w)); [|reflexivity].
  simpl. apply setCapacity_endpoints.
Qed.

Lemma dijkstra_ignores_capacity_witness :
  dijkstra nodes [mkLink "A" "B" 0; mkLink "B" "C" (-3)] "A" "C"
  = dijkstra nodes [mkLink "A" "B" 7; mkLink "B" "C" 9] "A" "C".
Proof.
  apply (proj1 dijkstra_ignores_capacity). reflexivity.
Defined.





(* ================================================================== *)
(** * Further properties of the engine                                 *)
(* ================================================================== *)

(** ** The tick as a composition of four effects *)

Lemma updateLinkLoad_run key packets w :
  updateLinkLoad key packets w
  = Done (fst (charge key packets w)) (snd (charge key packets w)).
Proof.
  unfold charge. destruct (findLink key (links w)) as [link|] eqn:E.
  - rewrite (updateLinkLoad_found key packets link w E).
    destruct (capacity link <? _); reflexivity.
  - now rewrite (updateLinkLoad_missing key packets w E).
Qed.

Lemma transmit_run path : forall packetRoute ok w,
  transmit path packetRoute ok w
  = Done (packetRoute ++ fst (travel path w),
          ok && forallb hop_transmitted (fst (travel path w)))
         (snd (travel path w)).
Proof.
  induction path as [|a rest IH]; intros packetRoute ok w.
  - simpl. unfold ret. now rewrite app_nil_r, andb_true_r.
  - destruct rest as [|b rest'].
    + simpl. unfold ret. now rewrite app_nil_r, andb_true_r.
    + change (transmit (a :: b :: rest') packetRoute ok w)
        with ((transmitted <- updateLinkLoad (linkKey a b) 1 ;;
               transmit (b :: rest') (packetRoute ++ [mkHop a b transmitted (linkKey a b)])
                        (if transmitted then ok else false)) w).
      unfold bind. rewrite updateLinkLoad_run, IH.
      change (travel (a :: b :: rest') w)
        with (mkHop a b (fst (charge (linkKey a b) 1 w)) (linkKey a b)
                :: fst (travel (b :: rest') (snd (charge (linkKey a b) 1 w))),
              snd (travel (b :: rest') (snd (charge (linkKey a b) 1 w)))).
      cbn [fst snd forallb hop_transmitted]. rewrite <- app_assoc. simpl.
      destruct (fst (charge (linkKey a b) 1 w)), ok; reflexivity.
Qed.

Lemma charge_frame key packets w : sameButLinkState w (snd (charge key packets w)).
Proof.
  unfold charge. destruct (findLink key (links w)); [|apply sameButLinkState_refl].
  destruct (capacity l <? _); repeat split.
Qed.

Lemma travel_frame path : forall w, sameButLinkState w (snd (travel path w)).
Proof.
  induction path as [|a [|b rest] IH]; intros w; try apply sameButLinkState_refl.
  change (sameButLinkState w (snd (travel (b :: rest) (snd (charge (linkKey a b) 1 w))))).
  eapply sameButLinkState_trans; [apply charge_frame | apply IH].
Qed.

(** What a call of [sendPacket] that returns has done. *)
Lemma sendPacket_cases s d i w w' :
  sendPacket s d i w = Done tt w' ->
  exists path,
    dijkstra nodes (links w) s d = Some path /\
    (((List.length path < 2)%nat /\ w' = w) \/
     ((2 <= List.length path)%nat /\
      ((pkt_transmitted (packetOf s d i path w) = false /\
        w' = recordPacket (packetOf s d i path w) (snd (travel path w))) \/
       (pkt_transmitted (packetOf s d i path w) = true /\
        exists ns,
          Obj.get d (nodeStats (networkState w)) = Some ns /\
          w' = credit d ns (recordPacket (packetOf s d i path w) (snd (travel path w))))))).
Proof.
  unfold sendPacket, bind at 1, getLinks.
  destruct (dijkstra nodes (links w) s d) as [path|]; [|discriminate].
  intros H. exists path. split; [reflexivity|].
  destruct (List.length path <? 2)%nat eqn:E.
  - left. apply Nat.ltb_lt in E. split; [exact E|]. unfold ret in H. congruence.
  - right. apply Nat.ltb_ge in E. split; [exact E|].
    unfold bind at 1 in H. rewrite transmit_run in H. cbn [andb app] in H.
    pose proof (travel_frame path w) as (_ & _ & Hns & _ & _ & _ & Hstep & _).
    unfold packetOf. cbn [pkt_transmitted].
    destruct (forallb hop_transmitted (fst (travel path w))) eqn:Eok.
    + right. split; [reflexivity|].
      revert H. run. rewrite Hns, Hstep.
      destruct (Obj.get d (nodeStats (networkState w))) as [ns|]; [|discriminate].
      intros [= <-]. exists ns. split; reflexivity.
    + left. split; [reflexivity|].
      revert H. run. rewrite Hstep. intros [= <-]. reflexivity.
Qed.

Lemma sendPacket_total s d i w :
  nodeStatsComplete w -> wellFormed nodes (links w) -> In s nodes -> In d nodes ->
  exists w', sendPacket s d i w = Done tt w'.
Proof.
  intros Hstats Hwf Hs Hd.
  destruct (dijkstra_correct nodes (links w) s d Hwf Hs Hd) as (path & Hp & _).
  unfold sendPacket, bind at 1, getLinks. rewrite Hp.
  destruct (List.length path <? 2)%nat; [eexists; reflexivity|].
  unfold bind at 1. rewrite transmit_run. cbn [andb app].
  pose proof (travel_frame path w) as (_ & _ & Hns & _).
  destruct (forallb hop_transmitted (fst (travel path w))).
  - run. rewrite Hns.
    destruct (Obj.get d (nodeStats (networkState w))) as [ns|] eqn:E;
      [|destruct (Hstats d Hd E)].
    eexists. reflexivity.
  - run. eexists. reflexivity.
Qed.

Lemma credit_complete d ns w : nodeStatsComplete w -> nodeStatsComplete (credit d ns w).
Proof.
  intros H n Hn. simpl. rewrite (get_set (V := NodeStat)).
  destruct (String.eqb d n); [discriminate | now apply H].
Qed.

Lemma openSource_complete s r ns w :
  nodeStatsComplete w -> nodeStatsComplete (openSource s r ns w).
Proof.
  intros H n Hn. simpl. rewrite (get_set (V := NodeStat)).
  destruct (String.eqb s n); [discriminate | now apply H].
Qed.

Lemma sendPacket_routable s d i w w' :
  sendPacket s d i w = Done tt w' -> routable w -> routable w'.
Proof.
  intros H [Hstats Hwf].
  destruct (sendPacket_cases s d i w w' H) as (path & _ & [[_ ->]|[_ Hc]]); [now split|].
  pose proof (travel_frame path w) as (Hl & _ & Hns & _).
  assert (Hstats1 : nodeStatsComplete (snd (travel path w))).
  { intros n Hn. rewrite Hns. now apply Hstats. }
  destruct Hc as [[_ ->]|(_ & ns & _ & ->)].
  - split; [exact Hstats1 | simpl; now rewrite Hl].
  - split; [now apply credit_complete | simpl; now rewrite Hl].
Qed.

Lemma drain_links ks : forall w, links (fold_left drainKey ks w) = links w.
Proof.
  induction ks as [|k r IH]; intros w; [reflexivity|]. simpl. rewrite IH.
  apply drainKey_frame.
Qed.

Lemma drained_routable w : routable w -> routable (drained w).
Proof.
  intros [Hstats Hwf]. unfold drained.
  destruct (drain_fold_frame (Obj.keys (queues (networkState w))) (clearTick w))
    as (_ & _ & _ & Hns & _).
  split.
  - intros n Hn. rewrite Hns. now apply Hstats.
  - now rewrite drain_links.
Qed.

(** ** Induction over the traffic generated in a tick *)

Section Packets.
Variable rnd : string -> nat -> nat.
Variable I : nat -> World -> Prop.
Variables (s : string) (count : nat).

Hypothesis s_node : In s nodes.

Hypothesis I_send : forall k i d w w',
  (i < count)%nat -> In d nodes -> d <> s ->
  routable w -> I k w -> sendPacket s d i w = Done tt w' -> I (S k) w'.

Lemma packetLoop_runs : forall n i k w,
  (i + n <= count)%nat -> routable w -> I k w ->
  exists w', packetLoop rnd s n i w = Done tt w' /\ routable w' /\ I (k + n) w'.
Proof.
  induction n as [|n IH]; intros i k w Hn Hr HI.
  - exists w. rewrite Nat.add_0_r. split; [reflexivity | split; assumption].
  - change (packetLoop rnd s (S n) i w)
      with ((packetStep rnd s i ;; packetLoop rnd s n (S i)) w).
    unfold bind, packetStep.
    destruct (getRandomDestination_other s (rnd s i)) as (d & -> & Hne & Hd).
    destruct (sendPacket_total s d i w (proj1 Hr) (proj2 Hr) s_node Hd) as (w1 & E).
    rewrite E. replace (k + S n)%nat with (S k + n)%nat by lia.
    apply IH; [lia | eapply sendPacket_routable; eassumption|].
    eapply (I_send k i d); try eassumption. lia.
Qed.
End Packets.

(** How a source step that returns is made: the source's record is
    written, then its packets are sent. *)
Lemma sourceStep_shape rnd t s r w :
  routable w -> In s nodes ->
  exists ns,
    Obj.get s (nodeStats (networkState w)) = Some ns /\
    routable (openSource s r ns w) /\
    sourceStep rnd t (s, r) w
    = match packetLoop rnd s (Z.to_nat r) 0 (openSource s r ns w) with
      | Done _ w' => Done (t + r) w'
      | Abort w' => Abort w'
      end.
Proof.
  intros Hr Hs. unfold sourceStep, bind at 1, gets.
  destruct (Obj.get s (nodeStats (networkState w))) as [ns|] eqn:E;
    [|destruct (proj1 Hr s Hs E)].
  exists ns. split; [reflexivity|].
  split; [split; [apply openSource_complete, Hr | apply Hr]|].
  unfold bind at 1, modify. unfold bind at 1.
  change (mkWorld _ (links w) (trafficRates w)) with (openSource s r ns w).
  destruct (packetLoop rnd s (Z.to_nat r) 0 (openSource s r ns w)); reflexivity.
Qed.

Section Generation.
Variable rnd : string -> nat -> nat.
Variable I : nat -> World -> Prop.
Variable entries : list (string * Z).

Hypothesis entries_nodes : forall s r, In (s, r) entries -> In s nodes.

Hypothesis I_send : forall k s r i d w w',
  In (s, r) entries -> (i < Z.to_nat r)%nat -> In d nodes -> d <> s ->
  routable w -> I k w -> sendPacket s d i w = Done tt w' -> I (S k) w'.

Hypothesis I_open : forall k s r ns w,
  In (s, r) entries -> Obj.get s (nodeStats (networkState w)) = Some ns ->
  routable w -> I k w -> I k (openSource s r ns w).

Lemma sourceStep_runs t k s r w :
  In (s, r) entries -> routable w -> I k w ->
  exists w', sourceStep rnd t (s, r) w = Done (t + r) w' /\ routable w' /\
             I (k + Z.to_nat r) w'.
Proof.
  intros Hin Hr HI.
  destruct (sourceStep_shape rnd t s r w Hr (entries_nodes s r Hin)) as (ns & Hns & Hr0 & ->).
  destruct (packetLoop_runs rnd I s (Z.to_nat r) (entries_nodes s r Hin)
                            (fun k i d w0 w' => I_send k s r i d w0 w' Hin)
                            (Z.to_nat r) 0 k (openSource s r ns w))
    as (w' & -> & Hr' & HI').
  - lia.
  - exact Hr0.
  - now apply I_open.
  - exists w'. split; [reflexivity | split; assumption].
Qed.

Lemma sourceLoop_runs es : incl es entries -> forall t k w,
  routable w -> I k w ->
  exists w', sourceLoop rnd t es w = Done (t + sumZ (map snd es)) w' /\ routable w' /\
             I (k + offered es) w'.
Proof.
  induction es as [|[s r] es IH]; intros Hincl t k w Hr HI.
  - exists w. simpl. rewrite Z.add_0_r, Nat.add_0_r. split; [reflexivity | split; assumption].
  - change (sourceLoop rnd t ((s, r) :: es) w)
      with ((t' <- sourceStep rnd t (s, r) ;; sourceLoop rnd t' es) w).
    unfold bind.
    destruct (sourceStep_runs t k s r w (Hincl _ (or_introl eq_refl)) Hr HI)
      as (w1 & -> & Hr1 & HI1).
    destruct (IH (fun x Hx => Hincl x (or_intror Hx)) (t + r) (k + Z.to_nat r)%nat w1 Hr1 HI1)
      as (w' & E & Hr' & HI').
    exists w'. split; [|split; [assumption|]].
    + rewrite E. simpl. f_equal. lia.
    + change (offered ((s, r) :: es)) with (Z.to_nat r + offered es)%nat.
      now rewrite Nat.add_assoc.
Qed.
End Generation.

(** A tick on a ready state returns; its traffic starts from the drained
    state, keeps every invariant of the four effects, and ends with the
    two counters bumped. The invariant may count the packets sent. *)
Lemma simulateTick_runs rnd (I : nat -> World -> Prop) w table :
  Obj.get (currentTime (networkState w)) (trafficRates w) = Some table ->
  (forall s r, In (s, r) table -> In s nodes) ->
  routable w ->
  (forall k s r i d w1 w', In (s, r) table -> (i < Z.to_nat r)%nat -> In d nodes -> d <> s ->
                           routable w1 -> I k w1 -> sendPacket s d i w1 = Done tt w' ->
                           I (S k) w') ->
  (forall k s r ns w1, In (s, r) table ->
                       Obj.get s (nodeStats (networkState w1)) = Some ns ->
                       routable w1 -> I k w1 -> I k (openSource s r ns w1)) ->
  I 0%nat (drained w) ->
  exists w1,
    simulateTick rnd w = Done tt (finishTick (sumZ (Obj.values table)) w1) /\
    routable w1 /\ I (offered table) w1.
Proof.
  intros Htable Hkeys Hr Hsend Hopen HI.
  rewrite (simulateTick_run rnd w table Htable).
  unfold bind at 1. rewrite processQueuedPackets_run.
  change (fold_left drainKey _ (clearTick w)) with (drained w).
  unfold generateTraffic, bind at 1, Obj.entries.
  destruct (sourceLoop_runs rnd I table Hkeys Hsend Hopen table (incl_refl _) 0 0%nat (drained w)
                            (drained_routable w Hr) HI) as (w1 & -> & Hr1 & HI1).
  exists w1. split; [|split; assumption]. reflexivity.
Qed.

(* ------------------------------------------------------------------ *)
(** ** A tick always returns                                           *)
(* ------------------------------------------------------------------ *)

Lemma sameSetup_refl w : sameSetup w w.
Proof. repeat split. Qed.

Lemma frame_setup w w' : sameButLinkState w w' -> sameSetup w w'.
Proof.
  intros (H1 & H2 & _ & _ & _ & H6 & H7 & H8 & H9).
  split; [exact H1|]. split; [exact H2|]. split; [exact H8|]. split; [exact H9|].
  split; assumption.
Qed.

Lemma sendPacket_setup s d i w w' : sendPacket s d i w = Done tt w' -> sameSetup w w'.
Proof.
  intros H.
  destruct (sendPacket_cases s d i w w' H) as (path & _ & [[_ ->]|[_ Hc]]);
    [apply sameSetup_refl|].
  pose proof (frame_setup _ _ (travel_frame path w)) as F.
  destruct Hc as [[_ ->]|(_ & ns & _ & ->)]; exact F.
Qed.

Lemma drained_setup w : sameSetup w (drained w).
Proof.
  unfold drained.
  destruct (drain_fold_frame (Obj.keys (queues (networkState w))) (clearTick w))
    as (H1 & _ & _ & _ & H5 & H6 & H7 & H8).
  split; [rewrite drain_links; reflexivity|].
  split; [exact H1|]. split; [exact H7|]. split; [exact H8|]. split; assumption.
Qed.

Lemma table_keys (table : Obj.t Z) :
  (forall s, In s (Obj.keys table) -> In s nodes) ->
  forall s r, In (s, r) table -> In s nodes.
Proof. intros H s r Hin. apply H. unfold Obj.keys. now apply (in_map fst) in Hin. Qed.

Lemma ready_complete : nodeStatsComplete world_ready.
Proof.
  intros n Hn. simpl in Hn.
  destruct Hn as [<-|[<-|[<-|[<-|[<-|[]]]]]]; vm_compute; discriminate.
Qed.

Lemma narrow_complete : nodeStatsComplete world_narrow.
Proof.
  intros n Hn. simpl in Hn.
  destruct Hn as [<-|[<-|[<-|[<-|[<-|[]]]]]]; vm_compute; discriminate.
Qed.


Lemma narrow_wellFormed : wellFormed nodes (links world_narrow).
Proof.
  intros l Hl. vm_compute in Hl.
  destruct Hl as [<-|[<-|[<-|[<-|[<-|[<-|[]]]]]]]; vm_compute; tauto.
Qed.

Lemma narrow_table :
  Obj.get (currentTime (networkState world_narrow)) (trafficRates world_narrow)
  = Some [("A", 0); ("B", 3); ("C", 0); ("D", 0); ("E", 0)].
Proof. vm_compute. reflexivity. Qed.

Lemma narrow_keys :
  forall s, In s (Obj.keys [("A", 0); ("B", 3); ("C", 0); ("D", 0); ("E", 0)]) -> In s nodes.
Proof. intros s Hs. exact Hs. Qed.

Lemma narrow_table_keys :
  NoDup (Obj.keys [("A", 0); ("B", 3); ("C", 0); ("D", 0); ("E", 0)]).
Proof. repeat constructor; simpl; intuition discriminate. Qed.



(** What a tick does to the clock and the configuration. *)
Lemma tick_returns :
  forall (rnd : string -> nat -> nat) (w : World) (table : Obj.t Z),
    nodeStatsComplete w ->
    wellFormed nodes (links w) ->
    Obj.get (currentTime (networkState w)) (trafficRates w) = Some table ->
    (forall s, In s (Obj.keys table) -> In s nodes) ->
    exists w',
      simulateTick rnd w = Done tt w' /\
      simulationStep (networkState w') = simulationStep (networkState w) + 1 /\
      totalPacketsGenerated (networkState w')
      = totalPacketsGenerated (networkState w) + sumZ (Obj.values table) /\
      links w' = links w /\
      trafficRates w' = trafficRates w /\
      currentTime (networkState w') = currentTime (networkState w) /\
      isRunning (networkState w') = isRunning (networkState w) /\
      nodeStatsComplete w'.
Proof.
  intros rnd w table Hstats Hwf Htable Hkeys.
  destruct (simulateTick_runs rnd (fun _ => sameSetup w) w table Htable
                              (table_keys table Hkeys) (conj Hstats Hwf))
    as (w1 & -> & [Hc1 _] & (S1 & S2 & S3 & S4 & S5 & S6)).
  - intros _ s r i d w1 w' _ _ _ _ _ (A1 & A2 & A3 & A4 & A5 & A6) Hsend.
    destruct (sendPacket_setup s d i w1 w' Hsend) as (B1 & B2 & B3 & B4 & B5 & B6).
    unfold sameSetup. rewrite B1, B2, B3, B4, B5, B6. repeat split; assumption.
  - intros _ s r ns w1 _ _ _ H. exact H.
  - apply drained_setup.
  - exists (finishTick (sumZ (Obj.values table)) w1).
    split; [reflexivity|]. simpl. rewrite S5, S6.
    repeat split; assumption.
Qed.

(** X8. Once every node has its statistics record and the current slot has
    a rate table over the nodes, a tick returns whatever the rates, the
    capacities, the queues and the draws are; it advances the step by one,
    adds the sum of the slot's rates to the generated counter, and leaves
    the links, the rate tables, the slot and the running flag as they were,
    so that the next tick returns as well. *)
Theorem simulateTick_returns :
  forall (rnd : string -> nat -> nat) (w : World) (table : Obj.t Z),
    nodeStatsComplete w ->
    wellFormed nodes (links w) ->
    Obj.get (currentTime (networkState w)) (trafficRates w) = Some table ->
    (forall s, In s (Obj.keys table) -> In s nodes) ->
    exists w',
      simulateTick rnd w = Done tt w' /\
      simulationStep (networkState w') = simulationStep (networkState w) + 1 /\
      totalPacketsGenerated (networkState w')
      = totalPacketsGenerated (networkState w) + sumZ (Obj.values table) /\
      links w' = links w /\
      trafficRates w' = trafficRates w /\
      currentTime (networkState w') = currentTime (networkState w) /\
      isRunning (networkState w') = isRunning (networkState w) /\
      nodeStatsComplete w'.
Proof. exact tick_returns. Qed.

Lemma simulateTick_returns_witness :
  exists w',
    simulateTick rnd3 world_narrow = Done tt w' /\
    simulationStep (networkState w') = simulationStep (networkState world_narrow) + 1 /\
    totalPacketsGenerated (networkState w')
    = totalPacketsGenerated (networkState world_narrow)
      + sumZ (Obj.values [("A", 0); ("B", 3); ("C", 0); ("D", 0); ("E", 0)]) /\
    links w' = links world_narrow /\
    trafficRates w' = trafficRates world_narrow /\
    currentTime (networkState w') = currentTime (networkState world_narrow) /\
    isRunning (networkState w') = isRunning (networkState world_narrow) /\
    nodeStatsComplete w'.
Proof.
  apply (simulateTick_returns rnd3 world_narrow [("A", 0); ("B", 3); ("C", 0); ("D", 0); ("E", 0)]).
  - exact narrow_complete.
  - exact narrow_wellFormed.
  - exact narrow_table.
  - exact narrow_keys.
Defined.

(** X9. A tick needs the node records. If the first source of the slot's
    table has no statistics record, as before [initializeNetwork] has run,
    the tick throws right after clearing the tick data and draining the
    queues, so neither the step nor the generated counter moves. *)
Theorem simulateTick_unprepared :
  forall (rnd : string -> nat -> nat) (w : World) (s : string) (r : Z) (rest : Obj.t Z),
    Obj.get (currentTime (networkState w)) (trafficRates w) = Some ((s, r) :: rest) ->
    Obj.get s (nodeStats (networkState w)) = None ->
    simulateTick rnd w = Abort (drained w) /\
    simulationStep (networkState (drained w)) = simulationStep (networkState w) /\
    totalPacketsGenerated (networkState (drained w)) = totalPacketsGenerated (networkState w).
Proof.
  intros rnd w s r rest Htable Hs.
  pose proof (drained_setup w) as (D1 & D2 & D3 & _ & D5 & D6).
  split; [|split; assumption].
  rewrite (simulateTick_run rnd w ((s, r) :: rest) Htable).
  unfold bind at 1. rewrite processQueuedPackets_run.
  change (fold_left drainKey _ (clearTick w)) with (drained w).
  unfold generateTraffic, bind at 1, Obj.entries.
  change (sourceLoop rnd 0 ((s, r) :: rest) (drained w))
    with ((t' <- sourceStep rnd 0 (s, r) ;; sourceLoop rnd t' rest) (drained w)).
  unfold bind at 1, sourceStep, bind at 1, gets.
  pose proof (drain_fold_frame (Obj.keys (queues (networkState w))) (clearTick w))
    as (_ & _ & _ & Hns & _).
  change (fold_left drainKey _ (clearTick w)) with (drained w) in Hns.
  rewrite Hns. simpl. rewrite Hs. reflexivity.
Qed.

Lemma simulateTick_unprepared_witness :
  simulateTick rnd0 world_init = Abort (drained world_init) /\
  simulationStep (networkState (drained world_init)) = simulationStep (networkState world_init) /\
  totalPacketsGenerated (networkState (drained world_init))
  = totalPacketsGenerated (networkState world_init).
Proof.
  apply (simulateTick_unprepared rnd0 world_init "A" 50 [("B", 30); ("C", 40); ("D", 20); ("E", 60)]);
    reflexivity.
Defined.

(* ------------------------------------------------------------------ *)
(** ** Link loads after a tick                                         *)
(* ------------------------------------------------------------------ *)

Lemma loadsBounded_ext w w' :
  links w' = links w -> linkLoads (networkState w') = linkLoads (networkState w) ->
  loadsBounded w -> loadsBounded w'.
Proof.
  intros Hl Hll H key. specialize (H key). unfold loadOf in *. now rewrite Hl, Hll.
Qed.

Lemma charge_bounded key w :
  capacitiesNonNegative (links w) -> loadsBounded w ->
  loadsBounded (snd (charge key 1 w)).
Proof.
  intros Hcap H. pose proof (H key) as Hkey. unfold charge.
  destruct (findLink key (links w)) as [link|] eqn:E; [|exact H].
  destruct (capacity link <? loadOf key w + 1) eqn:C;
    [apply Z.ltb_lt in C | apply Z.ltb_ge in C];
    intros k; specialize (H k); simpl; unfold loadOf in *; simpl;
    rewrite (get_set (V := Z)); destruct (String.eqb key k) eqn:K;
    try exact H; apply String.eqb_eq in K; subst k; rewrite E; simpl; lia.
Qed.

Lemma travel_bounded path : forall w,
  capacitiesNonNegative (links w) -> loadsBounded w -> loadsBounded (snd (travel path w)).
Proof.
  induction path as [|a [|b rest] IH]; intros w Hcap H; try exact H.
  change (loadsBounded (snd (travel (b :: rest) (snd (charge (linkKey a b) 1 w))))).
  pose proof (charge_frame (linkKey a b) 1 w) as (Hl & _).
  apply IH; [now rewrite Hl | now apply charge_bounded].
Qed.

Lemma sendPacket_bounded s d i w w' :
  sendPacket s d i w = Done tt w' ->
  capacitiesNonNegative (links w) -> loadsBounded w -> loadsBounded w'.
Proof.
  intros H Hcap Hb.
  destruct (sendPacket_cases s d i w w' H) as (path & _ & [[_ ->]|[_ Hc]]); [exact Hb|].
  pose proof (travel_bounded path w Hcap Hb) as Hb'.
  destruct Hc as [[_ ->]|(_ & ns & _ & ->)];
    (eapply loadsBounded_ext; [| |exact Hb']; reflexivity).
Qed.

Lemma drained_bounded w : capacitiesNonNegative (links w) -> loadsBounded (drained w).
Proof.
  intros Hcap key. unfold drained, loadOf.
  destruct (drain_fold_frame (Obj.keys (queues (networkState w))) (clearTick w))
    as (_ & -> & _).
  rewrite drain_links. simpl.
  destruct (findLink key (links w)) as [link|] eqn:E; [|reflexivity].
  apply find_some in E. specialize (Hcap link (proj1 E)). lia.
Qed.

(** X10. With no negative capacity, a tick leaves every link with a load
    between 0 and its capacity, whatever was queued or loaded before, and
    no load under a key that names no link. *)
Theorem simulateTick_loads_bounded :
  forall (rnd : string -> nat -> nat) (w : World) (table : Obj.t Z),
    nodeStatsComplete w ->
    wellFormed nodes (links w) ->
    Obj.get (currentTime (networkState w)) (trafficRates w) = Some table ->
    (forall s, In s (Obj.keys table) -> In s nodes) ->
    capacitiesNonNegative (links w) ->
    exists w',
      simulateTick rnd w = Done tt w' /\
      forall key,
        match findLink key (links w') with
        | Some link => 0 <= loadOf key w' <= capacity link
        | None => loadOf key w' = 0
        end.
Proof.
  intros rnd w table Hstats Hwf Htable Hkeys Hcap.
  destruct (simulateTick_runs rnd (fun _ w1 => links w1 = links w /\ loadsBounded w1)
                              w table Htable (table_keys table Hkeys) (conj Hstats Hwf))
    as (w1 & -> & _ & Hl & Hb).
  - intros _ s r i d w1 w' _ _ _ _ _ [Hl Hb] Hsend. split.
    + rewrite <- Hl. apply (sendPacket_setup s d i w1 w' Hsend).
    + apply (sendPacket_bounded s d i w1 w' Hsend); [now rewrite Hl | exact Hb].
  - intros _ s r ns w1 _ _ _ H. exact H.
  - split; [apply drained_setup | now apply drained_bounded].
  - eexists. split; [reflexivity|]. exact Hb.
Qed.

Lemma narrow_capacities : capacitiesNonNegative (links world_narrow).
Proof.
  intros l Hl. vm_compute in Hl.
  destruct Hl as [<-|[<-|[<-|[<-|[<-|[<-|[]]]]]]]; vm_compute; discriminate.
Qed.

Lemma simulateTick_loads_bounded_witness :
  exists w',
    simulateTick rnd3 world_narrow = Done tt w' /\
    forall key,
      match findLink key (links w') with
      | Some link => 0 <= loadOf key w' <= capacity link
      | None => loadOf key w' = 0
      end.
Proof.
  apply (simulateTick_loads_bounded rnd3 world_narrow
           [("A", 0); ("B", 3); ("C", 0); ("D", 0); ("E", 0)]).
  - exact narrow_complete.
  - exact narrow_wellFormed.
  - exact narrow_table.
  - exact narrow_keys.
  - exact narrow_capacities.
Defined.

(* ------------------------------------------------------------------ *)
(** ** The books of a tick                                             *)
(* ------------------------------------------------------------------ *)

Lemma travel_hops path : forall w,
  map hop_from (fst (travel path w)) = removelast path /\
  map hop_to (fst (travel path w)) = tl path /\
  map hop_linkKey (fst (travel path w)) = keysOf path /\
  (forall h, In h (fst (travel path w)) -> hop_transmitted h = true ->
             findLink (hop_linkKey h) (links w) <> None).
Proof.
  induction path as [|a [|b rest] IH]; intros w;
    try (split; [reflexivity|]; split; [reflexivity|]; split; [reflexivity|]; intros h []).
  destruct (IH (snd (charge (linkKey a b) 1 w))) as (H1 & H2 & H3 & H4).
  pose proof (charge_frame (linkKey a b) 1 w) as (Hl & _).
  change (fst (travel (a :: b :: rest) w))
    with (mkHop a b (fst (charge (linkKey a b) 1 w)) (linkKey a b)
            :: fst (travel (b :: rest) (snd (charge (linkKey a b) 1 w)))).
  split; [|split; [|split]].
  - cbn [map hop_from]. rewrite H1. reflexivity.
  - cbn [map hop_to]. rewrite H2. reflexivity.
  - cbn [map hop_linkKey]. rewrite H3. reflexivity.
  - intros h [<-|Hh] Ht.
    + cbn [hop_transmitted hop_linkKey] in *. unfold charge in Ht.
      destruct (findLink (linkKey a b) (links w)); [discriminate|].
      discriminate Ht.
    + rewrite <- Hl. now apply H4.
Qed.

Lemma countTransmitted_snoc ps p :
  countTransmitted (ps ++ [p]) = countTransmitted ps + (if pkt_transmitted p then 1 else 0).
Proof.
  unfold countTransmitted. rewrite filter_app, length_app. simpl.
  destruct (pkt_transmitted p); simpl; lia.
Qed.

Lemma countReceived_snoc n ps p :
  countReceived n (ps ++ [p])
  = countReceived n ps
    + (if pkt_transmitted p && String.eqb (pkt_destination p) n then 1 else 0).
Proof.
  unfold countReceived. rewrite filter_app, length_app. simpl.
  destruct (pkt_transmitted p && String.eqb (pkt_destination p) n); simpl; lia.
Qed.

Lemma receivedOf_ext n w w' :
  nodeStats (networkState w') = nodeStats (networkState w) -> receivedOf n w' = receivedOf n w.
Proof. intros H. unfold receivedOf. now rewrite H. Qed.

Lemma receivedOf_credit n d ns w :
  Obj.get d (nodeStats (networkState w)) = Some ns ->
  receivedOf n (credit d ns w) = receivedOf n w + (if String.eqb d n then 1 else 0).
Proof.
  intros H. unfold receivedOf. simpl. rewrite (get_set (V := NodeStat)).
  destruct (String.eqb d n) eqn:E; [|lia].
  apply String.eqb_eq in E. subst n. now rewrite H.
Qed.

Lemma receivedOf_openSource n s r ns w :
  Obj.get s (nodeStats (networkState w)) = Some ns ->
  receivedOf n (openSource s r ns w) = receivedOf n w.
Proof.
  intros H. unfold receivedOf. simpl. rewrite (get_set (V := NodeStat)).
  destruct (String.eqb s n) eqn:E; [|reflexivity].
  apply String.eqb_eq in E. subst n. now rewrite H.
Qed.

Lemma forallb_hops_keys (hops : list Hop) (ls : list Link) :
  (forall h, In h hops -> hop_transmitted h = true -> findLink (hop_linkKey h) ls <> None) ->
  forallb hop_transmitted hops = true ->
  forall key, In key (map hop_linkKey hops) -> findLink key ls <> None.
Proof.
  intros H Hall key Hkey. apply in_map_iff in Hkey. destruct Hkey as (h & <- & Hh).
  apply H; [exact Hh|]. rewrite forallb_forall in Hall. now apply Hall.
Qed.

Lemma packetOf_recorded w table s r i d path w1 :
  In (s, r) table -> (i < Z.to_nat r)%nat -> In d nodes -> d <> s ->
  links w1 = links w ->
  simulationStep (networkState w1) = simulationStep (networkState w) ->
  dijkstra nodes (links w1) s d = Some path -> (2 <= List.length path)%nat ->
  recorded (links w) table (simulationStep (networkState w)) (packetOf s d i path w1).
Proof.
  intros Hin Hi Hd Hne Hl Hstep Hpath Hlen.
  destruct (travel_hops path w1) as (T1 & T2 & T3 & T4).
  unfold recorded, packetOf.
  cbn [pkt_id pkt_source pkt_destination pkt_path pkt_route pkt_transmitted pkt_timestamp].
  split; [exists r, i; split; [exact Hin | split; [exact Hi | reflexivity]]|].
  split; [exact Hd|]. split; [exact Hne|].
  split; [now rewrite <- Hl|]. split; [exact Hlen|].
  split; [exact T1|]. split; [exact T2|]. split; [exact T3|].
  split; [reflexivity|]. split; [|exact Hstep].
  intros Hall key Hkey. rewrite <- Hl. rewrite <- T3 in Hkey.
  eapply forallb_hops_keys; eassumption.
Qed.

Lemma sendPacket_ledger w table k s r i d w1 w' :
  In (s, r) table -> (i < Z.to_nat r)%nat -> In d nodes -> d <> s ->
  ledger w table k w1 -> sendPacket s d i w1 = Done tt w' ->
  ledger w table (S k) w'.
Proof.
  intros Hin Hi Hd Hne (HS & HF & HL & HT & HR) Hsend.
  pose proof (sendPacket_setup s d i w1 w' Hsend) as HS'.
  assert (HSw : sameSetup w w').
  { destruct HS as (A1 & A2 & A3 & A4 & A5 & A6), HS' as (B1 & B2 & B3 & B4 & B5 & B6).
    unfold sameSetup. rewrite B1, B2, B3, B4, B5, B6. repeat split; assumption. }
  split; [exact HSw|]. clear HSw HS'.
  destruct HS as (S1 & _ & _ & _ & S5 & _).
  destruct (sendPacket_cases s d i w1 w' Hsend) as (path & Hpath & [[_ ->]|[Hlen Hc]]).
  - split; [exact HF|]. split; [lia|]. split; assumption.
  - pose proof (travel_frame path w1) as (_ & _ & F3 & F4 & F5 & _).
    pose proof (packetOf_recorded w table s r i d path w1 Hin Hi Hd Hne S1 S5 Hpath Hlen)
      as Hrec.
    destruct Hc as [[Hf ->]|(Ht & ns & Hns & ->)].
    + cbn [recordPacket networkState packetStats set_packetStats totalPacketsTransmitted].
      rewrite F4, F5. split; [apply Forall_app; split; [exact HF | now constructor]|].
      split; [rewrite length_app; simpl; lia|].
      split.
      * rewrite countTransmitted_snoc, Hf. lia.
      * intros n. rewrite countReceived_snoc, Hf. cbn [andb].
        rewrite Z.add_0_r, <- HR. apply receivedOf_ext. exact F3.
    + assert (E : packetStats (networkState
                                 (credit d ns (recordPacket (packetOf s d i path w1)
                                                            (snd (travel path w1)))))
                  = packetStats (networkState w1) ++ [packetOf s d i path w1]).
      { simpl. now rewrite F4. }
      rewrite E.
      split; [apply Forall_app; split; [exact HF | now constructor]|].
      split; [rewrite length_app; simpl; lia|].
      split.
      * rewrite countTransmitted_snoc, Ht. simpl. rewrite F5. lia.
      * intros n. rewrite countReceived_snoc, Ht. cbn [andb].
        rewrite receivedOf_credit by (simpl; now rewrite F3).
        rewrite (receivedOf_ext n w1 (recordPacket _ _)) by (simpl; exact F3).
        rewrite HR.
        change (pkt_destination (packetOf s d i path w1)) with d. lia.
Qed.

Lemma openSource_ledger w table k s r ns w1 :
  Obj.get s (nodeStats (networkState w1)) = Some ns ->
  ledger w table k w1 -> ledger w table k (openSource s r ns w1).
Proof.
  intros Hns (HS & HF & HL & HT & HR).
  split; [exact HS|]. split; [exact HF|]. split; [exact HL|]. split; [exact HT|].
  intros n. rewrite receivedOf_openSource by exact Hns. apply HR.
Qed.

Lemma drained_ledger w table : ledger w table 0 (drained w).
Proof.
  pose proof (drain_fold_frame (Obj.keys (queues (networkState w))) (clearTick w))
    as (_ & _ & Hps & Hns & _).
  change (fold_left drainKey _ (clearTick w)) with (drained w) in *.
  split; [apply drained_setup|]. rewrite Hps. simpl.
  split; [constructor|]. split; [lia|]. split; [unfold countTransmitted; simpl; lia|].
  intros n. unfold countReceived. simpl. rewrite Z.add_0_r.
  apply receivedOf_ext. exact Hns.
Qed.

(** The books are kept by every tick that can run. *)
Lemma simulateTick_ledger rnd w table :
  nodeStatsComplete w ->
  wellFormed nodes (links w) ->
  Obj.get (currentTime (networkState w)) (trafficRates w) = Some table ->
  (forall s, In s (Obj.keys table) -> In s nodes) ->
  exists w1,
    simulateTick rnd w = Done tt (finishTick (sumZ (Obj.values table)) w1) /\
    routable w1 /\ ledger w table (offered table) w1.
Proof.
  intros Hstats Hwf Htable Hkeys.
  apply (simulateTick_runs rnd (ledger w table) w table Htable (table_keys table Hkeys)
                           (conj Hstats Hwf)).
  - intros k s r i d w1 w' Hin Hi Hd Hne _ HL Hsend.
    exact (sendPacket_ledger w table k s r i d w1 w' Hin Hi Hd Hne HL Hsend).
  - intros k s r ns w1 _ Hns _ HL. now apply openSource_ledger.
  - apply drained_ledger.
Qed.

Lemma narrow_connected : connected (links world_narrow).
Proof.
  intros a b Ha Hb.
  destruct (dijkstra_correct nodes (links world_narrow) a b narrow_wellFormed Ha Hb)
    as (p & Hp & [[Hr _]|[-> _]]); [now exists p|].
  exfalso. simpl in Ha, Hb.
  destruct Ha as [<-|[<-|[<-|[<-|[<-|[]]]]]];
    destruct Hb as [<-|[<-|[<-|[<-|[<-|[]]]]]]; vm_compute in Hp; discriminate.
Qed.

(** X11. Every record a tick leaves in [packetStats] is well formed: its
    source has a rate of at least 1 in the slot's table and its id is built
    from source, destination and a packet number below that rate; its
    destination is another node; its path is the one [dijkstra] returns on
    the links and has at least two nodes; its route lists the hops of that
    path in order with their link keys; it is marked transmitted exactly
    when every hop is, and then every hop key names a link; its timestamp
    is the step at which the tick started. There is at most one record per
    packet the table asks for. *)
Theorem simulateTick_records :
  forall (rnd : string -> nat -> nat) (w : World) (table : Obj.t Z),
    nodeStatsComplete w ->
    wellFormed nodes (links w) ->
    Obj.get (currentTime (networkState w)) (trafficRates w) = Some table ->
    (forall s, In s (Obj.keys table) -> In s nodes) ->
    exists w',
      simulateTick rnd w = Done tt w' /\
      Forall (recorded (links w) table (simulationStep (networkState w)))
             (packetStats (networkState w')) /\
      (List.length (packetStats (networkState w')) <= offered table)%nat.
Proof.
  intros rnd w table Hstats Hwf Htable Hkeys.
  destruct (simulateTick_ledger rnd w table Hstats Hwf Htable Hkeys)
    as (w1 & -> & _ & (_ & HF & HL & _)).
  eexists. split; [reflexivity|]. split; [exact HF | exact HL].
Qed.

Lemma simulateTick_records_witness :
  exists w',
    simulateTick rnd3 world_narrow = Done tt w' /\
    Forall (recorded (links world_narrow) [("A", 0); ("B", 3); ("C", 0); ("D", 0); ("E", 0)]
                     (simulationStep (networkState world_narrow)))
           (packetStats (networkState w')) /\
    (List.length (packetStats (networkState w'))
     <= offered [("A", 0); ("B", 3); ("C", 0); ("D", 0); ("E", 0)]%Z)%nat.
Proof.
  apply (simulateTick_records rnd3 world_narrow
           [("A", 0); ("B", 3); ("C", 0); ("D", 0); ("E", 0)]).
  - exact narrow_complete.
  - exact narrow_wellFormed.
  - exact narrow_table.
  - exact narrow_keys.
Defined.

Lemma route_two ls s d p : route ls s d p -> d <> s -> (2 <= List.length p)%nat.
Proof.
  intros (Hhd & Hlast & _) Hne.
  destruct p as [|x [|y r]]; simpl in *; try lia.
  - discriminate.
  - injection Hhd as ->. congruence.
Qed.

(** X12. On a topology in which any two nodes are joined by a route, no
    packet is dropped silently: a tick leaves exactly one record for every
    packet the slot's table asks for, whatever the capacities and the
    draws are. *)
Theorem simulateTick_records_every_packet :
  forall (rnd : string -> nat -> nat) (w : World) (table : Obj.t Z),
    nodeStatsComplete w ->
    wellFormed nodes (links w) ->
    Obj.get (currentTime (networkState w)) (trafficRates w) = Some table ->
    (forall s, In s (Obj.keys table) -> In s nodes) ->
    connected (links w) ->
    exists w',
      simulateTick rnd w = Done tt w' /\
      List.length (packetStats (networkState w')) = offered table.
Proof.
  intros rnd w table Hstats Hwf Htable Hkeys Hconn.
  destruct (simulateTick_runs
              rnd (fun k w1 => links w1 = links w /\
                               List.length (packetStats (networkState w1)) = k)
              w table Htable (table_keys table Hkeys) (conj Hstats Hwf))
    as (w1 & -> & _ & _ & HL).
  - intros k s r i d w1 w' Hin _ Hd Hne _ [Hl Hk] Hsend.
    split; [rewrite <- Hl; apply (sendPacket_setup s d i w1 w' Hsend)|].
    destruct (sendPacket_cases s d i w1 w' Hsend) as (path & Hpath & [[Hlen _]|[_ Hc]]).
    + exfalso. rewrite Hl in Hpath.
      assert (Hs : In s nodes) by (eapply table_keys; eassumption).
      destruct (dijkstra_correct nodes (links w) s d Hwf Hs Hd)
        as (p & Hp & [[Hr _]|[_ Hno]]).
      * rewrite Hp in Hpath. injection Hpath as <-.
        pose proof (route_two _ _ _ _ Hr Hne). lia.
      * destruct (Hconn s d Hs Hd) as (q & Hq). exact (Hno q Hq).
    + pose proof (travel_frame path w1) as (_ & _ & _ & F4 & _).
      destruct Hc as [[_ ->]|(_ & ns & _ & ->)]; simpl; rewrite F4, length_app; simpl; lia.
  - intros k s r ns w1 _ _ _ H. exact H.
  - split; [apply drained_setup|].
    destruct (drain_fold_frame (Obj.keys (queues (networkState w))) (clearTick w))
      as (_ & _ & Hps & _).
    unfold drained. rewrite Hps. reflexivity.
  - eexists. split; [reflexivity|]. exact HL.
Qed.

Lemma simulateTick_records_every_packet_witness :
  exists w',
    simulateTick rnd3 world_narrow = Done tt w' /\
    List.length (packetStats (networkState w'))
    = offered [("A", 0); ("B", 3); ("C", 0); ("D", 0); ("E", 0)].
Proof.
  apply (simulateTick_records_every_packet rnd3 world_narrow
           [("A", 0); ("B", 3); ("C", 0); ("D", 0); ("E", 0)]).
  - exact narrow_complete.
  - exact narrow_wellFormed.
  - exact narrow_table.
  - exact narrow_keys.
  - exact narrow_connected.
Defined.



(* ------------------------------------------------------------------ *)
(** ** Routes are undirected, link keys are not                        *)
(* ------------------------------------------------------------------ *)

Lemma adj_listed ns ls a b : wellFormed ns ls -> adj ls a b -> In a ns /\ In b ns.
Proof.
  intros Hwf (l & Hl & [[<- <-]|[<- <-]]); destruct (Hwf l Hl); tauto.
Qed.

Lemma keysOf_last ls : forall p x dflt,
  chained ls (x :: p) -> p <> [] ->
  exists a, adj ls a (last (x :: p) dflt) /\
            In (linkKey a (last (x :: p) dflt)) (keysOf (x :: p)).
Proof.
  induction p as [|y [|z r] IH]; intros x dflt Hc Hne; [congruence| |].
  - exists x. split; [apply Hc | now left].
  - destruct (IH y dflt (proj2 Hc)) as (a & Ha & Hin); [discriminate|].
    exists a. split; [exact Ha|]. right. exact Hin.
Qed.

(** A route of two nodes or more starts with a hop that leaves the source
    and ends with a hop that enters the destination. *)
Lemma keysOf_ends ls s d p :
  route ls s d p -> (2 <= List.length p)%nat ->
  (exists b, adj ls s b /\ In (linkKey s b) (keysOf p)) /\
  (exists a, adj ls a d /\ In (linkKey a d) (keysOf p)).
Proof.
  intros (Hhd & Hlast & Hc) Hlen.
  destruct p as [|x [|y r]]; simpl in Hlen; try lia.
  injection Hhd as ->. split.
  - exists y. split; [apply Hc | now left].
  - rewrite <- Hlast. apply keysOf_last; [exact Hc | discriminate].
Qed.

Lemma recorded_ends ls table step p :
  wellFormed nodes ls -> In (pkt_source p) nodes ->
  recorded ls table step p -> pkt_transmitted p = true ->
  (exists b, In b nodes /\ findLink (linkKey (pkt_source p) b) ls <> None) /\
  (exists a, In a nodes /\ findLink (linkKey a (pkt_destination p)) ls <> None).
Proof.
  intros Hwf Hs (_ & Hd & Hne & Hpath & Hlen & _ & _ & _ & _ & Hkeys & _) Ht.
  specialize (Hkeys Ht).
  destruct (dijkstra_correct nodes ls (pkt_source p) (pkt_destination p) Hwf Hs Hd)
    as (q & Hq & Hcase).
  rewrite Hq in Hpath. injection Hpath as Hqp. subst q.
  destruct Hcase as [[Hr _]|[Hnil _]]; [|rewrite Hnil in Hlen; simpl in Hlen; lia].
  destruct (keysOf_ends ls _ _ _ Hr Hlen) as [(b & Hb & Hkb) (a & Ha & Hka)].
  split.
  - exists b. split; [apply (adj_listed nodes ls _ _ Hwf Hb) | now apply Hkeys].
  - exists a. split; [apply (adj_listed nodes ls _ _ Hwf Ha) | now apply Hkeys].
Qed.

Lemma recorded_source ls table step p :
  (forall s, In s (Obj.keys table) -> In s nodes) ->
  recorded ls table step p -> In (pkt_source p) nodes.
Proof.
  intros Hkeys ((r & i & Hin & _) & _). eapply table_keys; eassumption.
Qed.

Lemma countReceived_none x ps :
  (forall p, In p ps -> pkt_destination p = x -> pkt_transmitted p = false) ->
  countReceived x ps = 0.
Proof.
  intros H. unfold countReceived.
  replace (filter _ ps) with (@nil Packet); [reflexivity|].
  symmetry. induction ps as [|p ps IH]; [reflexivity|]. simpl.
  destruct (pkt_transmitted p) eqn:Et; simpl.
  - destruct (String.eqb (pkt_destination p) x) eqn:Ex.
    + apply String.eqb_eq in Ex. rewrite (H p (or_introl eq_refl) Ex) in Et. discriminate.
    + apply IH. intros q Hq. apply H. now right.
  - apply IH. intros q Hq. apply H. now right.
Qed.

Lemma ledger_inbound w table k w1 x :
  wellFormed nodes (links w) -> (forall s, In s (Obj.keys table) -> In s nodes) ->
  ledger w table k w1 ->
  (forall a, In a nodes -> findLink (linkKey a x) (links w) = None) ->
  (forall p, In p (packetStats (networkState w1)) ->
             pkt_destination p = x -> pkt_transmitted p = false) /\
  receivedOf x w1 = receivedOf x w.
Proof.
  intros Hwf Hkeys (_ & HF & _ & _ & HR) Hno. rewrite Forall_forall in HF.
  assert (Hin : forall p, In p (packetStats (networkState w1)) ->
                          pkt_destination p = x -> pkt_transmitted p = false).
  { intros p Hp Hx. destruct (pkt_transmitted p) eqn:Et; [|reflexivity].
    destruct (recorded_ends _ _ _ p Hwf (recorded_source _ _ _ p Hkeys (HF p Hp))
                            (HF p Hp) Et) as [_ (a & Ha & Hfound)].
    rewrite Hx in Hfound. destruct (Hfound (Hno a Ha)). }
  split; [exact Hin|]. rewrite HR, (countReceived_none x _ Hin). lia.
Qed.

Lemma ledger_outbound w table k w1 x :
  wellFormed nodes (links w) -> (forall s, In s (Obj.keys table) -> In s nodes) ->
  ledger w table k w1 ->
  (forall b, In b nodes -> findLink (linkKey x b) (links w) = None) ->
  forall p, In p (packetStats (networkState w1)) ->
            pkt_source p = x -> pkt_transmitted p = false.
Proof.
  intros Hwf Hkeys (_ & HF & _) Hno p Hp Hx. rewrite Forall_forall in HF.
  destruct (pkt_transmitted p) eqn:Et; [|reflexivity].
  destruct (recorded_ends _ _ _ p Hwf (recorded_source _ _ _ p Hkeys (HF p Hp))
                          (HF p Hp) Et) as [(b & Hb & Hfound) _].
  rewrite Hx in Hfound. destruct (Hfound (Hno b Hb)).
Qed.



(* ------------------------------------------------------------------ *)
(** ** What a tick writes into the node records                        *)
(* ------------------------------------------------------------------ *)

Lemma offered_ext n w w' :
  nodeStats (networkState w') = nodeStats (networkState w) ->
  generatedOf n w' = generatedOf n w /\ currentLoadOf n w' = currentLoadOf n w.
Proof. intros H. unfold generatedOf, currentLoadOf. now rewrite H. Qed.

Lemma offered_credit n d ns w :
  Obj.get d (nodeStats (networkState w)) = Some ns ->
  generatedOf n (credit d ns w) = generatedOf n w /\
  currentLoadOf n (credit d ns w) = currentLoadOf n w.
Proof.
  intros H. unfold generatedOf, currentLoadOf. simpl. rewrite (get_set (V := NodeStat)).
  destruct (String.eqb d n) eqn:E; [|split; reflexivity].
  apply String.eqb_eq in E. subst n. rewrite H. split; reflexivity.
Qed.

Lemma offered_openSource n s r ns w :
  Obj.get s (nodeStats (networkState w)) = Some ns ->
  generatedOf n (openSource s r ns w)
  = generatedOf n w + (if String.eqb s n then r else 0) /\
  currentLoadOf n (openSource s r ns w)
  = (if String.eqb s n then r else currentLoadOf n w).
Proof.
  intros H. unfold generatedOf, currentLoadOf. simpl. rewrite (get_set (V := NodeStat)).
  destruct (String.eqb s n) eqn:E; [|split; [lia | reflexivity]].
  apply String.eqb_eq in E. subst n. rewrite H. split; reflexivity.
Qed.

Lemma sendPacket_offered s d i w w' :
  sendPacket s d i w = Done tt w' ->
  forall n, generatedOf n w' = generatedOf n w /\ currentLoadOf n w' = currentLoadOf n w.
Proof.
  intros H n.
  destruct (sendPacket_cases s d i w w' H) as (path & _ & [[_ ->]|[_ Hc]]);
    [split; reflexivity|].
  pose proof (travel_frame path w) as (_ & _ & F3 & _).
  destruct Hc as [[_ ->]|(_ & ns & Hns & ->)].
  - apply offered_ext. exact F3.
  - destruct (offered_credit n d ns (recordPacket (packetOf s d i path w)
                                                  (snd (travel path w)))) as [G C].
    + simpl. now rewrite F3.
    + rewrite G, C. apply offered_ext. exact F3.
Qed.

Lemma packetLoop_offered rnd s count w :
  In s nodes -> routable w ->
  exists w', packetLoop rnd s count 0 w = Done tt w' /\ routable w' /\
             forall n, generatedOf n w' = generatedOf n w /\
                       currentLoadOf n w' = currentLoadOf n w.
Proof.
  intros Hs Hr.
  destruct (packetLoop_runs
              rnd (fun _ w1 => forall n, generatedOf n w1 = generatedOf n w /\
                                         currentLoadOf n w1 = currentLoadOf n w)
              s count Hs) with (n := count) (i := 0%nat) (k := 0%nat) (w := w)
    as (w' & E & Hr' & H').
  - intros k i d w1 w' _ _ _ _ H1 Hsend n.
    destruct (sendPacket_offered s d i w1 w' Hsend n) as [-> ->]. apply H1.
  - lia.
  - exact Hr.
  - intros n. split; reflexivity.
  - exists w'. split; [exact E | split; assumption].
Qed.

Lemma sourceLoop_offered rnd : forall es t w,
  NoDup (Obj.keys es) -> (forall s r, In (s, r) es -> In s nodes) -> routable w ->
  exists w',
    sourceLoop rnd t es w = Done (t + sumZ (map snd es)) w' /\ routable w' /\
    forall n,
      generatedOf n w' = generatedOf n w + orZero (Obj.get n es) /\
      currentLoadOf n w' = match Obj.get n es with
                           | Some r => r
                           | None => currentLoadOf n w
                           end.
Proof.
  induction es as [|[s r] es IH]; intros t w Hnd Hnodes Hr.
  - exists w. simpl. rewrite Z.add_0_r. split; [reflexivity|].
    split; [exact Hr|]. intros n. split; [lia | reflexivity].
  - change (sourceLoop rnd t ((s, r) :: es) w)
      with ((t' <- sourceStep rnd t (s, r) ;; sourceLoop rnd t' es) w).
    unfold bind.
    assert (Hs : In s nodes) by (apply (Hnodes s r); now left).
    destruct (sourceStep_shape rnd t s r w Hr Hs) as (ns & Hns & Hr0 & ->).
    destruct (packetLoop_offered rnd s (Z.to_nat r) (openSource s r ns w) Hs Hr0)
      as (w1 & -> & Hr1 & H1).
    inversion Hnd as [|? ? Hnotin Hnd']; subst.
    destruct (IH (t + r) w1 Hnd' (fun s0 r0 H => Hnodes s0 r0 (or_intror H)) Hr1)
      as (w' & E & Hr' & H').
    exists w'. split; [rewrite E; simpl; f_equal; lia|]. split; [exact Hr'|].
    intros n. destruct (H' n) as [G C]. destruct (H1 n) as [G1 C1].
    destruct (offered_openSource n s r ns w Hns) as [G0 C0].
    rewrite G, C, G1, C1, G0, C0. simpl.
    destruct (String.eqb s n) eqn:E'.
    + apply String.eqb_eq in E'. subst n.
      assert (Hnone : Obj.get s es = None) by (apply get_None_keys; exact Hnotin).
      rewrite Hnone. simpl. split; [lia | reflexivity].
    + split; [lia | reflexivity].
Qed.

(** X15. With a rate table that lists no source twice, a tick adds to each
    listed node's generated counter exactly the slot's rate of that node,
    negative or not, and sets the node's current load to that rate; the
    record of a node the table does not list keeps both fields. *)
Theorem simulateTick_node_counters :
  forall (rnd : string -> nat -> nat) (w : World) (table : Obj.t Z),
    nodeStatsComplete w ->
    wellFormed nodes (links w) ->
    Obj.get (currentTime (networkState w)) (trafficRates w) = Some table ->
    (forall s, In s (Obj.keys table) -> In s nodes) ->
    NoDup (Obj.keys table) ->
    exists w',
      simulateTick rnd w = Done tt w' /\
      forall n,
        match Obj.get n table with
        | Some rate => generatedOf n w' = generatedOf n w + rate /\ currentLoadOf n w' = rate
        | None => generatedOf n w' = generatedOf n w /\ currentLoadOf n w' = currentLoadOf n w
        end.
Proof.
  intros rnd w table Hstats Hwf Htable Hkeys Hnd.
  rewrite (simulateTick_run rnd w table Htable).
  unfold bind at 1. rewrite processQueuedPackets_run.
  change (fold_left drainKey _ (clearTick w)) with (drained w).
  unfold generateTraffic, bind at 1, Obj.entries.
  destruct (sourceLoop_offered rnd table 0 (drained w) Hnd (table_keys table Hkeys)
                               (drained_routable w (conj Hstats Hwf)))
    as (w1 & -> & _ & H1).
  eexists. split; [reflexivity|]. intros n.
  destruct (H1 n) as [G C].
  destruct (offered_ext n w (drained w)) as [G0 C0].
  { unfold drained.
    destruct (drain_fold_frame (Obj.keys (queues (networkState w))) (clearTick w))
      as (_ & _ & _ & -> & _). reflexivity. }
  unfold generatedOf, currentLoadOf in *. simpl.
  destruct (Obj.get n table) as [rate|]; simpl in G; rewrite G, C; [now rewrite G0|].
  split; [rewrite G0; lia | exact C0].
Qed.

Lemma simulateTick_node_counters_witness :
  exists w',
    simulateTick rnd3 world_narrow = Done tt w' /\
    forall n,
      match Obj.get n [("A", 0); ("B", 3); ("C", 0); ("D", 0); ("E", 0)] with
      | Some rate => generatedOf n w' = generatedOf n world_narrow + rate /\
                     currentLoadOf n w' = rate
      | None => generatedOf n w' = generatedOf n world_narrow /\
                currentLoadOf n w' = currentLoadOf n world_narrow
      end.
Proof.
  apply (simulateTick_node_counters rnd3 world_narrow
           [("A", 0); ("B", 3); ("C", 0); ("D", 0); ("E", 0)]).
  - exact narrow_complete.
  - exact narrow_wellFormed.
  - exact narrow_table.
  - exact narrow_keys.
  - exact narrow_table_keys.
Defined.


(* ------------------------------------------------------------------ *)
(** ** The server, over any sequence of requests                       *)
(* ------------------------------------------------------------------ *)

Lemma linkKeys_endpoints ls ls' : endpoints ls = endpoints ls' -> linkKeys ls = linkKeys ls'.
Proof.
  intros H. unfold linkKeys.
  assert (E : forall l, map (fun l => linkKey (from l) (to l)) l
                        = map (fun e => linkKey (fst e) (snd e)) (endpoints l)).
  { intros l. unfold endpoints. rewrite map_map. reflexivity. }
  now rewrite (E ls), (E ls'), H.
Qed.

Lemma findLink_keys key ls : findLink key ls <> None -> In key (linkKeys ls).
Proof.
  unfold findLink. destruct (find _ ls) as [l|] eqn:E; [intros _ | congruence].
  apply find_some in E. destruct E as [Hl E]. apply String.eqb_eq in E. subst key.
  unfold linkKeys. now apply (in_map (fun l => linkKey (from l) (to l))).
Qed.

Lemma findLink_absent key ls : ~ In key (linkKeys ls) -> findLink key ls = None.
Proof.
  intros H. destruct (findLink key ls) eqn:E; [|reflexivity].
  exfalso. apply H, findLink_keys. congruence.
Qed.

Lemma endpoints_wellFormed ls : endpoints ls = endpoints links_init -> wellFormed nodes ls.
Proof.
  intros H l Hl.
  assert (Hin : In (from l, to l) (endpoints links_init)).
  { rewrite <- H. unfold endpoints. now apply (in_map (fun l => (from l, to l))). }
  cbn in Hin.
  destruct Hin as [E|[E|[E|[E|[E|[E|[]]]]]]]; injection E as <- <-; simpl; tauto.
Qed.

Lemma zeroTable_linkKeys ls : forall o,
  zeroTable ls o = fold_left (fun o k => Obj.set k 0 o) (linkKeys ls) o.
Proof.
  unfold zeroTable, linkKeys. induction ls as [|l r IH]; intros o; [reflexivity|].
  simpl. apply IH.
Qed.

Lemma zeroTable_keys ls :
  endpoints ls = endpoints links_init -> Obj.keys (zeroTable ls []) = linkKeys links_init.
Proof.
  intros H. rewrite zeroTable_linkKeys, (linkKeys_endpoints _ _ H). vm_compute. reflexivity.
Qed.

Lemma no_key_into_A ls a :
  endpoints ls = endpoints links_init -> In a nodes -> findLink (linkKey a "A") ls = None.
Proof.
  intros H Ha. apply findLink_absent. rewrite (linkKeys_endpoints _ _ H).
  simpl in Ha. destruct Ha as [<-|[<-|[<-|[<-|[<-|[]]]]]]; vm_compute; intuition discriminate.
Qed.

Lemma no_key_from_E ls b :
  endpoints ls = endpoints links_init -> In b nodes -> findLink (linkKey "E" b) ls = None.
Proof.
  intros H Hb. apply findLink_absent. rewrite (linkKeys_endpoints _ _ H).
  simpl in Hb. destruct Hb as [<-|[<-|[<-|[<-|[<-|[]]]]]]; vm_compute; intuition discriminate.
Qed.

(** *** Queues during a tick *)

Lemma charge_queues K key w :
  (forall k, findLink k (links w) <> None -> In k K) ->
  queuesNonNegative w -> Obj.keys (queues (networkState w)) = K ->
  queuesNonNegative (snd (charge key 1 w)) /\
  Obj.keys (queues (networkState (snd (charge key 1 w)))) = K.
Proof.
  intros Hlinks Hq Hk. unfold charge.
  destruct (findLink key (links w)) as [link|] eqn:E; [|split; assumption].
  destruct (capacity link <? loadOf key w + 1) eqn:C; [|split; assumption].
  apply Z.ltb_lt in C. pose proof (orZero_nonneg key _ Hq) as Hqk.
  simpl. split.
  - unfold queuesNonNegative. simpl. apply Forall_values_set; [exact Hq|].
    unfold queueOf. lia.
  - rewrite keys_set_present; [exact Hk|].
    intros Hnone. apply get_None_keys in Hnone. apply Hnone. rewrite Hk.
    apply Hlinks. congruence.
Qed.

Lemma travel_queues K path : forall w,
  (forall k, findLink k (links w) <> None -> In k K) ->
  queuesNonNegative w -> Obj.keys (queues (networkState w)) = K ->
  queuesNonNegative (snd (travel path w)) /\
  Obj.keys (queues (networkState (snd (travel path w)))) = K.
Proof.
  induction path as [|a [|b rest] IH]; intros w Hlinks Hq Hk; try (split; assumption).
  change (snd (travel (a :: b :: rest) w))
    with (snd (travel (b :: rest) (snd (charge (linkKey a b) 1 w)))).
  destruct (charge_queues K (linkKey a b) w Hlinks Hq Hk) as [Hq1 Hk1].
  pose proof (charge_frame (linkKey a b) 1 w) as (Hl & _).
  apply IH; [now rewrite Hl | exact Hq1 | exact Hk1].
Qed.

Lemma sendPacket_queues K s d i w w' :
  sendPacket s d i w = Done tt w' ->
  (forall k, findLink k (links w) <> None -> In k K) ->
  queuesNonNegative w -> Obj.keys (queues (networkState w)) = K ->
  queuesNonNegative w' /\ Obj.keys (queues (networkState w')) = K.
Proof.
  intros H Hlinks Hq Hk.
  destruct (sendPacket_cases s d i w w' H) as (path & _ & [[_ ->]|[_ Hc]]);
    [split; assumption|].
  pose proof (travel_queues K path w Hlinks Hq Hk) as Ht.
  destruct Hc as [[_ ->]|(_ & ns & _ & ->)]; exact Ht.
Qed.

Lemma drainKey_keys w key :
  Obj.keys (queues (networkState (drainKey w key))) = Obj.keys (queues (networkState w)).
Proof.
  unfold drainKey, queueOf.
  destruct (0 <? orZero (Obj.get key (queues (networkState w)))) eqn:E; [|reflexivity].
  destruct (findLink key (links w)); [|reflexivity].
  simpl. apply keys_set_present. intros Hnone. rewrite Hnone in E. discriminate.
Qed.

Lemma drained_queues w :
  queuesNonNegative w ->
  queuesNonNegative (drained w) /\
  Obj.keys (queues (networkState (drained w))) = Obj.keys (queues (networkState w)).
Proof.
  intros Hq. unfold drained. split.
  - apply (drain_fold_inv (Obj.keys (queues (networkState w))) (clearTick w)). exact Hq.
  - generalize (Obj.keys (queues (networkState w))) at 1. intros ks.
    change (Obj.keys (queues (networkState w)))
      with (Obj.keys (queues (networkState (clearTick w)))).
    generalize (clearTick w). induction ks as [|k r IH]; intros w0; [reflexivity|].
    simpl. rewrite IH. apply drainKey_keys.
Qed.

(** *** Each request keeps the state sound *)

Lemma sound_ready : sound world_ready.
Proof.
  split; [exact ready_complete|].
  split; [reflexivity|]. split; [reflexivity|].
  split.
  { intros slot Hslot. vm_compute in Hslot.
    destruct Hslot as [<-|[<-|[<-|[<-|[]]]]]; eexists; split; vm_compute; reflexivity. }
  split; [vm_compute; tauto|].
  split; [vm_compute; repeat constructor; discriminate|].
  split; [vm_compute; reflexivity|].
  split; [vm_compute; reflexivity|].
  intros p Hp. vm_compute in Hp. destruct Hp.
Qed.

Lemma sound_table w :
  sound w ->
  exists table,
    Obj.get (currentTime (networkState w)) (trafficRates w) = Some table /\
    Obj.keys table = nodes.
Proof. intros (_ & _ & _ & H4 & H5 & _). now apply H4. Qed.

Lemma simulateTick_sound rnd w :
  sound w -> exists w', simulateTick rnd w = Done tt w' /\ sound w'.
Proof.
  intros Hs. destruct (sound_table w Hs) as (table & Htable & Hkeys).
  destruct Hs as (H1 & H2 & H3 & H4 & H5 & H6 & H7 & H8 & H9).
  pose proof (endpoints_wellFormed _ H2) as Hwf.
  assert (Hk : forall s, In s (Obj.keys table) -> In s nodes) by (now rewrite Hkeys).
  assert (Hlinks : forall k, findLink k (links w) <> None -> In k (linkKeys links_init)).
  { intros k Hfound. rewrite <- (linkKeys_endpoints _ _ H2). now apply findLink_keys. }
  destruct (simulateTick_runs
              rnd (fun k w1 => ledger w table k w1 /\ queuesNonNegative w1 /\
                               Obj.keys (queues (networkState w1)) = linkKeys links_init)
              w table Htable (table_keys table Hk) (conj H1 Hwf))
    as (w1 & -> & [Hc1 _] & HL & Hq1 & Hk1).
  - intros k s r i d w1 w' Hin Hi Hd Hne _ (HL & Hq1 & Hk1) Hsend.
    split; [exact (sendPacket_ledger w table k s r i d w1 w' Hin Hi Hd Hne HL Hsend)|].
    apply (sendPacket_queues _ s d i w1 w' Hsend); [|exact Hq1 | exact Hk1].
    destruct HL as ((-> & _) & _). exact Hlinks.
  - intros k s r ns w1 _ Hns _ (HL & Hq1 & Hk1).
    split; [now apply openSource_ledger|]. split; assumption.
  - split; [apply drained_ledger|].
    destruct (drained_queues w H6) as [Hq0 Hk0]. split; [exact Hq0|]. now rewrite Hk0.
  - eexists. split; [reflexivity|].
    pose proof HL as ((S1 & S2 & S3 & _) & _).
    assert (HinA : forall a, In a nodes -> findLink (linkKey a "A") (links w) = None)
      by (intros a Ha; now apply no_key_into_A).
    assert (HoutE : forall b, In b nodes -> findLink (linkKey "E" b) (links w) = None)
      by (intros b Hb; now apply no_key_from_E).
    destruct (ledger_inbound w table _ w1 "A" Hwf Hk HL HinA) as [HA HrA].
    pose proof (ledger_outbound w table _ w1 "E" Hwf Hk HL HoutE) as HE.
    split; [exact Hc1|]. simpl. rewrite S1, S2, S3.
    split; [exact H2|]. split; [exact H3|]. split; [exact H4|]. split; [exact H5|].
    split; [exact Hq1|]. split; [exact Hk1|].
    split; [change (receivedOf "A" w1 = 0); now rewrite HrA|].
    intros p Hp [Hsrc|Hdst]; [now apply HE | now apply HA].
Qed.

Lemma nodeStats_init_complete ns ls tr :
  nodeStats ns = nodeStats_init -> nodeStatsComplete (mkWorld ns ls tr).
Proof.
  intros E n Hn. simpl. rewrite E. simpl in Hn.
  destruct Hn as [<-|[<-|[<-|[<-|[<-|[]]]]]]; vm_compute; discriminate.
Qed.

Lemma zeroTable_nonneg ls : Forall (fun v => 0 <= v) (Obj.values (zeroTable ls [])).
Proof.
  eapply Forall_impl; [|apply zeroTable_values; constructor].
  intros v ->. lia.
Qed.

Lemma startSimulation_sound w :
  sound w -> exists w', startSimulation w = Done tt w' /\ sound w'.
Proof.
  intros (H1 & H2 & H3 & H4 & H5 & H6 & H7 & H8 & H9).
  unfold startSimulation. run. rewrite initializeNetwork_run. simpl.
  eexists. split; [reflexivity|].
  split; [now apply nodeStats_init_complete|]. simpl.
  split; [exact H2|]. split; [exact H3|]. split; [exact H4|]. split; [exact H5|].
  split; [apply zeroTable_nonneg|]. split; [now apply zeroTable_keys|].
  split; [reflexivity | exact H9].
Qed.

Lemma resetSimulation_sound w :
  sound w -> exists w', resetSimulation w = Done tt w' /\ sound w'.
Proof.
  intros (H1 & H2 & H3 & H4 & H5 & H6 & H7 & H8 & H9).
  rewrite resetSimulation_run.
  eexists. split; [reflexivity|].
  split; [now apply nodeStats_init_complete|]. simpl.
  split; [exact H2|]. split; [exact H3|]. split; [exact H4|].
  split; [vm_compute; tauto|].
  split; [apply zeroTable_nonneg|]. split; [now apply zeroTable_keys|].
  split; [reflexivity | exact H9].
Qed.

Lemma advanceTimeSlot_sound w :
  sound w -> exists w', advanceTimeSlot w = Done tt w' /\ sound w'.
Proof.
  intros Hs. rewrite advanceTimeSlot_run.
  destruct (slotIndex w <? Z.of_nat (List.length (timeSlots w)) - 1) eqn:E;
    [|exists w; split; [reflexivity | exact Hs]].
  apply Z.ltb_lt in E.
  destruct Hs as (H1 & H2 & H3 & H4 & H5 & H6 & H7 & H8 & H9).
  eexists. split; [reflexivity|].
  split; [exact H1|]. simpl.
  split; [exact H2|]. split; [exact H3|]. split; [exact H4|].
  split; [|split; [exact H6|]; split; [exact H7|]; split; [exact H8 | exact H9]].
  change (In (nth (Z.to_nat (slotIndex w + 1)) (timeSlots w) (currentTime (networkState w)))
             (Obj.keys trafficRates_init)).
  rewrite <- H3. apply nth_In.
  pose proof (indexOf_range (currentTime (networkState w)) (timeSlots w)).
  unfold slotIndex, timeSlots in *. lia.
Qed.

Lemma updateTrafficRates_sound nodeId newRate w :
  sound w -> exists b w', updateTrafficRates nodeId newRate w = Done b w' /\ sound w'.
Proof.
  intros Hs. destruct (sound_table w Hs) as (table & Htable & Hkeys).
  unfold updateTrafficRates, bind at 1, getRates. unfold bind at 1, gets.
  rewrite Htable.
  destruct (Dijkstra.mem nodeId nodes) eqn:M;
    [|exists false, w; split; [reflexivity | exact Hs]].
  apply mem_In in M.
  destruct Hs as (H1 & H2 & H3 & H4 & H5 & H6 & H7 & H8 & H9).
  eexists true, _. split; [reflexivity|].
  assert (Hpresent : Obj.get (currentTime (networkState w)) (trafficRates w) <> None)
    by congruence.
  split; [exact H1|]. simpl.
  split; [exact H2|].
  split; [rewrite keys_set_present; assumption|].
  split; [|split; [exact H5|]; split; [exact H6|]; split; [exact H7|];
           split; [exact H8 | exact H9]].
  intros slot Hslot. rewrite (get_set (V := Obj.t Z)).
  destruct (String.eqb (currentTime (networkState w)) slot); [|now apply H4].
  eexists. split; [reflexivity|].
  rewrite keys_set_present; [exact Hkeys|].
  intros Hnone. apply get_None_keys in Hnone. apply Hnone. now rewrite Hkeys.
Qed.

Lemma updateLinkCapacity_sound a b c w :
  sound w -> exists r w', updateLinkCapacity a b c w = Done r w' /\ sound w'.
Proof.
  intros Hs. unfold updateLinkCapacity, bind, getLinks.
  destruct (find (joins a b) (links w));
    [|exists false, w; split; [reflexivity | exact Hs]].
  destruct Hs as (H1 & H2 & H3 & H4 & H5 & H6 & H7 & H8 & H9).
  eexists true, _. split; [reflexivity|].
  split; [exact H1|]. simpl.
  split; [unfold endpoints; rewrite setCapacity_endpoints; exact H2|].
  split; [exact H3|]. split; [exact H4|]. split; [exact H5|]. split; [exact H6|].
  split; [exact H7|]. split; [exact H8 | exact H9].
Qed.

Lemma getNetworkStats_run w : exists s, getNetworkStats w = Done s w.
Proof. unfold getNetworkStats. run. eexists. reflexivity. Qed.

Lemma handler_sound r w :
  sound w -> exists st w', handler r w = Done st w' /\ sound w'.
Proof.
  intros Hs. destruct r as [|rnd| | | |nodeId rate|a b cap| |]; unfold handler.
  - unfold bind. destruct (getNetworkStats_run w) as (s & ->).
    exists Status200, w. split; [reflexivity | exact Hs].
  - unfold bind. destruct (simulateTick_sound rnd w Hs) as (w' & -> & Hs').
    destruct (getNetworkStats_run w') as (s & ->).
    exists Status200, w'. split; [reflexivity | exact Hs'].
  - unfold bind. destruct (startSimulation_sound w Hs) as (w' & -> & Hs').
    exists Status200, w'. split; [reflexivity | exact Hs'].
  - exists Status200. eexists. split; [reflexivity|].
    destruct Hs as (H1 & H2 & H3 & H4 & H5 & H6 & H7 & H8 & H9).
    split; [exact H1|]. split; [exact H2|]. split; [exact H3|]. split; [exact H4|].
    split; [exact H5|]. split; [exact H6|]. split; [exact H7|].
    split; [exact H8 | exact H9].
  - unfold bind. destruct (resetSimulation_sound w Hs) as (w' & -> & Hs').
    exists Status200, w'. split; [reflexivity | exact Hs'].
  - unfold postTraffic. destruct rate as [r|];
      [|exists Status400, w; split; [reflexivity | exact Hs]].
    destruct ((r =? 0) || (r <? 0));
      [exists Status400, w; split; [reflexivity | exact Hs]|].
    unfold bind. destruct (updateTrafficRates_sound nodeId r w Hs) as (b & w' & -> & Hs').
    eexists _, w'. split; [reflexivity | exact Hs'].
  - unfold postLinkCapacity. destruct cap as [c|];
      [|exists Status400, w; split; [reflexivity | exact Hs]].
    destruct ((c =? 0) || (c <=? 0));
      [exists Status400, w; split; [reflexivity | exact Hs]|].
    unfold bind. destruct (updateLinkCapacity_sound a b c w Hs) as (r & w' & -> & Hs').
    eexists _, w'. split; [reflexivity | exact Hs'].
  - unfold bind. destruct (advanceTimeSlot_sound w Hs) as (w' & -> & Hs').
    destruct (getNetworkStats_run w') as (s & ->).
    exists Status200, w'. split; [reflexivity | exact Hs'].
  - unfold bind. destruct (getNetworkStats_run w) as (s & ->).
    exists Status200, w. split; [reflexivity | exact Hs].
Qed.

Lemma serve_sound rs : forall w,
  sound w ->
  Forall (fun a => a <> ServerError) (fst (serve rs w)) /\ sound (snd (serve rs w)).
Proof.
  induction rs as [|r rest IH]; intros w Hs; [split; [constructor | exact Hs]|].
  simpl. unfold respond.
  destruct (handler_sound r w Hs) as (st & w1 & -> & Hs1).
  destruct (IH w1 Hs1) as [Hall Hs']. destruct (serve rest w1) as [answers w'].
  simpl in *. split; [constructor; [discriminate | exact Hall] | exact Hs'].
Qed.

Lemma dijkstra_endpoints ns ls ls' start end_ :
  endpoints ls = endpoints ls' -> dijkstra ns ls start end_ = dijkstra ns ls' start end_.
Proof. intros E. unfold dijkstra. now rewrite (addLinks_endpoints ls ls' _ E). Qed.

Lemma serve_length rs : forall w, List.length (fst (serve rs w)) = List.length rs.
Proof.
  induction rs as [|r rest IH]; intros w; [reflexivity|].
  simpl. destruct (respond r w) as [a w1]. specialize (IH w1).
  destruct (serve rest w1) as [answers w']. simpl in *. now rewrite IH.
Qed.

(** X16. No route handler ever reaches its [catch] block. From the state
    in which app.js leaves the engine at start-up, whatever sequence of
    requests to the nine routes arrives, with whatever node names, link
    ends, integer or absent rate and capacity fields, and whatever the
    draws of the ticks are, every request is answered by its [try] block
    and none with 500: the engine never throws. *)
Theorem server_never_fails :
  forall rs : list Request,
    List.length (fst (serve rs world_ready)) = List.length rs /\
    Forall (fun a => a <> ServerError) (fst (serve rs world_ready)).
Proof.
  intros rs. split; [apply serve_length|].
  apply (serve_sound rs world_ready sound_ready).
Qed.

(** X17. Whatever the server has been asked, the queue table holds exactly
    one entry per link, under the link's key and in the order of the link
    list, and no queue is negative. *)
Theorem server_queues_well_formed :
  forall rs : list Request,
    Obj.keys (queues (networkState (snd (serve rs world_ready)))) = linkKeys links_init /\
    linkKeys (links (snd (serve rs world_ready))) = linkKeys links_init /\
    Forall (fun v => 0 <= v) (Obj.values (queues (networkState (snd (serve rs world_ready))))).
Proof.
  intros rs.
  destruct (serve_sound rs world_ready sound_ready) as [_ (_ & H2 & _ & _ & _ & H6 & H7 & _)].
  split; [exact H7|]. split; [now apply linkKeys_endpoints | exact H6].
Qed.

(** X18. No request adds, removes or redirects anything: the links keep
    their ends, the rate tables keep their four slots, every slot keeps a
    rate for exactly the five nodes, and the current slot is one of the
    four. Only capacities, rates and the engine state change. *)
Theorem server_keeps_topology :
  forall rs : list Request,
    endpoints (links (snd (serve rs world_ready))) = endpoints links_init /\
    Obj.keys (trafficRates (snd (serve rs world_ready))) = Obj.keys trafficRates_init /\
    (forall slot, In slot (Obj.keys trafficRates_init) ->
       exists table, Obj.get slot (trafficRates (snd (serve rs world_ready))) = Some table /\
                     Obj.keys table = nodes) /\
    In (currentTime (networkState (snd (serve rs world_ready)))) (Obj.keys trafficRates_init).
Proof.
  intros rs.
  destruct (serve_sound rs world_ready sound_ready) as [_ (_ & H2 & H3 & H4 & H5 & _)].
  split; [exact H2|]. split; [exact H3|]. split; [exact H4 | exact H5].
Qed.

(** X19. In the topology the program ships, no link key ends in A and none
    starts with E. So whatever the server has been asked, node A has
    received nothing, and no record sent by E or addressed to A is marked
    transmitted, although routes to A and from E exist. *)
Theorem shipped_topology_is_one_way :
  forall rs : list Request,
    receivedOf "A" (snd (serve rs world_ready)) = 0 /\
    (forall p, In p (packetStats (networkState (snd (serve rs world_ready)))) ->
       pkt_source p = "E" \/ pkt_destination p = "A" -> pkt_transmitted p = false) /\
    dijkstra nodes (links (snd (serve rs world_ready))) "E" "A" = Some ["E"; "C"; "A"].
Proof.
  intros rs.
  destruct (serve_sound rs world_ready sound_ready) as [_ (_ & H2 & _ & _ & _ & _ & _ & H8 & H9)].
  split; [exact H8|]. split; [exact H9|].
  rewrite (dijkstra_endpoints nodes (links (snd (serve rs world_ready))) links_init "E" "A" H2).
  vm_compute. reflexivity.
Qed.

(* ------------------------------------------------------------------ *)
(** ** The snapshot of a running server                                *)
(* ------------------------------------------------------------------ *)

Lemma fold_add_sumZ l : forall a, fold_left Z.add l a = a + sumZ l.
Proof.
  induction l as [|x r IH]; intros a; simpl; [lia|]. rewrite IH. unfold sumZ. simpl. lia.
Qed.

Lemma values_by_keys (o : Obj.t Z) :
  NoDup (Obj.keys o) ->
  Obj.values o = map (fun k => orZero (Obj.get k o)) (Obj.keys o).
Proof.
  induction o as [|[k v] r IH]; [reflexivity|].
  intros Hnd. inversion Hnd as [|? ? Hk Hr]; subst.
  cbn [Obj.values Obj.keys map fst snd]. f_equal.
  - simpl. now rewrite String.eqb_refl.
  - change (map snd r) with (Obj.values r). rewrite (IH Hr).
    apply map_ext_in. intros k' Hk'. simpl.
    destruct (String.eqb k k') eqn:E; [|reflexivity].
    apply String.eqb_eq in E. subst k'. contradiction.
Qed.

Lemma linkKeys_init_NoDup : NoDup (linkKeys links_init).
Proof. vm_compute. repeat constructor; simpl; intuition discriminate. Qed.

(** X20. The snapshot of a running server is consistent with itself: it
    has one row per link of the shipped topology, no row shows a negative
    queue, and the average queue size of the summary is the sum of the
    rows' queue sizes over the number of rows. *)
Theorem server_snapshot_consistent :
  forall rs : list Request,
    exists s,
      getNetworkStats (snd (serve rs world_ready)) = Done s (snd (serve rs world_ready)) /\
      map (fun row => (LinkStat.from row, LinkStat.to row)) (Stats.links s)
      = endpoints links_init /\
      Forall (fun row => 0 <= LinkStat.queueSize row) (Stats.links s) /\
      Summary.averageQueueSize (Stats.summary s)
      = mkQuot (sumZ (map LinkStat.queueSize (Stats.links s)))
               (Z.of_nat (List.length (Stats.links s))).
Proof.
  intros rs.
  destruct (serve_sound rs world_ready sound_ready) as [_ (_ & H2 & _ & _ & _ & H6 & H7 & _)].
  set (w := snd (serve rs world_ready)) in *.
  eexists. split; [reflexivity|]. cbn [Stats.links Stats.summary Summary.averageQueueSize].
  split; [rewrite map_map; exact H2|].
  split.
  - apply Forall_forall. intros row Hrow. apply in_map_iff in Hrow.
    destruct Hrow as (l & <- & _). simpl. now apply orZero_nonneg.
  - rewrite length_map, fold_add_sumZ, map_map. f_equal. cbn [LinkStat.queueSize linkStat].
    rewrite values_by_keys by (rewrite H7; apply linkKeys_init_NoDup).
    rewrite H7, <- (linkKeys_endpoints _ _ H2). unfold linkKeys. rewrite map_map.
    reflexivity.
Qed.

Lemma ready_state :
  networkState world_ready
  = mkNetworkState "08:00" false 0 (zeroTable links_init []) (zeroTable links_init [])
                   [] nodeStats_init 0 0.
Proof. vm_compute. reflexivity. Qed.

(** X21. A reset brings a running server back to its start-up state in
    everything but three things it does not touch: the packet history, the
    capacities and the rate tables stay as the requests have left them. *)
Theorem reset_restores_all_but_configuration :
  forall rs : list Request,
    exists w',
      resetSimulation (snd (serve rs world_ready)) = Done tt w' /\
      networkState w'
      = set_packetStats (packetStats (networkState (snd (serve rs world_ready))))
                        (networkState world_ready) /\
      links w' = links (snd (serve rs world_ready)) /\
      trafficRates w' = trafficRates (snd (serve rs world_ready)).
Proof.
  intros rs.
  destruct (serve_sound rs world_ready sound_ready) as [_ (_ & H2 & _)].
  rewrite resetSimulation_run. eexists. split; [reflexivity|].
  split; [|split; reflexivity].
  rewrite ready_state. cbn [networkState set_packetStats].
  rewrite !zeroTable_linkKeys, (linkKeys_endpoints _ _ H2). reflexivity.
Qed.

(* ------------------------------------------------------------------ *)
(** ** The draw of a destination                                       *)
(* ------------------------------------------------------------------ *)

Lemma nodes_NoDup : NoDup nodes.
Proof. repeat constructor; simpl; intuition discriminate. Qed.

(** X22. Every node other than the source can be drawn as a destination,
    and by exactly one index of the list of available nodes: a uniform
    draw of the index gives a uniform draw of the destination. *)
Theorem getRandomDestination_covers :
  forall (source d : string),
    In d nodes -> d <> source ->
    exists r,
      (r < List.length (filter (fun n => negb (String.eqb n source)) nodes))%nat /\
      getRandomDestination source r = Some d /\
      forall r',
        (r' < List.length (filter (fun n => negb (String.eqb n source)) nodes))%nat ->
        getRandomDestination source r' = Some d -> r' = r.
Proof.
  intros source d Hd Hne. unfold getRandomDestination.
  set (available := filter (fun n => negb (String.eqb n source)) nodes).
  assert (Hin : In d available).
  { apply filter_In. split; [exact Hd|]. now apply negb_true_iff, String.eqb_neq. }
  assert (Hnd : NoDup available) by (apply NoDup_filter, nodes_NoDup).
  destruct (In_nth_error _ _ Hin) as (r & Hr).
  assert (Hlt : (r < List.length available)%nat).
  { apply nth_error_Some. congruence. }
  exists r. split; [exact Hlt|]. split.
  - rewrite Nat.mod_small by exact Hlt. exact Hr.
  - intros r' Hlt' Hr'. rewrite Nat.mod_small in Hr' by exact Hlt'.
    rewrite NoDup_nth_error in Hnd. apply Hnd; [exact Hlt'|]. congruence.
Qed.

Lemma getRandomDestination_covers_witness :
  exists r,
    (r < List.length (filter (fun n => negb (String.eqb n "A")) nodes))%nat /\
    getRandomDestination "A" r = Some "C" /\
    forall r',
      (r' < List.length (filter (fun n => negb (String.eqb n "A")) nodes))%nat ->
      getRandomDestination "A" r' = Some "C" -> r' = r.
Proof.
  apply (getRandomDestination_covers "A" "C").
  - simpl. tauto.
  - discriminate.
Defined.

(* ------------------------------------------------------------------ *)
(** ** The two routes that validate                                    *)
(* ------------------------------------------------------------------ *)



Lemma updateLinkCapacity_run a b c w :
  updateLinkCapacity a b c w
  = match find (joins a b) (links w) with
    | Some _ =>
        Done true (mkWorld (networkState w) (setCapacity a b c (links w)) (trafficRates w))
    | None => Done false w
    end.
Proof.
  unfold updateLinkCapacity, bind, getLinks.
  destruct (find (joins a b) (links w)); reflexivity.
Qed.

(** X24. [POST /link/:from/:to/capacity] always answers. It answers 400
    exactly when the capacity is missing, zero or negative; 200 exactly
    when the capacity is positive and a link is listed with these ends in
    this order; 404 in the remaining cases, among them a link named by its
    ends in the other order. Unless it answers 200 the state is untouched;
    when it does, only capacities have changed. *)
Theorem postLinkCapacity_answers :
  forall (a b : string) (cap : option Z) (w : World),
    exists st w',
      postLinkCapacity a b cap w = Done st w' /\
      (st = Status400 <-> (forall c, cap = Some c -> c <= 0)) /\
      (st = Status200 <->
       exists c, cap = Some c /\ 0 < c /\
                 exists l, In l (links w) /\ from l = a /\ to l = b) /\
      (st <> Status200 -> w' = w) /\
      networkState w' = networkState w /\
      trafficRates w' = trafficRates w /\
      endpoints (links w') = endpoints (links w).
Proof.
  intros a b cap w. unfold postLinkCapacity.
  destruct cap as [c|].
  2:{ exists Status400, w. split; [reflexivity|].
      split; [split; [intros _ c; discriminate | reflexivity]|].
      split; [split; [discriminate | intros (c & Hc & _); discriminate]|].
      split; [reflexivity|]. split; [reflexivity|]. split; reflexivity. }
  destruct ((c =? 0) || (c <=? 0)) eqn:E.
  { apply orb_true_iff in E.
    assert (Hc : c <= 0) by (destruct E as [E|E]; [apply Z.eqb_eq in E | apply Z.leb_le in E]; lia).
    exists Status400, w. split; [reflexivity|].
    split; [split; [intros _ c' [= <-]; exact Hc | reflexivity]|].
    split; [split; [discriminate | intros (c' & [= <-] & Hpos & _); lia]|].
    split; [reflexivity|]. split; [reflexivity|]. split; reflexivity. }
  apply orb_false_iff in E. destruct E as [_ E2]. apply Z.leb_gt in E2.
  unfold bind. rewrite updateLinkCapacity_run.
  destruct (find (joins a b) (links w)) as [l|] eqn:F.
  - apply find_some in F. destruct F as [Hl Hj]. unfold joins in Hj.
    apply andb_true_iff in Hj. destruct Hj as [Ha Hb].
    apply String.eqb_eq in Ha, Hb.
    eexists Status200, _. split; [reflexivity|].
    split; [split; [discriminate | intros H; specialize (H c eq_refl); lia]|].
    split; [split; [intros _; exists c; split; [reflexivity|]; split; [exact E2|];
                    exists l; tauto | reflexivity]|].
    split; [congruence|]. split; [reflexivity|]. split; [reflexivity|].
    apply setCapacity_endpoints.
  - exists Status404, w. split; [reflexivity|].
    split; [split; [discriminate | intros H; specialize (H c eq_refl); lia]|].
    split; [split; [discriminate|]|].
    { intros (c' & _ & _ & l & Hl & Ha & Hb). exfalso.
      pose proof (find_none _ _ F l Hl) as Hj. unfold joins in Hj. subst a b.
      rewrite !String.eqb_refl in Hj. discriminate. }
    split; [reflexivity|]. split; [reflexivity|]. split; reflexivity.
Qed.

(* ================================================================== *)
(** * The first version of the engine                                  *)
(* ================================================================== *)

Lemma legacy_links : Legacy.links = links_init.
Proof. reflexivity. Qed.

Lemma connected_init : connected links_init.
Proof.
  intros a b Ha Hb.
  destruct (dijkstra_correct nodes links_init a b wellFormed_init Ha Hb)
    as (p & Hp & [[Hr _]|[-> _]]); [now exists p|].
  exfalso. simpl in Ha, Hb.
  destruct Ha as [<-|[<-|[<-|[<-|[<-|[]]]]]];
    destruct Hb as [<-|[<-|[<-|[<-|[<-|[]]]]]]; vm_compute in Hp; discriminate.
Qed.

Lemma legacy_getRandomDestination source r :
  In source nodes ->
  exists d, Legacy.getRandomDestination source r = Some d /\ d <> source /\ In d nodes.
Proof.
  intros Hs. unfold Legacy.getRandomDestination.
  assert (Hlt : (r mod (List.length nodes - 1) < 4)%nat)
    by (apply Nat.mod_upper_bound; discriminate).
  simpl in Hs.
  destruct Hs as [<-|[<-|[<-|[<-|[<-|[]]]]]];
    destruct (r mod (List.length nodes - 1))%nat as [|[|[|[|n]]]]; try lia;
    eexists; (split; [reflexivity|]); (split; [discriminate | simpl; tauto]).
Qed.

(** What a call of [sendPacket] between two different nodes does. *)
Lemma legacy_sendPacket_run source d s :
  In source nodes -> In d nodes -> d <> source ->
  exists path,
    dijkstra nodes Legacy.links source d = Some path /\
    route Legacy.links source d path /\
    (2 <= List.length path)%nat /\
    Legacy.sendPacket source d s
    = Some (Legacy.mkState (Legacy.time (Legacy.walk path s))
                           (Legacy.queues (Legacy.walk path s))
                           (Legacy.stats (Legacy.walk path s)
                              ++ [Legacy.mkStat source d path])
                           (Legacy.linkUsage (Legacy.walk path s))).
Proof.
  intros Hs Hd Hne. rewrite legacy_links.
  destruct (dijkstra_correct nodes links_init source d wellFormed_init Hs Hd)
    as (p & Hp & [[Hr _]|[_ Hno]]).
  2:{ destruct (connected_init source d Hs Hd) as (q & Hq). destruct (Hno q Hq). }
  pose proof (route_two _ _ _ _ Hr Hne) as Hlen.
  exists p. split; [exact Hp|]. split; [exact Hr|]. split; [exact Hlen|].
  unfold Legacy.sendPacket. rewrite legacy_links, Hp.
  destruct (List.length p <? 2)%nat eqn:E; [|reflexivity].
  apply Nat.ltb_lt in E. lia.
Qed.

Section LegacyTick.
Variable rnd : string -> nat -> nat.
Variable I : nat -> Legacy.State -> Prop.

Hypothesis I_send : forall k source d path s,
  In source nodes -> In d nodes -> d <> source ->
  dijkstra nodes Legacy.links source d = Some path ->
  route Legacy.links source d path -> (2 <= List.length path)%nat ->
  I k s ->
  I (S k) (Legacy.mkState (Legacy.time (Legacy.walk path s))
                          (Legacy.queues (Legacy.walk path s))
                          (Legacy.stats (Legacy.walk path s)
                             ++ [Legacy.mkStat source d path])
                          (Legacy.linkUsage (Legacy.walk path s))).

Lemma legacy_packetLoop_runs source : In source nodes -> forall n i k s,
  I k s ->
  exists s', Legacy.packetLoop rnd source n i s = Some s' /\ I (k + n) s'.
Proof.
  intros Hs. induction n as [|n IH]; intros i k s HI.
  - exists s. rewrite Nat.add_0_r. split; [reflexivity | exact HI].
  - simpl.
    destruct (legacy_getRandomDestination source (rnd source i) Hs) as (d & -> & Hne & Hd).
    destruct (legacy_sendPacket_run source d s Hs Hd Hne) as (path & Hp & Hr & Hlen & ->).
    replace (k + S n)%nat with (S k + n)%nat by lia.
    apply IH. now apply I_send.
Qed.

Lemma legacy_sourceLoop_runs rates : forall sources k s,
  (forall x, In x sources -> In x nodes) -> I k s ->
  exists s',
    Legacy.sourceLoop rnd rates sources s = Some s' /\
    I (k + list_sum (map (fun x => match Obj.get x rates with
                                    | Some p => Z.to_nat p
                                    | None => 0%nat
                                    end) sources)) s'.
Proof.
  induction sources as [|x rest IH]; intros k s Hnodes HI.
  - exists s. simpl. rewrite Nat.add_0_r. split; [reflexivity | exact HI].
  - simpl.
    destruct (legacy_packetLoop_runs x (Hnodes x (or_introl eq_refl))
                (match Obj.get x rates with Some p => Z.to_nat p | None => 0%nat end)
                0%nat k s HI) as (s1 & -> & HI1).
    destruct (IH _ s1 (fun y Hy => Hnodes y (or_intror Hy)) HI1) as (s' & -> & HI').
    exists s'. split; [reflexivity|]. now rewrite Nat.add_assoc.
Qed.

Lemma legacy_simulateTick_runs s :
  Legacy.time s = "08:00" ->
  I 0%nat (Legacy.mkState (Legacy.time s) (Legacy.queues s) [] []) ->
  exists s', Legacy.simulateTick rnd s = Some s' /\ I 200%nat s'.
Proof.
  intros Ht HI. unfold Legacy.simulateTick. rewrite Ht in *.
  change (Obj.get "08:00" Legacy.trafficRates)
    with (Some [("A", 50); ("B", 30); ("C", 40); ("D", 20); ("E", 60)]).
  destruct (legacy_sourceLoop_runs
              [("A", 50); ("B", 30); ("C", 40); ("D", 20); ("E", 60)]
              (Obj.keys [("A", 50); ("B", 30); ("C", 40); ("D", 20); ("E", 60)])
              0%nat _ (fun x Hx => Hx) HI) as (s' & -> & HI').
  exists s'. split; [reflexivity | exact HI'].
Qed.
End LegacyTick.

Lemma legacy_walk_frame path : forall s,
  Legacy.time (Legacy.walk path s) = Legacy.time s /\
  Legacy.stats (Legacy.walk path s) = Legacy.stats s.
Proof.
  induction path as [|a [|b rest] IH]; intros s; try (split; reflexivity).
  change (Legacy.walk (a :: b :: rest) s) with (Legacy.walk (b :: rest) (Legacy.hop a b s)).
  destruct (IH (Legacy.hop a b s)) as [-> ->]. split; reflexivity.
Qed.

(** X25. In the first version of the engine a tick in the slot 08:00
    always returns, keeps the slot, and replaces the packet list by exactly
    200 records, one for every packet of the rate table, whatever the
    draws are; each record joins two different nodes by the path
    [dijkstra] returns, which has at least two nodes. So the one route of
    that version, which runs a tick and answers the snapshot, always
    answers, with these 200 records. *)
Theorem legacy_tick_records_every_packet :
  forall (rnd : string -> nat -> nat) (s : Legacy.State),
    Legacy.time s = "08:00" ->
    exists s',
      Legacy.simulateTick rnd s = Some s' /\
      Legacy.time s' = "08:00" /\
      List.length (Legacy.stats s') = 200%nat /\
      Forall Legacy.routed (Legacy.stats s') /\
      Legacy.getRoot rnd s
      = Some ((Legacy.time s', Legacy.stats s', Legacy.queues s', Legacy.links), s').
Proof.
  intros rnd s Ht.
  destruct (legacy_simulateTick_runs
              rnd (fun k s1 => Legacy.time s1 = "08:00" /\
                               List.length (Legacy.stats s1) = k /\
                               Forall Legacy.routed (Legacy.stats s1)))
    with (s := s) as (s' & E & H1 & H2 & H3).
  - intros k source d path s1 Hs Hd Hne Hp Hr Hlen (H1 & H2 & H3).
    destruct (legacy_walk_frame path s1) as [Wt Ws]. simpl. rewrite Wt, Ws.
    split; [exact H1|]. split; [rewrite length_app; simpl; lia|].
    apply Forall_app. split; [exact H3|]. constructor; [|constructor].
    unfold Legacy.routed. simpl. tauto.
  - exact Ht.
  - simpl. split; [exact Ht|]. split; [reflexivity | constructor].
  - exists s'. split; [exact E|]. split; [exact H1|]. split; [exact H2|].
    split; [exact H3|]. unfold Legacy.getRoot. rewrite E. reflexivity.
Qed.

Lemma legacy_tick_records_every_packet_witness :
  exists s',
    Legacy.simulateTick rnd0 Legacy.state_init = Some s' /\
    Legacy.time s' = "08:00" /\
    List.length (Legacy.stats s') = 200%nat /\
    Forall Legacy.routed (Legacy.stats s') /\
    Legacy.getRoot rnd0 Legacy.state_init
    = Some ((Legacy.time s', Legacy.stats s', Legacy.queues s', Legacy.links), s').
Proof.
  apply (legacy_tick_records_every_packet rnd0 Legacy.state_init). reflexivity.
Defined.

(** *** Queues of the first version *)










(* ------------------------------------------------------------------ *)
(** ** Ticks in a row                                                  *)
(* ------------------------------------------------------------------ *)

(** X27. Ticks compose: on a state in which a tick can run, any number of
    ticks in a row, each with its own draws, together add their number to
    the step and that many times the sum of the slot's rates to the
    generated counter, and leave the links, the rate tables and the slot
    as they were; every node still has its record afterwards. *)
Theorem ticks_accumulate :
  forall (draws : list (string -> nat -> nat)) (w : World) (table : Obj.t Z),
    nodeStatsComplete w ->
    wellFormed nodes (links w) ->
    Obj.get (currentTime (networkState w)) (trafficRates w) = Some table ->
    (forall s, In s (Obj.keys table) -> In s nodes) ->
    simulationStep (networkState (ticks draws w))
    = simulationStep (networkState w) + Z.of_nat (List.length draws) /\
    totalPacketsGenerated (networkState (ticks draws w))
    = totalPacketsGenerated (networkState w)
      + Z.of_nat (List.length draws) * sumZ (Obj.values table) /\
    links (ticks draws w) = links w /\
    trafficRates (ticks draws w) = trafficRates w /\
    currentTime (networkState (ticks draws w)) = currentTime (networkState w) /\
    nodeStatsComplete (ticks draws w).
Proof.
  induction draws as [|rnd draws IH]; intros w table Hstats Hwf Htable Hkeys.
  - simpl. repeat split; try lia. exact Hstats.
  - destruct (tick_returns rnd w table Hstats Hwf Htable Hkeys)
      as (w1 & E & T1 & T2 & T3 & T4 & T5 & _ & T7).
    change (ticks (rnd :: draws) w) with (ticks draws (after (simulateTick rnd) w)).
    unfold after. rewrite E. cbn [stateOf].
    destruct (IH w1 table T7) as (I1 & I2 & I3 & I4 & I5 & I6).
    + now rewrite T3.
    + now rewrite T5, T4.
    + exact Hkeys.
    + rewrite I1, I2, I3, I4, I5, T1, T2, T3, T4, T5.
      change (List.length (rnd :: draws)) with (S (List.length draws)).
      split; [lia|]. split; [lia|]. split; [reflexivity|]. split; [reflexivity|].
      split; [reflexivity | exact I6].
Qed.

Lemma ticks_accumulate_witness :
  simulationStep (networkState (ticks [rnd3; rnd0] world_narrow))
  = simulationStep (networkState world_narrow) + Z.of_nat (List.length [rnd3; rnd0]) /\
  totalPacketsGenerated (networkState (ticks [rnd3; rnd0] world_narrow))
  = totalPacketsGenerated (networkState world_narrow)
    + Z.of_nat (List.length [rnd3; rnd0])
      * sumZ (Obj.values [("A", 0); ("B", 3); ("C", 0); ("D", 0); ("E", 0)]) /\
  links (ticks [rnd3; rnd0] world_narrow) = links world_narrow /\
  trafficRates (ticks [rnd3; rnd0] world_narrow) = trafficRates world_narrow /\
  currentTime (networkState (ticks [rnd3; rnd0] world_narrow))
  = currentTime (networkState world_narrow) /\
  nodeStatsComplete (ticks [rnd3; rnd0] world_narrow).
Proof.
  apply (ticks_accumulate [rnd3; rnd0] world_narrow
           [("A", 0); ("B", 3); ("C", 0); ("D", 0); ("E", 0)]).
  - exact narrow_complete.
  - exact narrow_wellFormed.
  - exact narrow_table.
  - exact narrow_keys.
Defined.


(* ================================================================== *)
(** * The running flag                                                 *)
(* ================================================================== *)

Lemma blind_ret {A} (a : A) : flagBlind (ret a).
Proof. intros b w. reflexivity. Qed.

Lemma blind_abort {A} : flagBlind (@abort A).
Proof. intros b w. reflexivity. Qed.

Lemma blind_bind {A B} (m : Engine A) (k : A -> Engine B) :
  flagBlind m -> (forall a, flagBlind (k a)) -> flagBlind (bind m k).
Proof.
  intros Hm Hk b w. unfold bind. rewrite Hm.
  destruct (m w) as [a w'|w']; simpl; [apply Hk | reflexivity].
Qed.

Lemma blind_gets {A} (g : NetworkState -> A) :
  (forall b s, g (set_isRunning b s) = g s) -> flagBlind (gets g).
Proof. intros Hg b w. unfold gets. simpl. now rewrite Hg. Qed.

Lemma blind_modify (f : NetworkState -> NetworkState) :
  (forall b s, f (set_isRunning b s) = set_isRunning b (f s)) -> flagBlind (modify f).
Proof. intros Hf b w. unfold modify, withFlag. simpl. now rewrite Hf. Qed.

Lemma blind_getLinks : flagBlind getLinks.
Proof. intros b w. reflexivity. Qed.

Lemma blind_getRates : flagBlind getRates.
Proof. intros b w. reflexivity. Qed.

Lemma blind_forEach {A} (f : A -> Engine unit) (l : list A) :
  (forall x, flagBlind (f x)) -> flagBlind (forEach f l).
Proof.
  intros Hf. induction l as [|x r IH]; [apply blind_ret|].
  simpl. apply blind_bind; [apply Hf | intros _; exact IH].
Qed.

Ltac blind_step :=
  first
    [ apply blind_ret
    | apply blind_abort
    | apply blind_getLinks
    | apply blind_getRates
    | apply blind_gets; intros ? []; reflexivity
    | apply blind_modify; intros ? []; reflexivity
    | apply blind_bind; [|intros ?]
    | match goal with
      | |- flagBlind (match ?x with _ => _ end) => destruct x
      end ].

Ltac blind := repeat blind_step.

Lemma blind_updateLinkLoad key packets : flagBlind (updateLinkLoad key packets).
Proof. unfold updateLinkLoad. blind. Qed.

Lemma blind_transmit path : forall packetRoute ok, flagBlind (transmit path packetRoute ok).
Proof.
  induction path as [|a [|b rest] IH]; intros packetRoute ok; try apply blind_ret.
  change (flagBlind (transmitted <- updateLinkLoad (linkKey a b) 1 ;;
                     transmit (b :: rest) (packetRoute ++ [mkHop a b transmitted (linkKey a b)])
                              (if transmitted then ok else false))).
  apply blind_bind; [apply blind_updateLinkLoad | intros t; apply IH].
Qed.

Lemma blind_sendPacket s d i : flagBlind (sendPacket s d i).
Proof.
  unfold sendPacket. apply blind_bind; [apply blind_getLinks | intros ls].
  destruct (Dijkstra.dijkstra nodes ls s d) as [path|]; [|apply blind_abort].
  destruct (List.length path <? 2)%nat; [apply blind_ret|].
  apply blind_bind; [apply blind_transmit | intros [packetRoute ok]].
  blind.
Qed.

Lemma blind_packetLoop rnd s : forall n i, flagBlind (packetLoop rnd s n i).
Proof.
  induction n as [|n IH]; intros i; [apply blind_ret|].
  simpl. apply blind_bind; [|intros _; apply IH].
  unfold packetStep. destruct (getRandomDestination s (rnd s i));
    [apply blind_sendPacket | apply blind_abort].
Qed.

Lemma blind_sourceLoop rnd : forall es t, flagBlind (sourceLoop rnd t es).
Proof.
  induction es as [|[s r] es IH]; intros t; [apply blind_ret|].
  simpl. apply blind_bind; [|intros t'; apply IH].
  apply blind_bind; [apply blind_gets; intros ? []; reflexivity | intros st].
  destruct st as [ns|]; [|apply blind_abort].
  apply blind_bind; [apply blind_modify; intros ? []; reflexivity | intros _].
  apply blind_bind; [apply blind_packetLoop | intros _; apply blind_ret].
Qed.

Lemma blind_processQueuedPackets : flagBlind processQueuedPackets.
Proof.
  unfold processQueuedPackets.
  apply blind_bind; [apply blind_gets; intros ? []; reflexivity | intros qs].
  apply blind_forEach. intros key. blind.
Qed.

(** X28. A tick neither reads nor writes the running flag: on a paused
    simulation it does exactly what it does on a running one, throws
    included, and it leaves the flag as it found it. Pausing stops
    nothing in the engine. *)
Theorem simulateTick_ignores_running_flag :
  forall (rnd : string -> nat -> nat) (b : bool) (w : World),
    simulateTick rnd (withFlag b w) = mapOutcome (withFlag b) (simulateTick rnd w) /\
    isRunning (networkState (stateOf (simulateTick rnd w))) = isRunning (networkState w).
Proof.
  assert (H : forall rnd, flagBlind (simulateTick rnd)).
  { intros rnd. unfold simulateTick.
    apply blind_bind; [apply blind_getRates | intros rates].
    apply blind_bind; [apply blind_gets; intros ? []; reflexivity | intros now].
    destruct (Obj.get now rates) as [currentRates|]; [|apply blind_ret].
    apply blind_bind; [apply blind_modify; intros ? []; reflexivity | intros _].
    apply blind_bind; [apply blind_modify; intros ? []; reflexivity | intros _].
    apply blind_bind; [apply blind_processQueuedPackets | intros _].
    unfold generateTraffic.
    apply blind_bind; [apply blind_sourceLoop | intros t].
    blind. }
  intros rnd b w. split; [apply H|].
  assert (E : w = withFlag (isRunning (networkState w)) w)
    by (destruct w as [[] ? ?]; reflexivity).
  rewrite E at 1. rewrite H.
  destruct (simulateTick rnd w); reflexivity.
Qed.
